(** * libs/hwui/Animator.cpp: render-thread property animators

    A shallow embedding of [BaseRenderNodeAnimator] and its three concrete
    subclasses.  C++ [float] is IEEE-754 binary32, taken from the standard
    library's executable specification [SpecFloat] at precision 24 and
    maximal exponent 128, every operation rounding to nearest, ties to even,
    on its own (no fused multiply-add, no wider intermediate results);
    [nsecs_t] is a 64-bit signed integer carried as [Z]; an aborting
    [LOG_ALWAYS_FATAL] is an error result. *)

From Stdlib Require Import ZArith Bool List String Lia.
From Stdlib Require Import Floats.SpecFloat.
Import ListNotations.
Local Open Scope Z_scope.

(** ** binary32 arithmetic *)

Module Float32.

Definition prec : Z := 24.
Definition emax : Z := 128.

Definition float : Type := spec_float.

(** The bit patterns of binary32: canonical mantissa, exponent in range. *)
Definition valid (x : float) : bool := valid_binary prec emax x.

Definition fadd : float -> float -> float := SFadd prec emax.
Definition fsub : float -> float -> float := SFsub prec emax.
Definition fmul : float -> float -> float := SFmul prec emax.
Definition fdiv : float -> float -> float := SFdiv prec emax.

(** [x >= y] and [x < y] on floats; both are false on a NaN. *)
Definition fge (x y : float) : bool := SFleb y x.
Definition fle (x y : float) : bool := SFleb x y.
Definition flt (x y : float) : bool := SFltb x y.

(** Integer to float conversion, round to nearest, ties to even. *)
Definition of_int (z : Z) : float := binary_normalize prec emax z 0 false.

Definition fzero : float := S754_zero false.
Definition fone : float := S754_finite false 8388608 (-23).
Definition fhalf : float := S754_finite false 8388608 (-24).

(** Truncation toward zero of a finite float. *)
Definition truncate (x : float) : option Z :=
  match x with
  | S754_zero _ => Some 0
  | S754_finite s m e =>
      let a := match e with
               | Zneg p => Z.shiftr (Zpos m) (Zpos p)
               | _ => Z.shiftl (Zpos m) e
               end in
      Some (if s then - a else a)
  | _ => None
  end.

Definition INT_MIN : Z := - 2 ^ 31.
Definition INT_MAX : Z := 2 ^ 31 - 1.

(** [(int) x]: the truncated value when [int] can hold it; otherwise the
    conversion has no defined result. *)
Definition to_int (x : float) : option Z :=
  match truncate x with
  | Some z => if (INT_MIN <=? z) && (z <=? INT_MAX) then Some z else None
  | None => None
  end.

End Float32.

Import Float32.

(** ** 64-bit signed time stamps *)

Definition wrap64 (z : Z) : Z := (z + 2 ^ 63) mod 2 ^ 64 - 2 ^ 63.

Definition int64_range (z : Z) : Prop := - 2 ^ 63 <= z < 2 ^ 63.

(** ** Results of calls that may abort *)

Inductive Failure : Type :=
| LOG_ALWAYS_FATAL (msg : string)
| NullDereference
| UndefinedConversion.

Inductive Result (A : Type) : Type :=
| Ok (a : A)
| Abort (f : Failure).

Arguments Ok {A} a.
Arguments Abort {A} f.

Definition succeeded {A : Type} (r : Result A) : bool :=
  match r with Ok _ => true | Abort _ => false end.

(** ** Data model *)

(** Modelled from the spec: the [PlayState] enumeration of Animator.h, whose
    declaration is not part of the sources; the states are ordered
    NotStarted < Running < Finished. *)
Inductive PlayState : Type := NOT_STARTED | RUNNING | FINISHED.

Definition PlayState_rank (s : PlayState) : Z :=
  match s with NOT_STARTED => 0 | RUNNING => 1 | FINISHED => 2 end.

Definition PlayState_eqb (a b : PlayState) : bool :=
  PlayState_rank a =? PlayState_rank b.
Definition PlayState_ltb (a b : PlayState) : bool :=
  PlayState_rank a <? PlayState_rank b.
Definition PlayState_gtb (a b : PlayState) : bool :=
  PlayState_rank a >? PlayState_rank b.

Definition PlayState_max (a b : PlayState) : PlayState :=
  if PlayState_ltb a b then b else a.

(** An interpolator object is its [interpolate] method. *)
Definition Interpolator : Type := float -> float.

(** Listeners and animation hooks are opaque objects, named by a handle. *)
Definition AnimationListener : Type := nat.
Definition AnimationHook : Type := nat.

Record BaseRenderNodeAnimator : Type := mkAnimator {
  mFinalValue : float;
  mDeltaValue : float;
  mFromValue : float;
  mInterpolator : option Interpolator;
  mStagingPlayState : PlayState;
  mPlayState : PlayState;
  mHasStartValue : bool;
  mStartTime : Z;
  mDuration : Z;
  mStartDelay : Z;
  mListener : option AnimationListener
}.

Definition set_mInterpolator (i : option Interpolator) (a : BaseRenderNodeAnimator) :=
  mkAnimator (mFinalValue a) (mDeltaValue a) (mFromValue a) i
    (mStagingPlayState a) (mPlayState a) (mHasStartValue a) (mStartTime a)
    (mDuration a) (mStartDelay a) (mListener a).

Definition set_startValue (from delta : float) (a : BaseRenderNodeAnimator) :=
  mkAnimator (mFinalValue a) delta from (mInterpolator a)
    (mStagingPlayState a) (mPlayState a) true (mStartTime a)
    (mDuration a) (mStartDelay a) (mListener a).

Definition set_mStagingPlayState (s : PlayState) (a : BaseRenderNodeAnimator) :=
  mkAnimator (mFinalValue a) (mDeltaValue a) (mFromValue a) (mInterpolator a)
    s (mPlayState a) (mHasStartValue a) (mStartTime a)
    (mDuration a) (mStartDelay a) (mListener a).

Definition set_mPlayState (s : PlayState) (a : BaseRenderNodeAnimator) :=
  mkAnimator (mFinalValue a) (mDeltaValue a) (mFromValue a) (mInterpolator a)
    (mStagingPlayState a) s (mHasStartValue a) (mStartTime a)
    (mDuration a) (mStartDelay a) (mListener a).

Definition set_mStartTime (t : Z) (a : BaseRenderNodeAnimator) :=
  mkAnimator (mFinalValue a) (mDeltaValue a) (mFromValue a) (mInterpolator a)
    (mStagingPlayState a) (mPlayState a) (mHasStartValue a) t
    (mDuration a) (mStartDelay a) (mListener a).

Definition set_mDuration (d : Z) (a : BaseRenderNodeAnimator) :=
  mkAnimator (mFinalValue a) (mDeltaValue a) (mFromValue a) (mInterpolator a)
    (mStagingPlayState a) (mPlayState a) (mHasStartValue a) (mStartTime a)
    d (mStartDelay a) (mListener a).

Definition set_mStartDelay (d : Z) (a : BaseRenderNodeAnimator) :=
  mkAnimator (mFinalValue a) (mDeltaValue a) (mFromValue a) (mInterpolator a)
    (mStagingPlayState a) (mPlayState a) (mHasStartValue a) (mStartTime a)
    (mDuration a) d (mListener a).

Definition set_mListener (l : option AnimationListener) (a : BaseRenderNodeAnimator) :=
  mkAnimator (mFinalValue a) (mDeltaValue a) (mFromValue a) (mInterpolator a)
    (mStagingPlayState a) (mPlayState a) (mHasStartValue a) (mStartTime a)
    (mDuration a) (mStartDelay a) l.

(** [TreeInfo]: the frame time, the [out.hasAnimations] flag and the
    optional animation hook. *)
Record TreeInfo : Type := mkTreeInfo {
  frameTimeMs : Z;
  hasAnimations : bool;
  animationHook : option AnimationHook
}.

(** What leaves the animator: deliveries of the finished notification and
    [ALOGW] lines. *)
Inductive Callback : Type :=
| onAnimationFinished (l : AnimationListener)
| callOnFinished (h : AnimationHook) (l : AnimationListener).

Inductive Warning : Type :=
| StrangeStartDelay (delay : Z)
| WeirdStartTime (start frame delay : Z)
| StrangeDuration (duration : Z).

(** The objects one call can touch: the animator itself, the target, the
    tree info, and the callbacks and warnings issued so far (newest
    first). *)
Record World (T : Type) : Type := mkWorld {
  this : BaseRenderNodeAnimator;
  target : T;
  info : TreeInfo;
  callbacks : list Callback;
  logcat : list Warning
}.

Arguments mkWorld {T}.
Arguments this {T}.
Arguments target {T}.
Arguments info {T}.
Arguments callbacks {T}.
Arguments logcat {T}.

(** ** State and abort monad *)

Definition M (T A : Type) : Type := World T -> Result (A * World T).

Definition ret {T A : Type} (x : A) : M T A := fun w => Ok (x, w).

Definition bind {T A B : Type} (c : M T A) (k : A -> M T B) : M T B :=
  fun w => match c w with
           | Ok (x, w') => k x w'
           | Abort f => Abort f
           end.

Declare Scope anim_scope.
Delimit Scope anim_scope with anim.
Notation "x <- c ;; k" := (bind c (fun x => k))
  (at level 61, c at next level, right associativity) : anim_scope.
Notation "c ;; k" := (bind c (fun _ => k))
  (at level 61, right associativity) : anim_scope.
Local Open Scope anim_scope.

Definition abort {T A : Type} (f : Failure) : M T A := fun _ => Abort f.

Definition get_this {T : Type} : M T BaseRenderNodeAnimator :=
  fun w => Ok (this w, w).

Definition get_info {T : Type} : M T TreeInfo :=
  fun w => Ok (info w, w).

Definition get_target {T : Type} : M T T :=
  fun w => Ok (target w, w).

Definition modify_this {T : Type}
  (f : BaseRenderNodeAnimator -> BaseRenderNodeAnimator) : M T unit :=
  fun w => Ok (tt, mkWorld (f (this w)) (target w) (info w) (callbacks w) (logcat w)).

Definition put_target {T : Type} (t : T) : M T unit :=
  fun w => Ok (tt, mkWorld (this w) t (info w) (callbacks w) (logcat w)).

(** [info.out.hasAnimations |= true] *)
Definition mark_hasAnimations {T : Type} : M T unit :=
  fun w => Ok (tt, mkWorld (this w) (target w)
                     (mkTreeInfo (frameTimeMs (info w))
                                 (hasAnimations (info w) || true)
                                 (animationHook (info w)))
                     (callbacks w) (logcat w)).

Definition call {T : Type} (c : Callback) : M T unit :=
  fun w => Ok (tt, mkWorld (this w) (target w) (info w) (c :: callbacks w) (logcat w)).

Definition ALOGW {T : Type} (m : Warning) : M T unit :=
  fun w => Ok (tt, mkWorld (this w) (target w) (info w) (callbacks w) (m :: logcat w)).

Definition when {T : Type} (b : bool) (c : M T unit) : M T unit :=
  if b then c else ret tt.

Definition lift {T A : Type} (r : Result A) : M T A :=
  fun w => match r with Ok x => Ok (x, w) | Abort f => Abort f end.

(** Following a pointer that may be null. *)
Definition deref {T A : Type} (p : option A) : M T A :=
  match p with Some x => ret x | None => abort NullDereference end.

(** ** BaseRenderNodeAnimator *)

(** The two pure virtual methods of the base class, implemented by each
    subclass [V] over the objects [T] it reaches. *)
Class ValueAccessor (V T : Type) : Type := {
  getValue : V -> T -> Result float;
  setValue : V -> float -> T -> Result T
}.

Definition BaseRenderNodeAnimator_new (finalValue : float) : BaseRenderNodeAnimator :=
  {| mFinalValue := finalValue;
     mDeltaValue := of_int 0;
     mFromValue := of_int 0;
     mInterpolator := None;
     mStagingPlayState := NOT_STARTED;
     mPlayState := NOT_STARTED;
     mHasStartValue := false;
     mStartTime := 0;
     mDuration := 300;
     mStartDelay := 0;
     mListener := None |}.

Section Base.

Context {V T : Type} `{ValueAccessor V T}.

(** The subclass part of the animator object. *)
Variable self : V.

(** [Interpolator::createDefaultInterpolator()], defined outside this file. *)
Variable createDefaultInterpolator : Interpolator.

Definition checkMutable : M T unit :=
  a <- get_this ;;
  if negb (PlayState_eqb (mStagingPlayState a) NOT_STARTED)
  then abort (LOG_ALWAYS_FATAL "Animator has already been started!")
  else ret tt.

Definition setInterpolator (interpolator : option Interpolator) : M T unit :=
  checkMutable ;;
  modify_this (set_mInterpolator interpolator).

Definition doSetStartValue (value : float) : M T unit :=
  a <- get_this ;;
  modify_this (set_startValue value (fsub (mFinalValue a) value)).

Definition setStartValue (value : float) : M T unit :=
  checkMutable ;;
  doSetStartValue value.

Definition setDuration (duration : Z) : M T unit :=
  checkMutable ;;
  modify_this (set_mDuration duration).

Definition setStartDelay (startDelay : Z) : M T unit :=
  checkMutable ;;
  modify_this (set_mStartDelay startDelay).

Definition transitionToRunning : M T unit :=
  i <- get_info ;;
  when (frameTimeMs i <=? 0)
       (abort (LOG_ALWAYS_FATAL "isn't a real frame time!")) ;;
  a <- get_this ;;
  when ((mStartDelay a <? 0) || (mStartDelay a >? 50000))
       (ALOGW (StrangeStartDelay (mStartDelay a))) ;;
  modify_this (set_mStartTime (wrap64 (frameTimeMs i + mStartDelay a))) ;;
  a <- get_this ;;
  when (mStartTime a <? 0)
       (ALOGW (WeirdStartTime (mStartTime a) (frameTimeMs i) (mStartDelay a)) ;;
        modify_this (set_mStartTime 0)) ;;
  a <- get_this ;;
  when (match mInterpolator a with None => true | Some _ => false end)
       (setInterpolator (Some createDefaultInterpolator)) ;;
  a <- get_this ;;
  when ((mDuration a <? 0) || (mDuration a >? 50000))
       (ALOGW (StrangeDuration (mDuration a))).

Definition pushStaging : M T unit :=
  a <- get_this ;;
  when (negb (mHasStartValue a))
       (t <- get_target ;;
        v <- lift (getValue self t) ;;
        doSetStartValue v) ;;
  a <- get_this ;;
  when (PlayState_gtb (mStagingPlayState a) (mPlayState a))
       (modify_this (set_mPlayState (mStagingPlayState a)) ;;
        a <- get_this ;;
        when (PlayState_eqb (mPlayState a) RUNNING) transitionToRunning).

Definition callOnFinishedListener : M T unit :=
  a <- get_this ;;
  i <- get_info ;;
  match mListener a with
  | Some l =>
      match animationHook i with
      | None => call (onAnimationFinished l)
      | Some h => call (callOnFinished h l)
      end
  | None => ret tt
  end.

(** The local [fraction] of [animate] before the comparison with 1. *)
Definition rawFraction (a : BaseRenderNodeAnimator) (i : TreeInfo) : float :=
  if PlayState_eqb (mPlayState a) RUNNING && (mDuration a >? 0)
  then fdiv (of_int (wrap64 (frameTimeMs i - mStartTime a))) (of_int (mDuration a))
  else fone.

(** The same local after [if (fraction >= 1.0f) fraction = 1.0f]. *)
Definition clampedFraction (a : BaseRenderNodeAnimator) (i : TreeInfo) : float :=
  if fge (rawFraction a i) fone then fone else rawFraction a i.

Definition animate : M T bool :=
  a <- get_this ;;
  if PlayState_ltb (mPlayState a) RUNNING then ret false else
  i <- get_info ;;
  if mStartTime a >? frameTimeMs i then
    mark_hasAnimations ;; ret false
  else
    let fraction := rawFraction a i in
    when (fge fraction fone) (modify_this (set_mPlayState FINISHED)) ;;
    let fraction := clampedFraction a i in
    interpolator <- deref (mInterpolator a) ;;
    let fraction := interpolator fraction in
    t <- get_target ;;
    t' <- lift (setValue self (fadd (mFromValue a) (fmul (mDeltaValue a) fraction)) t) ;;
    put_target t' ;;
    a <- get_this ;;
    if PlayState_eqb (mPlayState a) FINISHED then
      callOnFinishedListener ;; ret true
    else
      mark_hasAnimations ;; ret false.

End Base.

Arguments checkMutable {T}.
Arguments setInterpolator {T}.
Arguments doSetStartValue {T}.
Arguments setStartValue {T}.
Arguments setDuration {T}.
Arguments setStartDelay {T}.
Arguments transitionToRunning {T}.
Arguments callOnFinishedListener {T}.

(** [finalValue()], [start()] and [end()] are one-line members of the class
    declaration: the first reads [mFinalValue], the other two write
    [mStagingPlayState]. *)
Definition finalValue (a : BaseRenderNodeAnimator) : float := mFinalValue a.

Definition setStagingPlayState {T : Type} (s : PlayState) : M T unit :=
  modify_this (set_mStagingPlayState s).

(** ** RenderNode, as far as the animators use it *)

Module RenderNode.

(** Modelled from the spec: the bits of [RenderNode::DirtyPropertyMask], one
    for each animatable property (the accessor table names every one of
    them but TRANSLATION_Z); distinct enumerators are distinct bits. *)
Inductive DirtyPropertyMask : Type :=
| TRANSLATION_X | TRANSLATION_Y | TRANSLATION_Z
| SCALE_X | SCALE_Y
| ROTATION | ROTATION_X | ROTATION_Y
| X | Y | Z
| ALPHA.

Definition DirtyPropertyMask_eqb (a b : DirtyPropertyMask) : bool :=
  match a, b with
  | TRANSLATION_X, TRANSLATION_X | TRANSLATION_Y, TRANSLATION_Y
  | TRANSLATION_Z, TRANSLATION_Z
  | SCALE_X, SCALE_X | SCALE_Y, SCALE_Y
  | ROTATION, ROTATION | ROTATION_X, ROTATION_X | ROTATION_Y, ROTATION_Y
  | X, X | Y, Y | Z, Z | ALPHA, ALPHA => true
  | _, _ => false
  end.

(** Modelled from the spec: the parts of RenderNode.h the animators touch, a
    committed copy of the properties (also reached through
    [animatorProperties()]), a staging copy, and the dirty bits of the
    staging copy. *)
Record t (RP : Type) : Type := mk {
  properties : RP;
  stagingProperties : RP;
  mDirtyPropertyFields : DirtyPropertyMask -> bool
}.

Arguments mk {RP}.
Arguments properties {RP}.
Arguments stagingProperties {RP}.
Arguments mDirtyPropertyFields {RP}.

Definition isPropertyFieldDirty {RP : Type} (field : DirtyPropertyMask) (n : t RP) : bool :=
  mDirtyPropertyFields n field.

End RenderNode.

(** The float-valued members of [RenderProperties] that the accessor table
    points to; the class itself lives in RenderProperties.h, so its getters
    and setters are an interface here. *)
Inductive FloatProperty : Type :=
| TranslationX | TranslationY | TranslationZ
| ScaleX | ScaleY
| Rotation | RotationX | RotationY
| PropX | PropY | PropZ
| Alpha.

Class RenderPropertiesOps (RP : Type) : Type := {
  rp_get : FloatProperty -> RP -> float;
  rp_set : FloatProperty -> float -> RP -> RP
}.

(** ** RenderPropertyAnimator *)

Module RenderPropertyAnimator.

(** Modelled from the spec: the dense [RenderProperty] enumeration of
    Animator.h that indexes the accessor table, in table order. *)
Inductive RenderProperty : Type :=
| TRANSLATION_X | TRANSLATION_Y | TRANSLATION_Z
| SCALE_X | SCALE_Y
| ROTATION | ROTATION_X | ROTATION_Y
| X | Y | Z
| ALPHA.

Definition RenderProperty_index (p : RenderProperty) : nat :=
  match p with
  | TRANSLATION_X => 0 | TRANSLATION_Y => 1 | TRANSLATION_Z => 2
  | SCALE_X => 3 | SCALE_Y => 4
  | ROTATION => 5 | ROTATION_X => 6 | ROTATION_Y => 7
  | X => 8 | Y => 9 | Z => 10
  | ALPHA => 11
  end%nat.

Definition all_properties : list RenderProperty :=
  [TRANSLATION_X; TRANSLATION_Y; TRANSLATION_Z; SCALE_X; SCALE_Y;
   ROTATION; ROTATION_X; ROTATION_Y; X; Y; Z; ALPHA].

Record PropertyAccessors : Type := mkAccessors {
  dirtyMask : RenderNode.DirtyPropertyMask;
  accessor : FloatProperty
}.

Definition getter {RP : Type} `{RenderPropertiesOps RP} (a : PropertyAccessors) : RP -> float :=
  rp_get (accessor a).
Definition setter {RP : Type} `{RenderPropertiesOps RP} (a : PropertyAccessors) : float -> RP -> RP :=
  rp_set (accessor a).

Definition PROPERTY_ACCESSOR_LUT : list PropertyAccessors :=
  [ mkAccessors RenderNode.TRANSLATION_X TranslationX;
    mkAccessors RenderNode.TRANSLATION_Y TranslationY;
    mkAccessors RenderNode.TRANSLATION_X TranslationZ;
    mkAccessors RenderNode.SCALE_X ScaleX;
    mkAccessors RenderNode.SCALE_Y ScaleY;
    mkAccessors RenderNode.ROTATION Rotation;
    mkAccessors RenderNode.ROTATION_X RotationX;
    mkAccessors RenderNode.ROTATION_Y RotationY;
    mkAccessors RenderNode.X PropX;
    mkAccessors RenderNode.Y PropY;
    mkAccessors RenderNode.Z PropZ;
    mkAccessors RenderNode.ALPHA Alpha ].

(** [&(PROPERTY_ACCESSOR_LUT[property])] *)
Definition mPropertyAccess (property : RenderProperty) : PropertyAccessors :=
  nth (RenderProperty_index property) PROPERTY_ACCESSOR_LUT
      (mkAccessors RenderNode.TRANSLATION_X TranslationX).

Definition new (property : RenderProperty) (finalValue : float)
  : BaseRenderNodeAnimator * PropertyAccessors :=
  (BaseRenderNodeAnimator_new finalValue, mPropertyAccess property).

Section WithProperties.

Context {RP : Type} `{RenderPropertiesOps RP}.

#[global] Instance accessors : ValueAccessor PropertyAccessors (RenderNode.t RP) := {
  getValue self target := Ok (getter self (RenderNode.properties target));
  setValue self value target :=
    Ok (RenderNode.mk (setter self value (RenderNode.properties target))
                      (RenderNode.stagingProperties target)
                      (RenderNode.mDirtyPropertyFields target))
}.

Definition onAttached (self : PropertyAccessors) : M (RenderNode.t RP) unit :=
  a <- get_this ;;
  t <- get_target ;;
  when (negb (mHasStartValue a)
        && RenderNode.isPropertyFieldDirty (dirtyMask self) t)
       (setStartValue (getter self (RenderNode.stagingProperties t))) ;;
  a <- get_this ;;
  t <- get_target ;;
  put_target (RenderNode.mk (RenderNode.properties t)
                            (setter self (finalValue a) (RenderNode.stagingProperties t))
                            (RenderNode.mDirtyPropertyFields t)).

End WithProperties.

End RenderPropertyAnimator.

(** ** CanvasPropertyPrimitiveAnimator *)

Module CanvasPropertyPrimitiveAnimator.

(** The animated cell [mProperty] points to. *)
Record CanvasPropertyPrimitive : Type := mkPrimitive { value : float }.

#[global] Instance accessors : ValueAccessor unit CanvasPropertyPrimitive := {
  getValue _ mProperty := Ok (value mProperty);
  setValue _ v _ := Ok (mkPrimitive v)
}.

End CanvasPropertyPrimitiveAnimator.

(** ** CanvasPropertyPaintAnimator *)

(** [SkPaint] belongs to the graphics library; only these four members are
    used. The alpha channel is an 8-bit unsigned integer. *)
Class SkPaintOps (P : Type) : Type := {
  getStrokeWidth : P -> float;
  setStrokeWidth : float -> P -> P;
  getAlpha : P -> Z;
  setAlpha : Z -> P -> P
}.

Module CanvasPropertyPaintAnimator.

(** The two declared fields, and any other integer a [PaintField] may hold. *)
Inductive PaintField : Type :=
| STROKE_WIDTH
| ALPHA
| OtherField (n : Z).

Definition to_uint8 (value : float) : Result Z :=
  match to_int (fadd value fhalf) with
  | Some c => Ok (if c <? 0 then 0 else if c >? 255 then 255 else c)
  | None => Abort UndefinedConversion
  end.

Section WithPaint.

Context {P : Type} `{SkPaintOps P}.

#[global] Instance accessors : ValueAccessor PaintField P := {
  getValue mField paint :=
    match mField with
    | STROKE_WIDTH => Ok (getStrokeWidth paint)
    | ALPHA => Ok (of_int (getAlpha paint))
    | OtherField _ => Abort (LOG_ALWAYS_FATAL "Unknown field")
    end;
  setValue mField v paint :=
    match mField with
    | STROKE_WIDTH => Ok (setStrokeWidth v paint)
    | ALPHA =>
        match to_uint8 v with
        | Ok c => Ok (setAlpha c paint)
        | Abort f => Abort f
        end
    | OtherField _ => Abort (LOG_ALWAYS_FATAL "Unknown field")
    end
}.

End WithPaint.

End CanvasPropertyPaintAnimator.

(** ** Concrete collaborators used to run the model *)

(** The identity interpolator. *)
Definition linearInterpolator : Interpolator := fun x => x.

(** A paint holding a stroke width and an alpha channel and nothing else. *)
Record PlainPaint : Type := mkPaint { strokeWidth : float; alpha : Z }.

#[global] Instance PlainPaint_ops : SkPaintOps PlainPaint := {
  getStrokeWidth := strokeWidth;
  setStrokeWidth w p := mkPaint w (alpha p);
  getAlpha := alpha;
  setAlpha a p := mkPaint (strokeWidth p) a
}.

Definition FloatProperty_eqb (a b : FloatProperty) : bool :=
  match a, b with
  | TranslationX, TranslationX | TranslationY, TranslationY
  | TranslationZ, TranslationZ | ScaleX, ScaleX | ScaleY, ScaleY
  | Rotation, Rotation | RotationX, RotationX | RotationY, RotationY
  | PropX, PropX | PropY, PropY | PropZ, PropZ | Alpha, Alpha => true
  | _, _ => false
  end.

(** Properties held as one independent float per member. *)
Definition PlainProperties : Type := FloatProperty -> float.

#[global] Instance PlainProperties_ops : RenderPropertiesOps PlainProperties := {
  rp_get p props := props p;
  rp_set p v props := fun q => if FloatProperty_eqb p q then v else props q
}.

Definition newWorld {T : Type} (a : BaseRenderNodeAnimator) (t : T) (frameTime : Z) : World T :=
  mkWorld a t (mkTreeInfo frameTime false None) [] [].

(** Decimal literals: the float nearest to [n / 10 ^ k]. *)
Definition decimal (n : Z) (k : Z) : float := fdiv (of_int n) (of_int (10 ^ k)).

Definition with_this {T : Type} (a : BaseRenderNodeAnimator) (w : World T) : World T :=
  mkWorld a (target w) (info w) (callbacks w) (logcat w).

Definition alreadyStarted {A : Type} : Result A :=
  Abort (LOG_ALWAYS_FATAL "Animator has already been started!").

(** The window outside which [transitionToRunning] warns. *)
Definition out_of_window (z : Z) : bool := (z <? 0) || (z >? 50000).

(** What the control side may do between two commits: move the staging
    state, and present another target state and another tree info. *)
Definition restage {T : Type} (s : PlayState) (t : T) (i : TreeInfo) (w : World T) : World T :=
  mkWorld (set_mStagingPlayState s (this w)) t i (callbacks w) (logcat w).

Section Commits.

Context {V T : Type} `{ValueAccessor V T}.
Variable self : V.
Variable createDefaultInterpolator : Interpolator.

(** A run of commits, each after an arbitrary restaging; the worlds after
    each commit, oldest first. *)
Fixpoint commit_all (steps : list (PlayState * T * TreeInfo)) (w : World T)
  : Result (list (World T)) :=
  match steps with
  | [] => Ok []
  | (s, t, i) :: rest =>
      match pushStaging self createDefaultInterpolator (restage s t i w) with
      | Ok (_, w1) =>
          match commit_all rest w1 with
          | Ok ws => Ok (w1 :: ws)
          | Abort f => Abort f
          end
      | Abort f => Abort f
      end
  end.

End Commits.

Definition committed {T : Type} (w : World T) : PlayState := mPlayState (this w).

Definition staged (T : Type) (step : PlayState * T * TreeInfo) : PlayState :=
  fst (fst step).


(** The deliveries one call of [callOnFinishedListener] makes. *)
Definition notification (a : BaseRenderNodeAnimator) (i : TreeInfo) : list Callback :=
  match mListener a with
  | Some l =>
      match animationHook i with
      | None => [onAnimationFinished l]
      | Some h => [callOnFinished h l]
      end
  | None => []
  end.

Definition with_hasAnimations {T : Type} (w : World T) : World T :=
  mkWorld (this w) (target w)
          (mkTreeInfo (frameTimeMs (info w)) true (animationHook (info w)))
          (callbacks w) (logcat w).

(** The value [animate] hands to [setValue] for an interpolated fraction. *)
Definition animatedValue (a : BaseRenderNodeAnimator) (fraction : float) : float :=
  fadd (mFromValue a) (fmul (mDeltaValue a) fraction).

(** A new frame: the tree walk hands every call a fresh [TreeInfo]. *)
Definition newFrame {T : Type} (frameTime : Z) (hook : option AnimationHook) : M T unit :=
  fun w => Ok (tt, mkWorld (this w) (target w) (mkTreeInfo frameTime false hook)
                     (callbacks w) (logcat w)).

Definition setListener {T : Type} (l : option AnimationListener) : M T unit :=
  modify_this (set_mListener l).

Definition run_on {T A : Type} (c : M T A) (w : World T) : Result (A * World T) := c w.

(** ** Rounding, stated on integers *)

(** Where [a / b] lies between its floor and the next integer. *)
Definition location_of (a b : Z) : location :=
  if a mod b =? 0 then loc_Exact else loc_Inexact (2 * (a mod b) ?= b).

(** [a / b] rounded to the nearest integer, ties to even. *)
Definition rne_div (a b : Z) : Z := round_nearest_even (a / b) (location_of a b).

(** A 24-bit mantissa that rounding may have carried to [2 ^ 24]. *)
Definition normalize24 (s : bool) (M E : Z) : float :=
  if M =? 2 ^ 24 then S754_finite s (Z.to_pos (2 ^ 23)) (E + 1)
  else S754_finite s (Z.to_pos M) E.

(** The value of a shift record, as the quotient it stands for. *)
Definition stands_for (r : shr_record) (a b : Z) : Prop :=
  shr_m r = a / b /\ loc_of_shr_record r = location_of a b.

(** The order of two positive normal floats, read off exponent and mantissa. *)
Definition lex_le (E M E' M' : Z) : Prop := E < E' \/ (E = E' /\ M <= M').

(** Zero or a positive finite float. *)
Definition nonneg_finite (x : float) : Prop :=
  match x with
  | S754_zero _ => True
  | S754_finite false _ _ => True
  | _ => False
  end.

(** ** Exact values, for stating what rounding does *)

(** A finite binary32 value counted in units of [2 ^ -149], the spacing of
    the smallest binade: every binary32 value is a whole number of them. *)
Definition ulps (x : float) : option Z :=
  match x with
  | S754_zero _ => Some 0
  | S754_finite s m e =>
      if -149 <=? e
      then Some ((if s then - Zpos m else Zpos m) * 2 ^ (e + 149))
      else None
  | _ => None
  end.

(** The integer nearest to a value given in units of [2 ^ -149], ties
    upward: the floor of the value plus one half. *)
Definition nearest_integer (u : Z) : Z := (u + 2 ^ 148) / 2 ^ 149.

Definition clamp_uint8 (c : Z) : Z := if c <? 0 then 0 else if c >? 255 then 255 else c.

(** The largest float below one half. *)
Definition below_half : float := S754_finite false 16777215 (-25).

(** ** Sample states *)

(** An animator as a commit leaves it once it runs: start value resolved,
    linear interpolator, a listener attached. *)
Definition runningAnimator (from final : float) (start duration : Z) : BaseRenderNodeAnimator :=
  {| mFinalValue := final;
     mDeltaValue := fsub final from;
     mFromValue := from;
     mInterpolator := Some linearInterpolator;
     mStagingPlayState := RUNNING;
     mPlayState := RUNNING;
     mHasStartValue := true;
     mStartTime := start;
     mDuration := duration;
     mStartDelay := 0;
     mListener := Some 7%nat |}.

Definition sampleCell : CanvasPropertyPrimitiveAnimator.CanvasPropertyPrimitive :=
  CanvasPropertyPrimitiveAnimator.mkPrimitive (of_int 20).

Definition sampleSteps
  : list (PlayState * CanvasPropertyPrimitiveAnimator.CanvasPropertyPrimitive * TreeInfo) :=
  [ (NOT_STARTED, sampleCell, mkTreeInfo 50 false None);
    (RUNNING, sampleCell, mkTreeInfo 100 false None);
    (NOT_STARTED, sampleCell, mkTreeInfo 116 false None);
    (FINISHED, sampleCell, mkTreeInfo 132 false None);
    (RUNNING, sampleCell, mkTreeInfo 148 false None) ].

Definition sampleConfigured : BaseRenderNodeAnimator :=
  set_mInterpolator (Some linearInterpolator) (BaseRenderNodeAnimator_new (of_int 100)).

(** The elapsed times below the default duration. *)
Definition before_default_duration : list Z := map Z.of_nat (seq 0 300).

(** ** The life of an animator *)

(** The calls the owners of an animator make: the configuration setters,
    [setListener], [start()] and [end()] of the class declaration, the
    commit and the evaluation. *)
Inductive Call : Type :=
| CallSetInterpolator (interpolator : option Interpolator)
| CallSetDuration (duration : Z)
| CallSetStartDelay (startDelay : Z)
| CallSetStartValue (value : float)
| CallSetListener (listener : option AnimationListener)
| CallStart
| CallEnd
| CallPushStaging
| CallAnimate.

Section Life.

Context {V T : Type} `{ValueAccessor V T}.
Variable self : V.
Variable createDefaultInterpolator : Interpolator.

Definition perform (c : Call) : M T unit :=
  match c with
  | CallSetInterpolator i => setInterpolator i
  | CallSetDuration d => setDuration d
  | CallSetStartDelay d => setStartDelay d
  | CallSetStartValue v => setStartValue v
  | CallSetListener l => setListener l
  | CallStart => setStagingPlayState RUNNING
  | CallEnd => setStagingPlayState FINISHED
  | CallPushStaging => pushStaging self createDefaultInterpolator
  | CallAnimate => animate self ;; ret tt
  end.

(** The worlds an animator can be in: freshly constructed, after a call
    that returned, or after the target and the tree info changed under
    it. *)
Inductive reachable : World T -> Prop :=
| reachable_new (finalValue : float) (t : T) (i : TreeInfo) :
    reachable (mkWorld (BaseRenderNodeAnimator_new finalValue) t i [] [])
| reachable_call (w w' : World T) (c : Call) :
    reachable w -> perform c w = Ok (tt, w') -> reachable w'
| reachable_env (w : World T) (t : T) (i : TreeInfo) :
    reachable w -> reachable (mkWorld (this w) t i (callbacks w) (logcat w)).

End Life.

(** What every reachable animator satisfies. *)
Definition well_formed (a : BaseRenderNodeAnimator) : Prop :=
  0 <= mStartTime a < 2 ^ 63
  /\ (mStagingPlayState a = NOT_STARTED -> mPlayState a = NOT_STARTED)
  /\ (mPlayState a <> NOT_STARTED -> mHasStartValue a = true)
  /\ (mHasStartValue a = true -> mDeltaValue a = fsub (mFinalValue a) (mFromValue a))
  /\ (mPlayState a = RUNNING -> mInterpolator a <> None).

(** Whether a commit is the one that activates the animator. *)
Definition activating (a : BaseRenderNodeAnimator) : bool :=
  PlayState_eqb (mStagingPlayState a) RUNNING && PlayState_eqb (mPlayState a) NOT_STARTED.

(** The same animator presented with another target state and another
    tree info, as between two calls of the tree walk. *)
Definition retarget {T : Type} (t : T) (i : TreeInfo) (w : World T) : World T :=
  mkWorld (this w) t i (callbacks w) (logcat w).

(** A configured animator whose [start()] has been called and that waits
    for its first commit at frame time 100. *)
Definition sampleStarted : World CanvasPropertyPrimitiveAnimator.CanvasPropertyPrimitive :=
  newWorld (set_mStagingPlayState RUNNING sampleConfigured) sampleCell 100.

(** The same with a start delay, and an animator whose [end()] was called
    before it was ever committed. *)
Definition sampleDelayed (startDelay : Z)
  : World CanvasPropertyPrimitiveAnimator.CanvasPropertyPrimitive :=
  newWorld (set_mStartDelay startDelay (set_mStagingPlayState RUNNING sampleConfigured))
           sampleCell 100.

Definition sampleEnded : World CanvasPropertyPrimitiveAnimator.CanvasPropertyPrimitive :=
  newWorld (set_mStagingPlayState FINISHED sampleConfigured) sampleCell 100.

(** ** Integers as floats *)

(** The binary32 value of a non-zero integer of fewer than 25 bits: sign
    [s], magnitude [p], the mantissa shifted up to 24 bits. *)
Definition integer_float (s : bool) (p : positive) : float :=
  S754_finite s (Z.to_pos (Zpos p * 2 ^ (24 - Zpos (digits2_pos p))))
              (Zpos (digits2_pos p) - 24).


(** ** Rounding a scaled integer *)

(** The 24-bit mantissa of a positive integer: its leading 24 bits, rounded
    to nearest, ties to even (or the integer shifted up to 24 bits). *)
Definition mantissa24 (p : positive) : Z :=
  let d := Zpos (digits2_pos p) in
  rne_div (Zpos p * 2 ^ Z.max 0 (24 - d)) (2 ^ Z.max 0 (d - 24)).

(** The float of sign [s] nearest to [u * 2 ^ - k], for [u >= 0] and a
    result in the normal range. *)
Definition round_scaled (s : bool) (k u : Z) : float :=
  match u with
  | Zpos p => normalize24 s (mantissa24 p) (Zpos (digits2_pos p) - 24 - k)
  | _ => S754_zero false
  end.

(** The magnitude of a finite float in units of [2 ^ -149]. *)
Definition magnitude (x : float) : Z :=
  match x with
  | S754_finite _ m e => Zpos m * 2 ^ (e + 149)
  | _ => 0
  end.

(** Positive zero, or a positive normal float with its exponent between
    [lo] and [hi]. *)
Definition zero_or_normal (lo hi : Z) (x : float) : Prop :=
  x = S754_zero false
  \/ exists m e, x = S754_finite false m e /\ 2 ^ 23 <= Zpos m < 2 ^ 24 /\ lo <= e <= hi.

(** ** The dirty bit of a property *)

(** Modelled from the spec: the dirty bit that belongs to each property
    (the corresponding quantity is marked dirty, one bit per
    property), to be compared with the [dirtyMask] column of the accessor
    table. *)
Definition ownDirtyMask (p : RenderPropertyAnimator.RenderProperty)
  : RenderNode.DirtyPropertyMask :=
  match p with
  | RenderPropertyAnimator.TRANSLATION_X => RenderNode.TRANSLATION_X
  | RenderPropertyAnimator.TRANSLATION_Y => RenderNode.TRANSLATION_Y
  | RenderPropertyAnimator.TRANSLATION_Z => RenderNode.TRANSLATION_Z
  | RenderPropertyAnimator.SCALE_X => RenderNode.SCALE_X
  | RenderPropertyAnimator.SCALE_Y => RenderNode.SCALE_Y
  | RenderPropertyAnimator.ROTATION => RenderNode.ROTATION
  | RenderPropertyAnimator.ROTATION_X => RenderNode.ROTATION_X
  | RenderPropertyAnimator.ROTATION_Y => RenderNode.ROTATION_Y
  | RenderPropertyAnimator.X => RenderNode.X
  | RenderPropertyAnimator.Y => RenderNode.Y
  | RenderPropertyAnimator.Z => RenderNode.Z
  | RenderPropertyAnimator.ALPHA => RenderNode.ALPHA
  end.

(** A node whose staging copy holds 5 in every member, whose committed
    copy holds 1, and whose only dirty bit is [bit]. *)
Definition nodeWithDirtyBit (bit : RenderNode.DirtyPropertyMask)
  : RenderNode.t PlainProperties :=
  RenderNode.mk (fun _ => of_int 1) (fun _ => of_int 5)
                (fun b => RenderNode.DirtyPropertyMask_eqb b bit).

(** ** Facts about binary32 rounding *)

Lemma digits2_pos_bounds (p : positive) :
  2 ^ (Zpos (digits2_pos p) - 1) <= Zpos p < 2 ^ Zpos (digits2_pos p).
Proof.
  induction p as [p IH|p IH|]; cbn [digits2_pos].
  - rewrite Pos2Z.inj_succ. replace (Z.succ (Zpos (digits2_pos p)) - 1) with (Zpos (digits2_pos p)) by lia.
    rewrite Z.pow_succ_r by lia.
    assert (E : 2 ^ Zpos (digits2_pos p) = 2 * 2 ^ (Zpos (digits2_pos p) - 1)).
    { rewrite <- Z.pow_succ_r by lia. f_equal. lia. }
    lia.
  - rewrite Pos2Z.inj_succ. replace (Z.succ (Zpos (digits2_pos p)) - 1) with (Zpos (digits2_pos p)) by lia.
    rewrite Z.pow_succ_r by lia.
    assert (E : 2 ^ Zpos (digits2_pos p) = 2 * 2 ^ (Zpos (digits2_pos p) - 1)).
    { rewrite <- Z.pow_succ_r by lia. f_equal. lia. }
    lia.
  - cbn. lia.
Qed.

Lemma digits2_pos_unique (p : positive) (d : Z) :
  2 ^ (d - 1) <= Zpos p < 2 ^ d -> Zpos (digits2_pos p) = d.
Proof.
  intros [L U]. pose proof (digits2_pos_bounds p) as [L' U'].
  assert (0 < d).
  { destruct (Z.ltb_spec 0 d); [assumption|].
    assert (2 ^ d <= 2 ^ 0) by (apply Z.pow_le_mono_r; lia). cbn in *. lia. }
  destruct (Z.lt_trichotomy (Zpos (digits2_pos p)) d) as [Lt|[Eq|Gt]]; [|exact Eq|].
  - assert (2 ^ Zpos (digits2_pos p) <= 2 ^ (d - 1)) by (apply Z.pow_le_mono_r; lia). lia.
  - assert (2 ^ d <= 2 ^ (Zpos (digits2_pos p) - 1)) by (apply Z.pow_le_mono_r; lia). lia.
Qed.

Lemma iter_pos_iter {A : Type} (f : A -> A) (p : positive) :
  forall x, iter_pos f p x = Pos.iter f x p.
Proof.
  induction p as [p IH|p IH|]; intros x; cbn [iter_pos Pos.iter].
  - rewrite !IH. rewrite <- !Pos.iter_swap. reflexivity.
  - rewrite !IH. reflexivity.
  - reflexivity.
Qed.

Lemma shr_1_nonneg (m : Z) (r s : bool) :
  0 <= m ->
  shr_1 (Build_shr_record m r s) = Build_shr_record (m / 2) (Z.odd m) (r || s).
Proof.
  intros Hm. destruct m as [|p|p]; [reflexivity| |lia].
  destruct p as [p|p|]; cbn [shr_1].
  - f_equal. apply Z.div_unique with (r := 1); lia.
  - f_equal. apply Z.div_unique with (r := 0); lia.
  - reflexivity.
Qed.

Lemma location_exact_iff (r : shr_record) (a b : Z) :
  loc_of_shr_record r = location_of a b ->
  (shr_r r || shr_s r = false <-> a mod b = 0).
Proof.
  unfold location_of. destruct r as [m [|] [|]]; cbn;
    destruct (Z.eqb_spec (a mod b) 0); intros E; try discriminate E; split; intros; congruence.
Qed.

Lemma stands_for_shr_1 (r : shr_record) (a b : Z) :
  0 <= a -> 0 < b ->
  stands_for r a b -> stands_for (shr_1 r) a (2 * b).
Proof.
  intros Ha Hb [Hm Hl].
  pose proof (location_exact_iff r a b Hl) as Hex.
  destruct r as [m rb st]. cbn [shr_m shr_r shr_s] in *.
  assert (Hm0 : 0 <= m) by (subst m; apply Z.div_pos; lia).
  rewrite shr_1_nonneg by exact Hm0.
  assert (Hq : a / (2 * b) = m / 2).
  { subst m. rewrite (Z.mul_comm 2 b). rewrite Z.div_div by lia. reflexivity. }
  assert (Hr : a mod (2 * b) = a mod b + b * (m mod 2)).
  { subst m. rewrite (Z.mul_comm 2 b). rewrite Z.rem_mul_r by lia. reflexivity. }
  pose proof (Z.mod_pos_bound a b Hb) as Hrb.
  split; cbn [shr_m].
  - symmetry; exact Hq.
  - unfold location_of. rewrite Hr.
    rewrite Zmod_odd.
    destruct (Z.odd m); cbn [loc_of_shr_record].
    + destruct (rb || st) eqn:E.
      * assert (a mod b <> 0) by (intros Q; apply Hex in Q; congruence).
        destruct (Z.eqb_spec (a mod b + b * 1) 0); [lia|].
        replace (2 * (a mod b + b * 1) ?= 2 * b) with Gt; [reflexivity|].
        symmetry. apply Z.compare_gt_iff. lia.
      * assert (a mod b = 0) by (apply Hex; reflexivity).
        destruct (Z.eqb_spec (a mod b + b * 1) 0); [lia|].
        replace (2 * (a mod b + b * 1) ?= 2 * b) with Eq; [reflexivity|].
        symmetry. apply Z.compare_eq_iff. lia.
    + destruct (rb || st) eqn:E.
      * assert (a mod b <> 0) by (intros Q; apply Hex in Q; congruence).
        destruct (Z.eqb_spec (a mod b + b * 0) 0); [lia|].
        replace (2 * (a mod b + b * 0) ?= 2 * b) with Lt; [reflexivity|].
        symmetry. apply Z.compare_lt_iff. lia.
      * assert (a mod b = 0) by (apply Hex; reflexivity).
        destruct (Z.eqb_spec (a mod b + b * 0) 0); [reflexivity|lia].
Qed.

Lemma stands_for_iter (k : positive) :
  forall (r : shr_record) (a b : Z),
    0 <= a -> 0 < b ->
    stands_for r a b -> stands_for (iter_pos shr_1 k r) a (b * 2 ^ Zpos k).
Proof.
  intros r a b Ha Hb Hs. rewrite iter_pos_iter.
  induction k as [|k IH] using Pos.peano_ind.
  - cbn [Pos.iter]. replace (b * 2 ^ 1) with (2 * b) by lia.
    apply stands_for_shr_1; assumption.
  - rewrite Pos.iter_succ, Pos2Z.inj_succ, Z.pow_succ_r by lia.
    replace (b * (2 * 2 ^ Zpos k)) with (2 * (b * 2 ^ Zpos k)) by lia.
    apply stands_for_shr_1; [lia| |exact IH].
    apply Z.mul_pos_pos; [lia|]. apply Z.pow_pos_nonneg; lia.
Qed.

Ltac break_if :=
  match goal with
  | |- context [if ?c then _ else _] => destruct c
  end.

Lemma rne_div_bounds (a b : Z) :
  a / b <= rne_div a b <= a / b + 1.
Proof.
  unfold rne_div, location_of, round_nearest_even.
  destruct (a mod b =? 0); [lia|].
  destruct (2 * (a mod b) ?= b); [break_if| |]; lia.
Qed.

Lemma rne_div_mono (a a' b : Z) :
  0 < b -> a <= a' -> rne_div a b <= rne_div a' b.
Proof.
  intros Hb Ha.
  assert (Hq : a / b <= a' / b) by (apply Z.div_le_mono; lia).
  pose proof (rne_div_bounds a b). pose proof (rne_div_bounds a' b).
  destruct (Z.eq_dec (a / b) (a' / b)) as [E|N]; [|lia].
  assert (Hr : a mod b <= a' mod b).
  { rewrite (Z.mod_eq a b), (Z.mod_eq a' b) by lia. rewrite E. lia. }
  unfold rne_div, location_of, round_nearest_even in *. rewrite <- E in *.
  pose proof (Z.mod_pos_bound a b Hb). pose proof (Z.mod_pos_bound a' b Hb).
  destruct (Z.eqb_spec (a mod b) 0); destruct (Z.eqb_spec (a' mod b) 0); try lia.
  clear H H0.
  destruct (Z.compare_spec (2 * (a mod b)) b);
    destruct (Z.compare_spec (2 * (a' mod b)) b); try lia; break_if; lia.
Qed.

Lemma rne_div_exact (n b : Z) : 0 < b -> rne_div (n * b) b = n.
Proof.
  intros Hb. unfold rne_div, location_of.
  rewrite Z.mod_mul by lia. cbn. apply Z.div_mul. lia.
Qed.

Lemma rne_div_scale (a b c : Z) :
  0 < b -> 0 < c -> rne_div (c * a) (c * b) = rne_div a b.
Proof.
  intros Hb Hc. unfold rne_div, location_of.
  rewrite Z.div_mul_cancel_l by lia.
  rewrite Z.mul_mod_distr_l by lia.
  pose proof (Z.mod_pos_bound a b Hb).
  destruct (Z.eqb_spec (a mod b) 0) as [E|N];
    destruct (Z.eqb_spec (c * (a mod b)) 0) as [E'|N']; try reflexivity; try nia.
  replace (2 * (c * (a mod b)) ?= c * b) with (2 * (a mod b) ?= b); [reflexivity|].
  replace (2 * (c * (a mod b))) with (c * (2 * (a mod b))) by lia.
  apply Zmult_compare_compat_l. lia.
Qed.

Lemma rne_div_le (a b n : Z) : 0 < b -> a <= n * b -> rne_div a b <= n.
Proof.
  intros Hb H. rewrite <- (rne_div_exact n b Hb). apply rne_div_mono; assumption.
Qed.

Lemma rne_div_ge (a b n : Z) : 0 < b -> n * b <= a -> n <= rne_div a b.
Proof.
  intros Hb H. rewrite <- (rne_div_exact n b Hb). apply rne_div_mono; assumption.
Qed.

Lemma rne_of_stands_for (r : shr_record) (a b : Z) :
  stands_for r a b ->
  round_nearest_even (shr_m r) (loc_of_shr_record r) = rne_div a b.
Proof. intros [Hm Hl]. unfold rne_div. rewrite Hm, Hl. reflexivity. Qed.

Lemma fexp_eq (x : Z) : fexp prec emax x = Z.max (x - 24) (-149).
Proof. reflexivity. Qed.

Lemma shr_fexp_stands_for (mx ex : Z) (lx : location) (a b : Z) :
  0 <= a -> 0 < b ->
  stands_for (shr_record_of_loc mx lx) a b ->
  let k := Z.max (fexp prec emax (Zdigits2 mx + ex) - ex) 0 in
  snd (shr_fexp prec emax mx ex lx) = ex + k
  /\ stands_for (fst (shr_fexp prec emax mx ex lx)) a (b * 2 ^ k).
Proof.
  intros Ha Hb Hs k. unfold shr_fexp, shr. subst k.
  destruct (fexp prec emax (Zdigits2 mx + ex) - ex) as [|p|p] eqn:E; cbn [fst snd].
  - rewrite Z.max_id, Z.mul_1_r. split; [lia|exact Hs].
  - replace (Z.max (Zpos p) 0) with (Zpos p) by lia. split; [reflexivity|].
    apply stands_for_iter; assumption.
  - replace (Z.max (Zneg p) 0) with 0 by lia. rewrite Z.mul_1_r. split; [lia|exact Hs].
Qed.

Lemma Zdigits2_unique (m d : Z) :
  2 ^ (d - 1) <= m < 2 ^ d -> 0 < m -> Zdigits2 m = d.
Proof.
  intros Hb Hm. destruct m as [|p|p]; try lia.
  cbn [Zdigits2]. apply digits2_pos_unique. exact Hb.
Qed.

Lemma renormalize_canonical (M E : Z) :
  fexp prec emax (Zdigits2 M + E) = E ->
  shr_fexp prec emax M E loc_Exact = (Build_shr_record M false false, E).
Proof.
  intros Hc. unfold shr_fexp. rewrite Hc, Z.sub_diag. reflexivity.
Qed.

Lemma renormalize_carry (E : Z) :
  -149 <= E ->
  shr_fexp prec emax (2 ^ 24) E loc_Exact = (Build_shr_record (2 ^ 23) false false, E + 1).
Proof.
  intros HE. unfold shr_fexp.
  change (Zdigits2 (2 ^ 24)) with 25. rewrite fexp_eq.
  replace (Z.max (25 + E - 24) (-149) - E) with 1 by lia. reflexivity.
Qed.

(** The general shape of [binary_round_aux] on a positive quotient. *)
Lemma binary_round_aux_rne (sx : bool) (mx ex : Z) (lx : location) (a b M E : Z) :
  0 <= a -> 0 < b ->
  stands_for (shr_record_of_loc mx lx) a b ->
  E = ex + Z.max (fexp prec emax (Zdigits2 mx + ex) - ex) 0 ->
  M = rne_div a (b * 2 ^ (E - ex)) ->
  2 ^ 23 <= M <= 2 ^ 24 -> -149 <= E <= 103 ->
  binary_round_aux prec emax sx mx ex lx = normalize24 sx M E.
Proof.
  intros Ha Hb Hs HE HM HMr HEr.
  pose proof (shr_fexp_stands_for mx ex lx a b Ha Hb Hs) as [He Hst].
  cbv zeta in He, Hst.
  unfold binary_round_aux.
  destruct (shr_fexp prec emax mx ex lx) as [r e] eqn:Es. cbn [fst snd] in He, Hst.
  rewrite (rne_of_stands_for _ _ _ Hst).
  replace (Z.max (fexp prec emax (Zdigits2 mx + ex) - ex) 0) with (E - ex) in * by lia.
  rewrite <- HM. replace e with E by lia.
  unfold normalize24. destruct (Z.eqb_spec M (2 ^ 24)) as [Ec|Nc].
  - subst M. rewrite Ec, renormalize_carry by lia. cbn [shr_m].
    change (2 ^ 23) with (Zpos (Z.to_pos (2 ^ 23))).
    cbv iota. replace (E + 1 <=? emax - prec) with true; [reflexivity|].
    symmetry. apply Z.leb_le. change (emax - prec) with 104. lia.
  - rewrite renormalize_canonical.
    + cbn [shr_m]. destruct M as [|p|p]; try lia. cbn [Z.to_pos].
      replace (E <=? emax - prec) with true; [reflexivity|].
      symmetry. apply Z.leb_le. change (emax - prec) with 104. lia.
    + rewrite (Zdigits2_unique M 24) by (change (2 ^ (24 - 1)) with (2 ^ 23); lia).
      rewrite fexp_eq. lia.
Qed.

Lemma iter_xO_shift (p k : positive) :
  Zpos (Pos.iter xO p k) = Zpos p * 2 ^ Zpos k.
Proof.
  induction k as [|k IH] using Pos.peano_ind.
  - cbn [Pos.iter]. lia.
  - rewrite Pos.iter_succ, Pos2Z.inj_xO, IH, Pos2Z.inj_succ, Z.pow_succ_r by lia. lia.
Qed.

Lemma stands_for_exact (m : Z) :
  stands_for (shr_record_of_loc m loc_Exact) m 1.
Proof.
  split; cbn.
  - symmetry. apply Z.div_1_r.
  - unfold location_of. rewrite Z.mod_1_r. reflexivity.
Qed.

Lemma rne_div_1 (a : Z) : rne_div a 1 = a.
Proof. rewrite <- (Z.mul_1_r a) at 1. apply rne_div_exact. lia. Qed.

Lemma pow2_split (d : Z) : 24 <= d -> 2 ^ d = 2 ^ 24 * 2 ^ (d - 24).
Proof. intros. rewrite <- Z.pow_add_r by lia. f_equal. lia. Qed.

Lemma pow2_split' (d : Z) : 24 <= d -> 2 ^ (d - 1) = 2 ^ 23 * 2 ^ (d - 24).
Proof. intros. rewrite <- Z.pow_add_r by lia. f_equal. lia. Qed.

(** The closed form of the integer to float conversion. *)
Lemma of_int_pos (p : positive) :
  let d := Zpos (digits2_pos p) in
  d <= 64 ->
  of_int (Zpos p)
  = normalize24 false
      (rne_div (Zpos p * 2 ^ Z.max 0 (24 - d)) (2 ^ Z.max 0 (d - 24))) (d - 24).
Proof.
  intros d Hd. pose proof (digits2_pos_bounds p) as Hb. fold d in Hb.
  assert (Hd1 : 1 <= d) by (unfold d; lia).
  unfold of_int, binary_normalize, binary_round, shl_align.
  fold d. rewrite fexp_eq.
  replace (Z.max (d + 0 - 24) (-149) - 0) with (d - 24) by lia.
  replace (Z.max (d + 0 - 24) (-149)) with (d - 24) by lia.
  destruct (d - 24) as [|k|k] eqn:Ek.
  - (* exactly 24 digits *)
    assert (d = 24) by lia.
    replace (Z.max 0 (24 - d)) with 0 by lia. replace (Z.max 0 0) with 0 by lia.
    rewrite Z.pow_0_r, Z.mul_1_r, rne_div_1.
    apply binary_round_aux_rne with (a := Zpos p) (b := 1); try lia.
    + apply stands_for_exact.
    + cbn [Zdigits2]. fold d. rewrite fexp_eq. lia.
    + rewrite Z.sub_diag, Z.pow_0_r, rne_div_1. reflexivity.
    + replace (d - 1) with 23 in Hb by lia. replace d with 24 in Hb by lia. lia.
  - (* more than 24 digits: the low bits are rounded away *)
    replace (Z.max 0 (24 - d)) with 0 by lia.
    replace (Z.max 0 (Zpos k)) with (Zpos k) by lia.
    rewrite Z.pow_0_r, Z.mul_1_r.
    assert (Hp : 0 < 2 ^ Zpos k) by (apply Z.pow_pos_nonneg; lia).
    apply binary_round_aux_rne with (a := Zpos p) (b := 1); try lia.
    + apply stands_for_exact.
    + cbn [Zdigits2]. fold d. rewrite fexp_eq. lia.
    + rewrite Z.sub_0_r, Z.mul_1_l. reflexivity.
    + rewrite (pow2_split d) in Hb by lia. rewrite (pow2_split' d) in Hb by lia.
      rewrite Ek in Hb. split.
      * apply rne_div_ge; lia.
      * apply rne_div_le; lia.
  - (* fewer than 24 digits: the mantissa is shifted left *)
    replace (Z.max 0 (24 - d)) with (Zpos k) by lia.
    replace (Z.max 0 (Zneg k)) with 0 by lia.
    rewrite Z.pow_0_r, rne_div_1.
    assert (Hp : 0 < 2 ^ Zpos k) by (apply Z.pow_pos_nonneg; lia).
    assert (Hm : 2 ^ 23 <= Zpos (Pos.iter xO p k) < 2 ^ 24).
    { rewrite iter_xO_shift.
      assert (E1 : 2 ^ 24 = 2 ^ d * 2 ^ Zpos k).
      { rewrite <- Z.pow_add_r by lia. f_equal. lia. }
      assert (E2 : 2 ^ 23 = 2 ^ (d - 1) * 2 ^ Zpos k).
      { rewrite <- Z.pow_add_r by lia. f_equal. lia. }
      rewrite E1, E2. nia. }
    rewrite <- iter_xO_shift.
    apply binary_round_aux_rne with (a := Zpos (Pos.iter xO p k)) (b := 1); try lia.
    + apply stands_for_exact.
    + rewrite (Zdigits2_unique _ 24) by (change (2 ^ (24 - 1)) with (2 ^ 23); lia).
      rewrite fexp_eq. lia.
    + rewrite Z.sub_diag, Z.pow_0_r, rne_div_1. reflexivity.
Qed.

Lemma fle_finite_pos (m m' : positive) (e e' : Z) :
  fle (S754_finite false m e) (S754_finite false m' e') = true
  <-> lex_le e (Zpos m) e' (Zpos m').
Proof.
  unfold fle, SFleb, SFcompare, lex_le.
  destruct (Z.compare_spec e e') as [E|L|G].
  - change (Pos.compare_cont Eq m m') with (Pos.compare m m').
    destruct (Pos.compare_spec m m') as [Em|Lm|Gm]; split; intros; try lia; try reflexivity; try discriminate.
  - split; [lia|reflexivity].
  - split; [discriminate|lia].
Qed.

Lemma fle_zero_l (s : bool) (x : float) :
  nonneg_finite x -> fle (S754_zero s) x = true.
Proof. destruct x as [s'|s'| |[|] m e]; cbn; intros; try contradiction; reflexivity. Qed.

Lemma fle_refl (x : float) : nonneg_finite x -> fle x x = true.
Proof.
  destruct x as [s|s| |[|] m e]; cbn; intros Hx; try contradiction; try reflexivity.
  apply fle_finite_pos. unfold lex_le. lia.
Qed.

Lemma fle_trans (x y z : float) :
  nonneg_finite x -> nonneg_finite y -> nonneg_finite z ->
  fle x y = true -> fle y z = true -> fle x z = true.
Proof.
  destruct x as [sx|sx| |[|] mx ex]; cbn [nonneg_finite]; intros Hx; try contradiction;
    destruct y as [sy|sy| |[|] my ey]; cbn [nonneg_finite]; intros Hy; try contradiction;
    destruct z as [sz|sz| |[|] mz ez]; cbn [nonneg_finite]; intros Hz; try contradiction;
    try reflexivity; try discriminate.
  rewrite !fle_finite_pos. unfold lex_le. lia.
Qed.

Lemma fle_total (x y : float) :
  nonneg_finite x -> nonneg_finite y -> fle x y = false -> fle y x = true.
Proof.
  destruct x as [sx|sx| |[|] mx ex]; cbn [nonneg_finite]; intros Hx; try contradiction;
    destruct y as [sy|sy| |[|] my ey]; cbn [nonneg_finite]; intros Hy; try contradiction;
    try reflexivity; try discriminate.
  intros Hf. apply fle_finite_pos.
  assert (N : ~ lex_le ex (Zpos mx) ey (Zpos my)).
  { intros L. apply fle_finite_pos in L. congruence. }
  unfold lex_le in *. lia.
Qed.

Lemma normalize24_nonneg (M E : Z) : nonneg_finite (normalize24 false M E).
Proof. unfold normalize24. destruct (M =? 2 ^ 24); exact I. Qed.

Lemma fle_normalize24 (M E M' E' : Z) :
  2 ^ 23 <= M <= 2 ^ 24 -> 2 ^ 23 <= M' <= 2 ^ 24 ->
  lex_le E M E' M' ->
  fle (normalize24 false M E) (normalize24 false M' E') = true.
Proof.
  intros HM HM' L. unfold normalize24.
  destruct (Z.eqb_spec M (2 ^ 24)); destruct (Z.eqb_spec M' (2 ^ 24));
    apply fle_finite_pos; unfold lex_le in *;
    rewrite ?Z2Pos.id by lia; lia.
Qed.

(** A positive normal float: 24-bit mantissa, exponent as given. *)
Lemma normalize24_normal (M E : Z) :
  2 ^ 23 <= M <= 2 ^ 24 ->
  exists m e, normalize24 false M E = S754_finite false m e
              /\ 2 ^ 23 <= Zpos m < 2 ^ 24 /\ E <= e <= E + 1
              /\ lex_le E M e (Zpos m) /\ (M < 2 ^ 24 -> e = E /\ Zpos m = M)
              /\ (M = 2 ^ 24 -> e = E + 1 /\ Zpos m = 2 ^ 23).
Proof.
  intros HM. unfold normalize24. destruct (Z.eqb_spec M (2 ^ 24)).
  - exists (Z.to_pos (2 ^ 23)), (E + 1). unfold lex_le. repeat split; try lia;
      rewrite ?Z2Pos.id; lia.
  - exists (Z.to_pos M), E. unfold lex_le. rewrite !Z2Pos.id by lia. repeat split; lia.
Qed.

Lemma digits2_pos_mono (p p' : positive) :
  (p <= p')%positive -> Zpos (digits2_pos p) <= Zpos (digits2_pos p').
Proof.
  intros Hp. pose proof (digits2_pos_bounds p) as [L U].
  pose proof (digits2_pos_bounds p') as [L' U'].
  destruct (Z.le_gt_cases (Zpos (digits2_pos p)) (Zpos (digits2_pos p'))) as [|G]; [assumption|].
  assert (2 ^ Zpos (digits2_pos p') <= 2 ^ (Zpos (digits2_pos p) - 1))
    by (apply Z.pow_le_mono_r; lia).
  lia.
Qed.

Lemma of_int_mantissa_bounds (p : positive) :
  let d := Zpos (digits2_pos p) in
  2 ^ 23 <= rne_div (Zpos p * 2 ^ Z.max 0 (24 - d)) (2 ^ Z.max 0 (d - 24)) <= 2 ^ 24.
Proof.
  intros d. pose proof (digits2_pos_bounds p) as Hb. fold d in Hb.
  assert (Hd1 : 1 <= d) by (unfold d; lia).
  destruct (Z.le_gt_cases d 24) as [Le|Gt].
  - replace (Z.max 0 (d - 24)) with 0 by lia. rewrite Z.pow_0_r, rne_div_1.
    replace (Z.max 0 (24 - d)) with (24 - d) by lia.
    assert (E1 : 2 ^ 24 = 2 ^ d * 2 ^ (24 - d)).
    { rewrite <- Z.pow_add_r by lia. f_equal. lia. }
    assert (E2 : 2 ^ 23 = 2 ^ (d - 1) * 2 ^ (24 - d)).
    { rewrite <- Z.pow_add_r by lia. f_equal. lia. }
    assert (Hp : 0 < 2 ^ (24 - d)) by (apply Z.pow_pos_nonneg; lia).
    rewrite E1, E2. nia.
  - replace (Z.max 0 (24 - d)) with 0 by lia. rewrite Z.pow_0_r, Z.mul_1_r.
    replace (Z.max 0 (d - 24)) with (d - 24) by lia.
    assert (Hp : 0 < 2 ^ (d - 24)) by (apply Z.pow_pos_nonneg; lia).
    rewrite (pow2_split d) in Hb by lia. rewrite (pow2_split' d) in Hb by lia.
    split; [apply rne_div_ge|apply rne_div_le]; lia.
Qed.

Lemma of_int_mono_pos (p p' : positive) :
  Zpos (digits2_pos p') <= 64 ->
  (p <= p')%positive ->
  let d := Zpos (digits2_pos p) in
  let d' := Zpos (digits2_pos p') in
  lex_le (d - 24) (rne_div (Zpos p * 2 ^ Z.max 0 (24 - d)) (2 ^ Z.max 0 (d - 24)))
         (d' - 24) (rne_div (Zpos p' * 2 ^ Z.max 0 (24 - d')) (2 ^ Z.max 0 (d' - 24))).
Proof.
  intros Hd' Hp d d'. pose proof (digits2_pos_mono p p' Hp) as Hm. fold d d' in Hm.
  unfold lex_le. destruct (Z.eq_dec d d') as [E|N]; [right|left; lia].
  split; [lia|]. rewrite <- E.
  apply rne_div_mono.
  - apply Z.pow_pos_nonneg; lia.
  - apply Z.mul_le_mono_nonneg_r; [apply Z.pow_nonneg; lia|lia].
Qed.

Lemma new_location_eq (b r : Z) :
  0 < b -> 0 <= r < b ->
  new_location b r = if r =? 0 then loc_Exact else loc_Inexact (2 * r ?= b).
Proof.
  intros Hb Hr. unfold new_location, new_location_even, new_location_odd.
  destruct (Z.even b) eqn:Ev; [reflexivity|].
  destruct (Z.eqb_spec r 0); [reflexivity|]. f_equal.
  assert (Ho : Z.odd b = true) by (rewrite <- Z.negb_even, Ev; reflexivity).
  apply Z.odd_spec in Ho. destruct Ho as [c Hc].
  destruct (Z.compare_spec (2 * r + 1) b); destruct (Z.compare_spec (2 * r) b);
    try reflexivity; lia.
Qed.

Lemma loc_of_shr_record_of_loc (m : Z) (l : location) :
  loc_of_shr_record (shr_record_of_loc m l) = l.
Proof. destruct l as [|[| |]]; reflexivity. Qed.

Lemma shr_m_of_loc (m : Z) (l : location) : shr_m (shr_record_of_loc m l) = m.
Proof. destruct l as [|[| |]]; reflexivity. Qed.

Lemma stands_for_quotient (a b : Z) :
  0 < b ->
  stands_for (shr_record_of_loc (a / b) (new_location b (a mod b))) a b.
Proof.
  intros Hb. split.
  - apply shr_m_of_loc.
  - rewrite loc_of_shr_record_of_loc, new_location_eq; [reflexivity|lia|].
    apply Z.mod_pos_bound. lia.
Qed.

(** The closed form of the quotient of two positive normal floats. *)
Lemma fdiv_normal (m1 m2 : positive) (e1 e2 : Z) :
  2 ^ 23 <= Zpos m1 < 2 ^ 24 -> 2 ^ 23 <= Zpos m2 < 2 ^ 24 ->
  -100 <= e1 - e2 <= 100 ->
  let j := if Zpos m1 <? Zpos m2 then 0 else 1 in
  fdiv (S754_finite false m1 e1) (S754_finite false m2 e2)
  = normalize24 false (rne_div (Zpos m1 * 2 ^ 24) (Zpos m2 * 2 ^ j)) (e1 - e2 - 24 + j)
  /\ 2 ^ 23 <= rne_div (Zpos m1 * 2 ^ 24) (Zpos m2 * 2 ^ j) <= 2 ^ 24.
Proof.
  intros H1 H2 He j.
  assert (HM : 2 ^ 23 <= rne_div (Zpos m1 * 2 ^ 24) (Zpos m2 * 2 ^ j) <= 2 ^ 24).
  { subst j. destruct (Z.ltb_spec (Zpos m1) (Zpos m2)).
    - rewrite Z.pow_0_r, Z.mul_1_r. split; [apply rne_div_ge|apply rne_div_le]; lia.
    - change (2 ^ 1) with 2. split; [apply rne_div_ge|apply rne_div_le]; lia. }
  split; [|exact HM].
  unfold fdiv, SFdiv, SFdiv_core_binary.
  cbn [Zdigits2 xorb].
  rewrite (digits2_pos_unique m1 24), (digits2_pos_unique m2 24)
    by (change (2 ^ (24 - 1)) with (2 ^ 23); lia).
  rewrite fexp_eq.
  replace (Z.min (Z.max (24 + e1 - (24 + e2) - 24) (-149)) (e1 - e2)) with (e1 - e2 - 24) by lia.
  replace (e1 - e2 - (e1 - e2 - 24)) with 24 by lia.
  rewrite Z.shiftl_mul_pow2 by lia.
  pose proof (Z.div_eucl_eq (Zpos m1 * 2 ^ 24) (Zpos m2)) as Heq.
  assert (Hq : fst (Z.div_eucl (Zpos m1 * 2 ^ 24) (Zpos m2)) = (Zpos m1 * 2 ^ 24) / Zpos m2)
    by reflexivity.
  assert (Hr : snd (Z.div_eucl (Zpos m1 * 2 ^ 24) (Zpos m2)) = (Zpos m1 * 2 ^ 24) mod Zpos m2)
    by reflexivity.
  destruct (Z.div_eucl (Zpos m1 * 2 ^ 24) (Zpos m2)) as [q r]. cbn [fst snd] in Hq, Hr.
  subst q r.
  set (a := Zpos m1 * 2 ^ 24) in *.
  assert (Hdiv : if Zpos m1 <? Zpos m2 then 2 ^ 23 <= a / Zpos m2 < 2 ^ 24
                 else 2 ^ 24 <= a / Zpos m2 < 2 ^ 25).
  { destruct (Z.ltb_spec (Zpos m1) (Zpos m2)); split.
    - apply Z.div_le_lower_bound; [lia|]. unfold a. lia.
    - apply Z.div_lt_upper_bound; [lia|]. unfold a. lia.
    - apply Z.div_le_lower_bound; [lia|]. unfold a. lia.
    - apply Z.div_lt_upper_bound; [lia|]. unfold a. lia. }
  apply binary_round_aux_rne with (a := a) (b := Zpos m2); try lia.
  - apply stands_for_quotient. lia.
  - subst j. destruct (Zpos m1 <? Zpos m2).
    + rewrite (Zdigits2_unique _ 24) by (change (2 ^ (24 - 1)) with (2 ^ 23); lia).
      rewrite fexp_eq. lia.
    + rewrite (Zdigits2_unique _ 25) by (change (2 ^ (25 - 1)) with (2 ^ 24); lia).
      rewrite fexp_eq. lia.
  - replace (e1 - e2 - 24 + j - (e1 - e2 - 24)) with j by lia. reflexivity.
  - subst j. destruct (Zpos m1 <? Zpos m2); lia.
Qed.

Lemma fdiv_self (m : positive) (e : Z) :
  2 ^ 23 <= Zpos m < 2 ^ 24 ->
  fdiv (S754_finite false m e) (S754_finite false m e) = fone.
Proof.
  intros Hm. destruct (fdiv_normal m m e e Hm Hm) as [E _]; [lia|].
  rewrite E. rewrite Z.ltb_irrefl.
  replace (Zpos m * 2 ^ 24) with (2 ^ 23 * (Zpos m * 2 ^ 1)) by (change (2 ^ 24) with (2 ^ 23 * 2 ^ 1); lia).
  rewrite rne_div_exact by lia.
  replace (e - e - 24 + 1) with (-23) by lia. reflexivity.
Qed.

Lemma fdiv_mono_num (m1 m1' m2 : positive) (e1 e1' e2 : Z) :
  2 ^ 23 <= Zpos m1 < 2 ^ 24 -> 2 ^ 23 <= Zpos m1' < 2 ^ 24 ->
  2 ^ 23 <= Zpos m2 < 2 ^ 24 ->
  -100 <= e1 - e2 <= 100 -> -100 <= e1' - e2 <= 100 ->
  lex_le e1 (Zpos m1) e1' (Zpos m1') ->
  fle (fdiv (S754_finite false m1 e1) (S754_finite false m2 e2))
      (fdiv (S754_finite false m1' e1') (S754_finite false m2 e2)) = true.
Proof.
  intros H1 H1' H2 He He' L.
  destruct (fdiv_normal m1 m2 e1 e2 H1 H2 He) as [E B].
  destruct (fdiv_normal m1' m2 e1' e2 H1' H2 He') as [E' B'].
  rewrite E, E'. apply fle_normalize24; [exact B|exact B'|].
  clear E E' B B'. unfold lex_le in *.
  destruct (Z.ltb_spec (Zpos m1) (Zpos m2)) as [Lt1|Ge1];
    destruct (Z.ltb_spec (Zpos m1') (Zpos m2)) as [Lt1'|Ge1'].
  - destruct L as [L|[L1 L2]]; [left; lia|right]. split; [lia|].
    apply rne_div_mono; lia.
  - left. lia.
  - destruct L as [L|[L1 L2]]; [|lia].
    destruct (Z.eq_dec e1' (e1 + 1)) as [Q|Q]; [right|left; lia]. split; [lia|].
    rewrite <- (rne_div_scale (Zpos m1' * 2 ^ 24) (Zpos m2 * 2 ^ 0) 2) by lia.
    replace (2 * (Zpos m2 * 2 ^ 0)) with (Zpos m2 * 2 ^ 1) by lia.
    apply rne_div_mono; lia.
  - destruct L as [L|[L1 L2]]; [left; lia|right]. split; [lia|].
    apply rne_div_mono; lia.
Qed.

Lemma wrap64_id (z : Z) : int64_range z -> wrap64 z = z.
Proof.
  unfold int64_range, wrap64. intros Hz.
  rewrite Z.mod_small by lia. lia.
Qed.

Lemma digits2_pos_le_63 (p : positive) : Zpos p < 2 ^ 63 -> Zpos (digits2_pos p) <= 63.
Proof.
  intros Hp. pose proof (digits2_pos_bounds p) as [L _].
  destruct (Z.le_gt_cases (Zpos (digits2_pos p)) 63) as [|G]; [assumption|].
  assert (2 ^ 63 <= 2 ^ (Zpos (digits2_pos p) - 1)) by (apply Z.pow_le_mono_r; lia).
  lia.
Qed.

Lemma normalize24_lex (M E M' E' : Z) (m m' : positive) (e e' : Z) :
  2 ^ 23 <= M <= 2 ^ 24 -> 2 ^ 23 <= M' <= 2 ^ 24 ->
  normalize24 false M E = S754_finite false m e ->
  normalize24 false M' E' = S754_finite false m' e' ->
  lex_le E M E' M' -> lex_le e (Zpos m) e' (Zpos m').
Proof.
  intros HM HM'. unfold normalize24, lex_le.
  destruct (Z.eqb_spec M (2 ^ 24)); destruct (Z.eqb_spec M' (2 ^ 24));
    intros Q Q'; inversion Q; inversion Q'; subst;
    rewrite ?Z2Pos.id by lia; lia.
Qed.

(** Conversion of a positive 64-bit integer gives a positive normal float. *)
Lemma of_int_normal (n : Z) :
  1 <= n < 2 ^ 63 ->
  exists m e, of_int n = S754_finite false m e
              /\ 2 ^ 23 <= Zpos m < 2 ^ 24 /\ -23 <= e <= 40.
Proof.
  intros Hn. destruct n as [|p|p]; try lia.
  pose proof (digits2_pos_le_63 p (proj2 Hn)) as Hd.
  pose proof (digits2_pos_bounds p) as Hb.
  rewrite of_int_pos by lia.
  pose proof (of_int_mantissa_bounds p) as HM. cbv zeta in HM.
  destruct (normalize24_normal _ (Zpos (digits2_pos p) - 24) HM)
    as [m [e [Q [Rm [Re _]]]]].
  exists m, e. split; [exact Q|]. split; [exact Rm|]. lia.
Qed.

Lemma of_int_mono (n n' : Z) (m m' : positive) (e e' : Z) :
  1 <= n -> n <= n' -> n' < 2 ^ 63 ->
  of_int n = S754_finite false m e ->
  of_int n' = S754_finite false m' e' ->
  lex_le e (Zpos m) e' (Zpos m').
Proof.
  intros H1 H2 H3. destruct n as [|p|p]; try lia. destruct n' as [|p'|p']; try lia.
  pose proof (digits2_pos_le_63 p' H3) as Hd'.
  assert (Hp : Zpos p < 2 ^ 63) by lia.
  pose proof (digits2_pos_le_63 p Hp) as Hd.
  rewrite !of_int_pos by lia.
  intros Q Q'.
  eapply normalize24_lex; [| |exact Q|exact Q'|].
  - apply of_int_mantissa_bounds.
  - apply of_int_mantissa_bounds.
  - apply of_int_mono_pos; lia.
Qed.

Lemma of_int_0 : of_int 0 = fzero.
Proof. reflexivity. Qed.

(** The quotient computed by [animate] for [n] elapsed out of [d]. *)
Lemma quotient_nonneg (n d : Z) :
  0 <= n < 2 ^ 63 -> 1 <= d < 2 ^ 63 ->
  nonneg_finite (fdiv (of_int n) (of_int d)).
Proof.
  intros Hn Hd.
  destruct (of_int_normal d Hd) as [m2 [e2 [Q2 [R2 X2]]]]. rewrite Q2.
  destruct (Z.eq_dec n 0) as [Z0|NZ].
  - subst n. exact I.
  - destruct (of_int_normal n) as [m1 [e1 [Q1 [R1 X1]]]]; [lia|]. rewrite Q1.
    destruct (fdiv_normal m1 m2 e1 e2 R1 R2) as [E _]; [lia|].
    rewrite E. apply normalize24_nonneg.
Qed.

Lemma quotient_mono (n n' d : Z) :
  0 <= n -> n <= n' -> n' < 2 ^ 63 -> 1 <= d < 2 ^ 63 ->
  fle (fdiv (of_int n) (of_int d)) (fdiv (of_int n') (of_int d)) = true.
Proof.
  intros H0 Hle Hn' Hd.
  destruct (Z.eq_dec n 0) as [Z0|NZ].
  - subst n. pose proof (quotient_nonneg n' d) as P.
    destruct (of_int_normal d Hd) as [m2 [e2 [Q2 _]]]. rewrite Q2 in *.
    rewrite of_int_0. apply fle_zero_l. apply P; lia.
  - destruct (of_int_normal d Hd) as [m2 [e2 [Q2 [R2 X2]]]].
    destruct (of_int_normal n) as [m1 [e1 [Q1 [R1 X1]]]]; [lia|].
    destruct (of_int_normal n') as [m1' [e1' [Q1' [R1' X1']]]]; [lia|].
    pose proof (of_int_mono n n' m1 m1' e1 e1') as L.
    rewrite Q1, Q1', Q2. apply fdiv_mono_num; try assumption; try lia.
    apply L; try assumption; lia.
Qed.

Lemma quotient_complete (n d : Z) :
  1 <= d -> d <= n -> n < 2 ^ 63 ->
  fge (fdiv (of_int n) (of_int d)) fone = true.
Proof.
  intros Hd Hle Hn. unfold fge. change (SFleb ?x ?y) with (fle x y).
  assert (Hd' : 1 <= d < 2 ^ 63) by lia.
  destruct (of_int_normal d Hd') as [m2 [e2 [Q2 [R2 X2]]]].
  rewrite <- (fdiv_self m2 e2 R2), <- Q2.
  apply quotient_mono; lia.
Qed.

Lemma fone_nonneg : nonneg_finite fone.
Proof. exact I. Qed.

(** Multiplication by 1.0f is exact on every binary32 value. *)
Lemma fmul_one (x : float) : valid x = true -> fmul x fone = x.
Proof.
  destruct x as [s|s| |s m e]; intros Hv; try reflexivity.
  - cbn. destruct s; reflexivity.
  - cbn. destruct s; reflexivity.
  - unfold valid, valid_binary, bounded, canonical_mantissa in Hv.
    apply andb_prop in Hv. destruct Hv as [Hc Hb].
    apply Z.eqb_eq in Hc. apply Z.leb_le in Hb.
    unfold fmul, SFmul, fone.
    replace (xorb s false) with s by (destruct s; reflexivity).
    pose proof (digits2_pos_bounds m) as Hd.
    set (d := Zpos (digits2_pos m)) in *.
    assert (Hd1 : 1 <= d) by (unfold d; lia).
    assert (Hdig : Zdigits2 (Zpos (m * 8388608)) = d + 23).
    { apply Zdigits2_unique; [|lia]. rewrite Pos2Z.inj_mul.
      change (Zpos 8388608) with (2 ^ 23).
      replace (d + 23 - 1) with (d - 1 + 23) by lia.
      rewrite !Z.pow_add_r by lia. nia. }
    pose proof (shr_fexp_stands_for (Zpos (m * 8388608)) (e + -23) loc_Exact
                  (Zpos (m * 8388608)) 1) as S1.
    rewrite Hdig in S1.
    replace (d + 23 + (e + -23)) with (d + e) in S1 by lia.
    rewrite Hc in S1.
    replace (Z.max (e - (e + -23)) 0) with 23 in S1 by lia.
    destruct S1 as [He Hs]; [lia|lia|apply stands_for_exact|].
    unfold binary_round_aux.
    destruct (shr_fexp prec emax (Zpos (m * 8388608)) (e + -23) loc_Exact) as [r e0].
    cbn [fst snd] in He, Hs.
    rewrite (rne_of_stands_for _ _ _ Hs).
    rewrite Z.mul_1_l, Pos2Z.inj_mul. change (Zpos 8388608) with (2 ^ 23).
    rewrite rne_div_exact by lia.
    replace e0 with e by lia.
    rewrite renormalize_canonical by (cbn [Zdigits2]; exact Hc).
    cbn [shr_m]. apply Z.leb_le in Hb. rewrite Hb. reflexivity.
Qed.

Lemma truncate_ulps (y : float) (v : Z) :
  ulps y = Some v -> truncate y = Some (Z.quot v (2 ^ 149)).
Proof.
  destruct y as [s|s| |s m e]; cbn [ulps truncate]; try discriminate.
  - intros Q; inversion Q; subst. reflexivity.
  - destruct (Z.leb_spec (-149) e) as [He|He]; [|discriminate].
    intros Q; inversion Q; subst v; clear Q. f_equal.
    assert (Hq : Z.quot (Zpos m * 2 ^ (e + 149)) (2 ^ 149)
                 = match e with
                   | Zneg p => Z.shiftr (Zpos m) (Zpos p)
                   | _ => Z.shiftl (Zpos m) e
                   end).
    { rewrite Z.quot_div_nonneg by (try apply Z.mul_nonneg_nonneg; try apply Z.pow_nonneg; lia).
      destruct e as [|p|p].
      - cbn [Z.shiftl]. rewrite Z.div_mul by (apply Z.pow_nonzero; lia). reflexivity.
      - rewrite Z.shiftl_mul_pow2 by lia.
        rewrite Z.pow_add_r by lia. rewrite Z.mul_assoc.
        apply Z.div_mul. apply Z.pow_nonzero; lia.
      - rewrite Z.shiftr_div_pow2 by lia.
        replace (2 ^ 149) with (2 ^ Zpos p * 2 ^ (Zneg p + 149)).
        + apply Z.div_mul_cancel_r; apply Z.pow_nonzero; lia.
        + rewrite <- Z.pow_add_r by lia. f_equal. lia. }
    destruct s.
    + replace (Zneg m * 2 ^ (e + 149)) with (- (Zpos m * 2 ^ (e + 149))) by lia.
      rewrite Z.quot_opp_l by (apply Z.pow_nonzero; lia).
      rewrite Hq. reflexivity.
    + rewrite Hq. reflexivity.
Qed.

Lemma clamp_uint8_range (c : Z) : 0 <= clamp_uint8 c <= 255.
Proof.
  unfold clamp_uint8. destruct (Z.ltb_spec c 0); [lia|].
  destruct (Z.gtb_spec c 255); lia.
Qed.

Lemma clamp_quot_div (v : Z) :
  clamp_uint8 (Z.quot v (2 ^ 149)) = clamp_uint8 (v / 2 ^ 149).
Proof.
  destruct (Z.le_gt_cases 0 v) as [P|N].
  - rewrite Z.quot_div_nonneg by lia. reflexivity.
  - assert (Hq : Z.quot v (2 ^ 149) <= 0).
    { apply Z.quot_le_upper_bound; lia. }
    assert (Hd : v / 2 ^ 149 < 0) by (apply Z.div_lt_upper_bound; lia).
    unfold clamp_uint8.
    destruct (Z.ltb_spec (Z.quot v (2 ^ 149)) 0); destruct (Z.ltb_spec (v / 2 ^ 149) 0); try lia.
    destruct (Z.gtb_spec (Z.quot v (2 ^ 149)) 255); lia.
Qed.

Lemma shl_align_fst (m : positive) (e e' : Z) :
  e' <= e -> Zpos (fst (shl_align m e e')) = Zpos m * 2 ^ (e - e').
Proof.
  intros He. unfold shl_align.
  destruct (e' - e) as [|p|p] eqn:E; cbn [fst].
  - replace (e - e') with 0 by lia. lia.
  - lia.
  - rewrite iter_xO_shift. f_equal. f_equal. lia.
Qed.

Lemma pow2_pos (k : Z) : 0 <= k -> 0 < 2 ^ k.
Proof. intros. apply Z.pow_pos_nonneg; lia. Qed.

Lemma pow2_add (a b : Z) : 0 <= a -> 0 <= b -> 2 ^ (a + b) = 2 ^ a * 2 ^ b.
Proof. intros. apply Z.pow_add_r; lia. Qed.

(** Truncation of a normalised positive or negative float. *)
Lemma truncate_normalize24 (s : bool) (M E : Z) :
  2 ^ 23 <= M <= 2 ^ 24 ->
  truncate (normalize24 s M E)
  = Some ((if s then Z.opp else fun z => z)
            (if E <? 0 then M / 2 ^ (- E) else M * 2 ^ E)).
Proof.
  intros HM. unfold normalize24.
  destruct (Z.eqb_spec M (2 ^ 24)) as [Ec|Nc]; cbn [truncate].
  - subst M. f_equal.
    assert (Q : match E + 1 with
                | Zneg p => Z.shiftr (Zpos (Z.to_pos (2 ^ 23))) (Zpos p)
                | _ => Z.shiftl (Zpos (Z.to_pos (2 ^ 23))) (E + 1)
                end = if E <? 0 then 2 ^ 24 / 2 ^ (- E) else 2 ^ 24 * 2 ^ E).
    { change (Zpos (Z.to_pos (2 ^ 23))) with (2 ^ 23).
      destruct (Z.ltb_spec E 0) as [Neg|Pos].
      - destruct (E + 1) as [|p|p] eqn:E1; try lia.
        + replace E with (-1) by lia. reflexivity.
        + rewrite Z.shiftr_div_pow2 by lia.
          replace (- E) with (Zpos p + 1) by lia.
          rewrite pow2_add by lia. change (2 ^ 24) with (2 ^ 23 * 2 ^ 1).
          symmetry. apply Z.div_mul_cancel_r; lia.
      - destruct (E + 1) as [|p|p] eqn:E1; try lia.
        rewrite Z.shiftl_mul_pow2 by lia. rewrite <- E1.
        rewrite pow2_add by lia. change (2 ^ 24) with (2 ^ 23 * 2 ^ 1). lia. }
    rewrite Q. destruct s; reflexivity.
  - f_equal. rewrite Z2Pos.id by lia.
    assert (Q : match E with
                | Zneg p => Z.shiftr M (Zpos p)
                | _ => Z.shiftl M E
                end = if E <? 0 then M / 2 ^ (- E) else M * 2 ^ E).
    { destruct E as [|p|p].
      - cbn. lia.
      - rewrite Z.shiftl_mul_pow2 by lia. reflexivity.
      - rewrite Z.shiftr_div_pow2 by lia. reflexivity. }
    rewrite Q. destruct s; reflexivity.
Qed.

Lemma rne_div_below (a b n : Z) :
  0 < b -> 2 * a < (2 * n + 1) * b -> rne_div a b <= n.
Proof.
  intros Hb H.
  assert (Hq : a / b <= n).
  { apply Z.lt_succ_r. apply Z.div_lt_upper_bound; [lia|]. nia. }
  pose proof (rne_div_bounds a b) as [B1 B2].
  destruct (Z.eq_dec (a / b) n) as [E|N]; [|lia].
  unfold rne_div, location_of, round_nearest_even in *.
  pose proof (Z.mod_pos_bound a b Hb) as Hr.
  assert (Hm : a mod b = a - n * b) by (rewrite Z.mod_eq by lia; rewrite E; lia).
  destruct (Z.eqb_spec (a mod b) 0); [lia|].
  destruct (Z.compare_spec (2 * (a mod b)) b); lia.
Qed.

Lemma rne_div_exact_rem (a b : Z) :
  0 < b -> a mod b = 0 -> rne_div a b = a / b.
Proof.
  intros Hb H. unfold rne_div, location_of. rewrite H. reflexivity.
Qed.

(** Adding one half to a positive float: the sum of aligned mantissas,
    rounded as a positive number. *)
Lemma fadd_half_pos (m : positive) (e : Z) :
  let ez := Z.min e (-24) in
  fadd (S754_finite false m e) fhalf
  = binary_round prec emax false
      (Z.to_pos (Zpos m * 2 ^ (e - ez) + 2 ^ 23 * 2 ^ (-24 - ez))) ez.
Proof.
  intros ez. unfold fadd, SFadd, fhalf. fold ez. cbn [cond_Zopp].
  assert (H1 : Zpos (fst (shl_align m e ez)) = Zpos m * 2 ^ (e - ez))
    by (apply shl_align_fst; unfold ez; lia).
  assert (H2 : Zpos (fst (shl_align 8388608 (-24) ez)) = 2 ^ 23 * 2 ^ (-24 - ez))
    by (apply shl_align_fst; unfold ez; lia).
  destruct (shl_align m e ez) as [a ea]. destruct (shl_align 8388608 (-24) ez) as [b eb].
  cbn [fst] in *. cbn [Z.add binary_normalize].
  rewrite <- H1, <- H2. cbn [Z.add Z.to_pos]. reflexivity.
Qed.

(** Rounding a number of at least 24 bits: the low bits are rounded away. *)
Lemma binary_round_big (s : bool) (p : positive) (ez : Z) :
  let d := Zpos (digits2_pos p) in
  24 <= d -> -149 <= ez -> ez + d - 24 <= 103 ->
  binary_round prec emax s p ez
  = normalize24 s (rne_div (Zpos p) (2 ^ (d - 24))) (ez + d - 24)
  /\ 2 ^ 23 <= rne_div (Zpos p) (2 ^ (d - 24)) <= 2 ^ 24.
Proof.
  intros d Hd Hez Hmax. pose proof (digits2_pos_bounds p) as Hb. fold d in Hb.
  assert (HM : 2 ^ 23 <= rne_div (Zpos p) (2 ^ (d - 24)) <= 2 ^ 24).
  { assert (Hp : 0 < 2 ^ (d - 24)) by (apply pow2_pos; lia).
    rewrite (pow2_split d) in Hb by lia. rewrite (pow2_split' d) in Hb by lia.
    split; [apply rne_div_ge|apply rne_div_le]; lia. }
  split; [|exact HM].
  unfold binary_round, shl_align. fold d. rewrite fexp_eq.
  replace (Z.max (d + ez - 24) (-149) - ez) with (d - 24) by lia.
  assert (Hk : match d - 24 with Zneg _ => False | _ => True end)
    by (destruct (d - 24) eqn:Ek; try exact I; lia).
  destruct (d - 24) as [|k|k] eqn:Ek; try contradiction; rewrite <- Ek in *.
  - apply binary_round_aux_rne with (a := Zpos p) (b := 1);
      first [ apply stands_for_exact
            | cbn [Zdigits2]; fold d; rewrite fexp_eq; lia
            | replace (ez + d - 24 - ez) with (d - 24) by lia; rewrite Z.mul_1_l; reflexivity
            | lia ].
  - apply binary_round_aux_rne with (a := Zpos p) (b := 1);
      first [ apply stands_for_exact
            | cbn [Zdigits2]; fold d; rewrite fexp_eq; lia
            | replace (ez + d - 24 - ez) with (d - 24) by lia; rewrite Z.mul_1_l; reflexivity
            | lia ].
Qed.

(** Rounding a number of fewer than 24 bits in the normal range is exact:
    the mantissa is only shifted left. *)
Lemma binary_round_small (s : bool) (p : positive) (ez : Z) :
  let d := Zpos (digits2_pos p) in
  d < 24 -> -149 <= ez + d - 24 -> ez + d - 24 <= 103 ->
  binary_round prec emax s p ez
  = S754_finite s (Z.to_pos (Zpos p * 2 ^ (24 - d))) (ez + d - 24)
  /\ 2 ^ 23 <= Zpos p * 2 ^ (24 - d) < 2 ^ 24.
Proof.
  intros d Hd Hez Hmax. pose proof (digits2_pos_bounds p) as Hb. fold d in Hb.
  assert (Hd1 : 1 <= d) by (unfold d; lia).
  assert (Hm : 2 ^ 23 <= Zpos p * 2 ^ (24 - d) < 2 ^ 24).
  { assert (E1 : 2 ^ 24 = 2 ^ d * 2 ^ (24 - d)).
    { rewrite <- Z.pow_add_r by lia. f_equal. lia. }
    assert (E2 : 2 ^ 23 = 2 ^ (d - 1) * 2 ^ (24 - d)).
    { rewrite <- Z.pow_add_r by lia. f_equal. lia. }
    assert (Hp : 0 < 2 ^ (24 - d)) by (apply pow2_pos; lia).
    rewrite E1, E2. nia. }
  split; [|exact Hm].
  unfold binary_round, shl_align. fold d. rewrite fexp_eq.
  replace (Z.max (d + ez - 24) (-149) - ez) with (d - 24) by lia.
  replace (Z.max (d + ez - 24) (-149)) with (ez + d - 24) by lia.
  destruct (d - 24) as [|k|k] eqn:Ek; try lia.
  replace (24 - d) with (Zpos k) in * by lia.
  rewrite <- iter_xO_shift in *. rewrite Pos2Z.id.
  replace (S754_finite s (Pos.iter xO p k) (ez + d - 24))
    with (normalize24 s (Zpos (Pos.iter xO p k)) (ez + d - 24)).
  - apply binary_round_aux_rne with (a := Zpos (Pos.iter xO p k)) (b := 1);
      first [ apply stands_for_exact
            | rewrite (Zdigits2_unique _ 24) by (change (2 ^ (24 - 1)) with (2 ^ 23); lia);
              rewrite fexp_eq; lia
            | rewrite Z.sub_diag, Z.pow_0_r, rne_div_1; reflexivity
            | lia ].
  - unfold normalize24.
    destruct (Z.eqb_spec (Zpos (Pos.iter xO p k)) (2 ^ 24)); [lia|]. reflexivity.
Qed.

Lemma valid_finite (s : bool) (m : positive) (e : Z) :
  valid (S754_finite s m e) = true ->
  -149 <= e <= 104 /\ Zpos m < 2 ^ 24 /\ (-149 < e -> 2 ^ 23 <= Zpos m).
Proof.
  unfold valid, valid_binary, bounded, canonical_mantissa. intros Hv.
  apply andb_prop in Hv. destruct Hv as [Hc Hb].
  apply Z.eqb_eq in Hc. apply Z.leb_le in Hb. rewrite fexp_eq in Hc.
  change (emax - prec) with 104 in Hb.
  pose proof (digits2_pos_bounds m) as [L U].
  set (d := Zpos (digits2_pos m)) in *.
  assert (Hd : d <= 24) by lia.
  split; [lia|]. split.
  - assert (2 ^ d <= 2 ^ 24) by (apply Z.pow_le_mono_r; lia). lia.
  - intros He. assert (d = 24) by lia. replace (d - 1) with 23 in L by lia. exact L.
Qed.

Import CanvasPropertyPaintAnimator.

Lemma to_uint8_of_truncation (x : float) (c : Z) :
  truncate (fadd x fhalf) = Some c ->
  INT_MIN <= c <= INT_MAX ->
  to_uint8 x = Ok (clamp_uint8 c).
Proof.
  intros Ht [R1 R2]. unfold to_uint8, to_int. rewrite Ht.
  apply Z.leb_le in R1, R2. rewrite R1, R2. reflexivity.
Qed.

Lemma clamp_uint8_high (c : Z) : 255 <= c -> clamp_uint8 c = 255.
Proof.
  intros H. unfold clamp_uint8. destruct (Z.ltb_spec c 0); [lia|].
  destruct (Z.gtb_spec c 255); lia.
Qed.

Lemma clamp_uint8_low (c : Z) : c <= 0 -> clamp_uint8 c = 0.
Proof.
  intros H. unfold clamp_uint8. destruct (Z.ltb_spec c 0); [lia|].
  destruct (Z.gtb_spec c 255); lia.
Qed.

(** Below one half, other than just below it, the sum stays below 1. *)
Lemma to_uint8_small (m : positive) (e : Z) :
  valid (S754_finite false m e) = true ->
  e <= -25 ->
  S754_finite false m e <> below_half ->
  to_uint8 (S754_finite false m e) = Ok 0
  /\ nearest_integer (Zpos m * 2 ^ (e + 149)) = 0.
Proof.
  intros Hv He Hn. destruct (valid_finite _ _ _ Hv) as [[He1 _] [Hm _]].
  set (c := 2 ^ (- e - 25)).
  assert (Hc : 1 <= c) by (unfold c; pose proof (pow2_pos (- e - 25)); lia).
  assert (Hh : 2 ^ (-1 - e) = 2 ^ 24 * c).
  { unfold c. rewrite <- pow2_add by lia. f_equal. lia. }
  assert (Hk : 2 ^ (- e - 24) = 2 * c).
  { unfold c. replace (2 * 2 ^ (- e - 25)) with (2 ^ 1 * 2 ^ (- e - 25)) by reflexivity.
    rewrite <- pow2_add by lia. f_equal. lia. }
  assert (Hne : c = 1 -> Zpos m < 2 ^ 24 - 1).
  { intros C1. assert (E25 : e = -25).
    { destruct (Z.eq_dec e (-25)) as [|N]; [assumption|].
      assert (2 ^ 1 <= 2 ^ (- e - 25)) by (apply Z.pow_le_mono_r; lia). fold c in H.
      change (2 ^ 1) with 2 in H. lia. }
    subst e. destruct (Z.eq_dec (Zpos m) (2 ^ 24 - 1)) as [Q|Q]; [|lia].
    exfalso. apply Hn. unfold below_half. f_equal. change (2 ^ 24 - 1) with 16777215 in Q.
    congruence. }
  split.
  - change (@Ok Z 0) with (@Ok Z (clamp_uint8 0)).
    apply to_uint8_of_truncation; [|unfold INT_MIN, INT_MAX; lia].
    rewrite fadd_half_pos. cbv zeta.
    replace (Z.min e (-24)) with e by lia.
    rewrite Z.sub_diag, Z.pow_0_r, Z.mul_1_r.
    replace (2 ^ 23 * 2 ^ (-24 - e)) with (2 ^ (-1 - e))
      by (rewrite <- pow2_add by lia; f_equal; lia).
    set (p := Z.to_pos (Zpos m + 2 ^ (-1 - e))).
    assert (Hp : Zpos p = Zpos m + 2 ^ (-1 - e)) by (unfold p; rewrite Z2Pos.id; lia).
    assert (Hd : Zpos (digits2_pos p) = - e).
    { apply digits2_pos_unique. rewrite Hp.
      replace (- e - 1) with (-1 - e) by lia.
      replace (2 ^ (- e)) with (2 ^ 1 * 2 ^ (-1 - e)).
      - lia.
      - rewrite <- pow2_add by lia. f_equal. lia. }
    destruct (binary_round_big false p e) as [R B]; rewrite ?Hd; try lia.
    rewrite Hd in R, B. replace (e + - e - 24) with (-24) in R by lia.
    rewrite R, truncate_normalize24 by exact B. cbn [Z.ltb Z.compare Z.opp].
    f_equal. apply Z.div_small. split; [lia|].
    assert (rne_div (Zpos p) (2 ^ (- e - 24)) <= 2 ^ 24 - 1); [|lia].
    apply rne_div_below; [rewrite Hk; lia|]. rewrite Hp, Hh, Hk.
    destruct (Z.eq_dec c 1) as [C1|C1]; [specialize (Hne C1); subst c; lia|nia].
  - unfold nearest_integer. apply Z.div_small. split.
    + assert (0 < 2 ^ (e + 149)) by (apply pow2_pos; lia). lia.
    + assert (E1 : 2 ^ 148 = 2 ^ 24 * c * 2 ^ (e + 149)).
      { rewrite <- Hh. rewrite <- pow2_add by lia. f_equal. lia. }
      assert (E2 : 2 ^ 149 = 2 * 2 ^ 148) by reflexivity.
      assert (0 < 2 ^ (e + 149)) by (apply pow2_pos; lia).
      rewrite E2, E1. nia.
Qed.

(** Rounding a 25-bit number to 24 bits and dropping its fraction bits
    never reaches the next integer. *)
Lemma rne_no_jump (W P Q : Z) :
  1 <= P -> 2 ^ 24 = Q * (2 * P) -> 2 ^ 24 <= W < 2 ^ 24 + P ->
  rne_div W 2 / P = W / 2 / P.
Proof.
  intros HP HQ HW.
  set (q := W / 2). set (n := q / P).
  assert (Hq : 2 * q <= W <= 2 * q + 1).
  { unfold q. pose proof (Z.div_mod W 2). pose proof (Z.mod_pos_bound W 2). lia. }
  assert (Hn : n * P <= q < (n + 1) * P).
  { unfold n. pose proof (Z.div_mod q P). pose proof (Z.mod_pos_bound q P). nia. }
  pose proof (rne_div_bounds W 2) as [B1 B2]. fold q in B1, B2.
  assert (Hu : rne_div W 2 <= (n + 1) * P - 1).
  { apply rne_div_below; [lia|].
    assert (W + 1 <> 2 * (n + 1) * P); [|nia].
    intros Eq. assert (Q < n + 1) by nia. assert (n + 1 <= Q) by nia. lia. }
  symmetry. apply Z.div_unique with (r := rne_div W 2 - n * P); nia.
Qed.

Lemma nearest_integer_sum (m g p e : Z) :
  -24 <= e -> g = 2 ^ (e + 24) -> p = m * g + 2 ^ 23 ->
  nearest_integer (m * 2 ^ (e + 149)) = p / 2 ^ 24.
Proof.
  intros He Hg Hp. unfold nearest_integer.
  replace (m * 2 ^ (e + 149) + 2 ^ 148) with (p * 2 ^ 125).
  - change (2 ^ 149) with (2 ^ 24 * 2 ^ 125).
    apply Z.div_mul_cancel_r; apply Z.pow_nonzero; lia.
  - subst p g. replace (e + 149) with (e + 24 + 125) by lia.
    rewrite (pow2_add (e + 24) 125) by lia. change (2 ^ 148) with (2 ^ 23 * 2 ^ 125). ring.
Qed.

Lemma clamp_uint8_both_high (a b : Z) :
  255 <= a -> 255 <= b -> clamp_uint8 a = clamp_uint8 b.
Proof. intros. rewrite !clamp_uint8_high by assumption. reflexivity. Qed.

(** From one half up to the [int] range, the sum's truncation is the
    nearest integer, or both lie above 255. *)
Lemma to_uint8_large (m : positive) (e : Z) :
  valid (S754_finite false m e) = true ->
  -24 <= e <= 7 ->
  to_uint8 (S754_finite false m e)
  = Ok (clamp_uint8 (nearest_integer (Zpos m * 2 ^ (e + 149)))).
Proof.
  intros Hv He. destruct (valid_finite _ _ _ Hv) as [_ [Hm1 Hm0]].
  assert (Hm : 2 ^ 23 <= Zpos m < 2 ^ 24) by (split; [apply Hm0; lia|exact Hm1]).
  clear Hm0 Hm1.
  set (g := 2 ^ (e + 24)).
  assert (Hg : 1 <= g) by (unfold g; pose proof (pow2_pos (e + 24)); lia).
  set (p := Z.to_pos (Zpos m * g + 2 ^ 23)).
  assert (Hp : Zpos p = Zpos m * g + 2 ^ 23) by (unfold p; rewrite Z2Pos.id; lia).
  rewrite (nearest_integer_sum (Zpos m) g (Zpos p) e) by (lia || reflexivity || exact Hp).
  assert (Hsum : fadd (S754_finite false m e) fhalf = binary_round prec emax false p (-24)).
  { rewrite fadd_half_pos. cbv zeta. replace (Z.min e (-24)) with (-24) by lia.
    replace (e - -24) with (e + 24) by lia.
    replace (-24 - -24) with 0 by lia. rewrite Z.pow_0_r, Z.mul_1_r. reflexivity. }
  pose proof (digits2_pos_bounds p) as Hb.
  set (d := Zpos (digits2_pos p)) in *.
  assert (Hd : d = e + 48 \/ d = e + 49).
  { assert (L : 2 ^ (e + 47) <= Zpos p).
    { replace (e + 47) with (23 + (e + 24)) by lia. rewrite pow2_add by lia. fold g. nia. }
    assert (U : Zpos p < 2 ^ (e + 49)).
    { replace (e + 49) with (25 + (e + 24)) by lia. rewrite pow2_add by lia. fold g. nia. }
    destruct (Z.le_gt_cases d (e + 47)) as [A|A].
    - assert (2 ^ d <= 2 ^ (e + 47)) by (apply Z.pow_le_mono_r; lia). lia.
    - destruct (Z.le_gt_cases (e + 50) d) as [B|B]; [|lia].
      assert (2 ^ (e + 49) <= 2 ^ (d - 1)) by (apply Z.pow_le_mono_r; lia). lia. }
  destruct (binary_round_big false p (-24)) as [R B]; fold d; try lia.
  fold d in R, B. replace (-24 + d - 24) with (d - 48) in R by lia.
  assert (Ht : truncate (fadd (S754_finite false m e) fhalf)
               = Some (if d - 48 <? 0
                       then rne_div (Zpos p) (2 ^ (d - 24)) / 2 ^ (- (d - 48))
                       else rne_div (Zpos p) (2 ^ (d - 24)) * 2 ^ (d - 48))).
  { rewrite Hsum, R. apply truncate_normalize24. exact B. }
  set (M := rne_div (Zpos p) (2 ^ (d - 24))) in *.
  assert (H24 : 2 ^ 24 = 16777216) by reflexivity.
  assert (H23 : 2 ^ 23 = 8388608) by reflexivity.
  destruct Hd as [Hd|Hd].
  - (* the sum keeps the exponent of the input *)
    assert (Hk : 2 ^ (d - 24) = g) by (unfold g; f_equal; lia).
    destruct (Z.ltb_spec (d - 48) 0) as [Neg|Pos].
    + (* fraction bits remain: the addition was exact *)
      set (P := 2 ^ (-1 - e)).
      assert (HP : 1 <= P) by (unfold P; pose proof (pow2_pos (-1 - e)); lia).
      assert (HPg : P * g = 2 ^ 23).
      { unfold P, g. rewrite <- pow2_add by lia. f_equal. lia. }
      assert (Hpe : 2 ^ (- (d - 48)) = 2 * P).
      { unfold P. replace (2 * 2 ^ (-1 - e)) with (2 ^ 1 * 2 ^ (-1 - e)) by reflexivity.
        rewrite <- pow2_add by lia. f_equal. lia. }
      assert (HM : M = Zpos m + P).
      { unfold M. rewrite Hk, Hp, <- HPg.
        replace (Zpos m * g + P * g) with ((Zpos m + P) * g) by ring.
        apply rne_div_exact. lia. }
      assert (Hn : Zpos p / 2 ^ 24 = M / (2 * P)).
      { rewrite HM, Hp, <- HPg.
        replace (Zpos m * g + P * g) with ((Zpos m + P) * g) by ring.
        replace (2 ^ 24) with (2 * P * g) by (rewrite H24; rewrite H23 in HPg; lia).
        apply Z.div_mul_cancel_r; lia. }
      rewrite Hn, <- Hpe. apply to_uint8_of_truncation; [exact Ht|].
      rewrite Hpe. unfold INT_MIN, INT_MAX.
      assert (0 <= M / (2 * P) <= M).
      { split; [apply Z.div_pos; lia|]. apply Z.div_le_upper_bound; nia. }
      rewrite H24, H23 in *. lia.
    + (* no fraction bits: both values are at least 2 ^ 23 *)
      assert (He0 : 0 <= e) by lia.
      assert (Hg25 : 2 ^ 24 <= g).
      { unfold g. apply Z.pow_le_mono_r; lia. }
      assert (HT : 2 ^ 23 <= M * 2 ^ (d - 48) <= INT_MAX).
      { assert (Hpw : 1 <= 2 ^ (d - 48)) by (pose proof (pow2_pos (d - 48)); lia).
        split; [nia|].
        destruct (Z.eq_dec e 0) as [E0|E0].
        - replace (d - 48) with 0 by lia. unfold INT_MAX. rewrite Z.pow_0_r.
          rewrite H24 in *. lia.
        - assert (HgB : 2 ^ 25 <= g) by (unfold g; apply Z.pow_le_mono_r; lia).
          assert (HMm : M <= Zpos m).
          { unfold M. rewrite Hk. apply rne_div_below; [lia|]. rewrite Hp.
            change (2 ^ 25) with 33554432 in HgB. rewrite H23. lia. }
          assert (Hpw7 : 2 ^ (d - 48) <= 2 ^ 7) by (apply Z.pow_le_mono_r; lia).
          unfold INT_MAX. change (2 ^ 7) with 128 in Hpw7. change (2 ^ 31) with 2147483648.
          rewrite H24 in *. nia. }
      assert (Hn : 2 ^ 23 <= Zpos p / 2 ^ 24).
      { apply Z.div_le_lower_bound; [lia|]. rewrite H24, H23 in *. nia. }
      rewrite (clamp_uint8_both_high (Zpos p / 2 ^ 24) (M * 2 ^ (d - 48)))
        by (rewrite H23 in *; lia).
      apply to_uint8_of_truncation; [exact Ht|]. unfold INT_MIN in *. rewrite H23 in *. lia.
  - (* the sum reaches the next binade *)
    assert (Hk : 2 ^ (d - 24) = 2 * g).
    { unfold g. replace (2 * 2 ^ (e + 24)) with (2 ^ 1 * 2 ^ (e + 24)) by reflexivity.
      rewrite <- pow2_add by lia. f_equal. lia. }
    assert (Hlow : 2 ^ 24 * g <= Zpos p).
    { destruct Hb as [Hb _]. replace (d - 1) with (24 + (e + 24)) in Hb by lia.
      rewrite pow2_add in Hb by lia. exact Hb. }
    assert (He1 : e <= -1).
    { destruct (Z.le_gt_cases e (-1)) as [|G]; [assumption|].
      assert (2 ^ 24 <= g) by (unfold g; apply Z.pow_le_mono_r; lia).
      rewrite H24, H23 in *. nia. }
    set (P := 2 ^ (-1 - e)).
    assert (HP : 1 <= P) by (unfold P; pose proof (pow2_pos (-1 - e)); lia).
    assert (HPg : P * g = 2 ^ 23).
    { unfold P, g. rewrite <- pow2_add by lia. f_equal. lia. }
    set (W := Zpos m + P).
    assert (HpW : Zpos p = g * W) by (unfold W; rewrite Hp, <- HPg; ring).
    assert (HW : 2 ^ 24 <= W < 2 ^ 24 + P) by (unfold W; nia).
    assert (HM : M = rne_div W 2).
    { unfold M. rewrite Hk, HpW. rewrite (Z.mul_comm 2 g). apply rne_div_scale; lia. }
    assert (Hn : Zpos p / 2 ^ 24 = W / 2 / P).
    { rewrite HpW. rewrite Z.div_div by lia.
      replace (2 ^ 24) with (g * (2 * P)) by (rewrite H24; rewrite H23 in HPg; lia).
      apply Z.div_mul_cancel_l; lia. }
    destruct (Z.ltb_spec (d - 48) 0) as [Neg|Pos].
    + assert (Hpe : 2 ^ (- (d - 48)) = P) by (unfold P; f_equal; lia).
      assert (HQ : 2 ^ 24 = 2 ^ (24 + e) * (2 * P)).
      { unfold P. replace (2 * 2 ^ (-1 - e)) with (2 ^ 1 * 2 ^ (-1 - e)) by reflexivity.
        rewrite <- !pow2_add by lia. f_equal. lia. }
      rewrite Hn, <- (rne_no_jump W P (2 ^ (24 + e)) HP HQ HW), <- HM, <- Hpe.
      apply to_uint8_of_truncation; [exact Ht|].
      rewrite Hpe. unfold INT_MIN, INT_MAX.
      assert (0 <= M / P <= M).
      { split; [apply Z.div_pos; lia|]. apply Z.div_le_upper_bound; nia. }
      rewrite H24, H23 in *. lia.
    + assert (Ee : e = -1) by lia.
      assert (HP1 : P = 1) by (unfold P; rewrite Ee; reflexivity).
      replace (d - 48) with 0 in Ht by lia. rewrite Z.pow_0_r, Z.mul_1_r in Ht.
      assert (Hn2 : 2 ^ 23 <= Zpos p / 2 ^ 24).
      { rewrite Hn, HP1, Z.div_1_r. apply Z.div_le_lower_bound; [lia|].
        rewrite H24, H23 in *. lia. }
      rewrite (clamp_uint8_both_high (Zpos p / 2 ^ 24) M) by (rewrite H23 in *; lia).
      apply to_uint8_of_truncation; [exact Ht|].
      unfold INT_MIN, INT_MAX. rewrite H24, H23 in *. lia.
Qed.

(** Rounding in the normal range always gives a normalised 24-bit mantissa
    at the exponent fixed by the number of digits. *)
Lemma binary_round_normal (s : bool) (p : positive) (ez : Z) :
  let d := Zpos (digits2_pos p) in
  -149 <= ez -> -149 <= ez + d - 24 -> ez + d - 24 <= 103 ->
  exists M, binary_round prec emax s p ez = normalize24 s M (ez + d - 24)
            /\ 2 ^ 23 <= M <= 2 ^ 24.
Proof.
  intros d H1 H2 H3. destruct (Z.le_gt_cases 24 d) as [Big|Small].
  - destruct (binary_round_big s p ez) as [R B]; fold d; try assumption.
    eexists. split; [exact R|exact B].
  - destruct (binary_round_small s p ez) as [R B]; fold d; try assumption.
    fold d in R, B. exists (Zpos p * 2 ^ (24 - d)). split; [|lia].
    rewrite R. unfold normalize24.
    destruct (Z.eqb_spec (Zpos p * 2 ^ (24 - d)) (2 ^ 24)); [lia|reflexivity].
Qed.

Lemma fadd_half_neg (m : positive) (e : Z) :
  let ez := Z.min e (-24) in
  fadd (S754_finite true m e) fhalf
  = binary_normalize prec emax
      (2 ^ 23 * 2 ^ (-24 - ez) - Zpos m * 2 ^ (e - ez)) ez false.
Proof.
  intros ez. unfold fadd, SFadd, fhalf. fold ez. cbn [cond_Zopp].
  assert (H1 : Zpos (fst (shl_align m e ez)) = Zpos m * 2 ^ (e - ez))
    by (apply shl_align_fst; unfold ez; lia).
  assert (H2 : Zpos (fst (shl_align 8388608 (-24) ez)) = 2 ^ 23 * 2 ^ (-24 - ez))
    by (apply shl_align_fst; unfold ez; lia).
  destruct (shl_align m e ez) as [a ea]. destruct (shl_align 8388608 (-24) ez) as [b eb].
  cbn [fst] in *. rewrite <- H1, <- H2. reflexivity.
Qed.

(** A negative input: the sum is at most one half, so it truncates to zero
    or below. *)
Lemma to_uint8_negative (m : positive) (e : Z) :
  valid (S754_finite true m e) = true ->
  e <= 7 ->
  to_uint8 (S754_finite true m e) = Ok 0.
Proof.
  intros Hv He. destruct (valid_finite _ _ _ Hv) as [[He1 _] [Hm1 Hm0]].
  assert (H24 : 2 ^ 24 = 16777216) by reflexivity.
  assert (H23 : 2 ^ 23 = 8388608) by reflexivity.
  destruct (Z.le_gt_cases e (-25)) as [Small|Large].
  - (* above minus one half: a positive sum below one half *)
    assert (Hh : 2 ^ 24 <= 2 ^ (-1 - e)) by (apply Z.pow_le_mono_r; lia).
    set (h := 2 ^ (-1 - e)) in *.
    set (p := Z.to_pos (h - Zpos m)).
    assert (Hp : Zpos p = h - Zpos m) by (unfold p; rewrite Z2Pos.id; lia).
    assert (Hsum : fadd (S754_finite true m e) fhalf = binary_round prec emax false p e).
    { rewrite fadd_half_neg. cbv zeta. replace (Z.min e (-24)) with e by lia.
      rewrite Z.sub_diag, Z.pow_0_r, Z.mul_1_r.
      replace (2 ^ 23 * 2 ^ (-24 - e)) with h
        by (unfold h; rewrite <- pow2_add by lia; f_equal; lia).
      rewrite <- Hp. reflexivity. }
    pose proof (digits2_pos_bounds p) as Hb.
    set (d := Zpos (digits2_pos p)) in *.
    assert (Hd1 : 1 <= d) by (unfold d; lia).
    assert (Hd : d <= -1 - e).
    { destruct (Z.le_gt_cases d (-1 - e)) as [|G]; [assumption|].
      assert (2 ^ (-1 - e) <= 2 ^ (d - 1)) by (apply Z.pow_le_mono_r; lia).
      fold h in H. lia. }
    assert (Hd2 : -149 <= e + d - 24).
    { destruct (Z.le_gt_cases 24 d) as [|G]; [lia|].
      assert (e = -25); [|lia].
      destruct (Z.eq_dec e (-25)) as [|N]; [assumption|].
      assert (2 ^ 25 <= 2 ^ (-1 - e)) by (apply Z.pow_le_mono_r; lia). fold h in H.
      assert (2 ^ d <= 2 ^ 23) by (apply Z.pow_le_mono_r; lia).
      change (2 ^ 25) with 33554432 in H. rewrite H24, H23 in *. lia. }
    destruct (binary_round_normal false p e) as [M [R B]]; fold d; try lia.
    fold d in R.
    change (@Ok Z 0) with (@Ok Z (clamp_uint8 0)).
    apply to_uint8_of_truncation; [|unfold INT_MIN, INT_MAX; lia].
    rewrite Hsum, R, truncate_normalize24 by exact B.
    replace (e + d - 24 <? 0) with true by (symmetry; apply Z.ltb_lt; lia).
    f_equal. apply Z.div_small. split; [lia|].
    assert (2 ^ 25 <= 2 ^ (- (e + d - 24))) by (apply Z.pow_le_mono_r; lia).
    change (2 ^ 25) with 33554432 in H. rewrite H24 in *. lia.
  - (* at most minus one half: the sum is zero or negative *)
    assert (Hm : 2 ^ 23 <= Zpos m) by (apply Hm0; lia).
    set (g := 2 ^ (e + 24)).
    assert (Hg : 1 <= g) by (unfold g; pose proof (pow2_pos (e + 24)); lia).
    assert (Hsum : fadd (S754_finite true m e) fhalf
                   = binary_normalize prec emax (2 ^ 23 - Zpos m * g) (-24) false).
    { rewrite fadd_half_neg. cbv zeta. replace (Z.min e (-24)) with (-24) by lia.
      replace (e - -24) with (e + 24) by lia.
      replace (-24 - -24) with 0 by lia. rewrite Z.pow_0_r, Z.mul_1_r. reflexivity. }
    destruct (2 ^ 23 - Zpos m * g) as [|q|q] eqn:Es; [| nia |].
    + change (@Ok Z 0) with (@Ok Z (clamp_uint8 0)).
      apply to_uint8_of_truncation; [|unfold INT_MIN, INT_MAX; lia].
      rewrite Hsum. reflexivity.
    + assert (Hq : Zpos q = Zpos m * g - 2 ^ 23) by lia.
      cbn [binary_normalize] in Hsum.
      pose proof (digits2_pos_bounds q) as Hb.
      set (d := Zpos (digits2_pos q)) in *.
      assert (Hd1 : 1 <= d) by (unfold d; lia).
      assert (Hd : d <= e + 48).
      { destruct (Z.le_gt_cases d (e + 48)) as [|G]; [assumption|].
        assert (2 ^ (e + 48) <= 2 ^ (d - 1)) by (apply Z.pow_le_mono_r; lia).
        replace (e + 48) with (24 + (e + 24)) in H by lia.
        rewrite pow2_add in H by lia. fold g in H. nia. }
      destruct (binary_round_normal true q (-24)) as [M [R B]]; fold d; try lia.
      fold d in R.
      assert (Ht : truncate (fadd (S754_finite true m e) fhalf)
                   = Some (- (if -24 + d - 24 <? 0 then M / 2 ^ (- (-24 + d - 24))
                              else M * 2 ^ (-24 + d - 24)))).
      { rewrite Hsum, R. apply truncate_normalize24. exact B. }
      set (c := if -24 + d - 24 <? 0 then M / 2 ^ (- (-24 + d - 24))
                else M * 2 ^ (-24 + d - 24)) in *.
      assert (Hc : 0 <= c <= 2 ^ 31).
      { unfold c. destruct (Z.ltb_spec (-24 + d - 24) 0).
        - assert (0 < 2 ^ (- (-24 + d - 24))) by (apply pow2_pos; lia).
          assert (0 <= M / 2 ^ (- (-24 + d - 24)) <= M).
          { split; [apply Z.div_pos; lia|]. apply Z.div_le_upper_bound; nia. }
          change (2 ^ 31) with 2147483648. rewrite H24 in *. lia.
        - assert (2 ^ (-24 + d - 24) <= 2 ^ 7) by (apply Z.pow_le_mono_r; lia).
          assert (0 < 2 ^ (-24 + d - 24)) by (apply pow2_pos; lia).
          change (2 ^ 31) with 2147483648. change (2 ^ 7) with 128 in *.
          rewrite H24, H23 in *. nia. }
      rewrite <- (clamp_uint8_low (- c)) by lia.
      apply to_uint8_of_truncation; [exact Ht|].
      unfold INT_MIN, INT_MAX. lia.
Qed.

Lemma nearest_integer_negative (u : Z) : u <= 0 -> clamp_uint8 (nearest_integer u) = 0.
Proof.
  intros Hu. apply clamp_uint8_low. unfold nearest_integer.
  assert (H : (u + 2 ^ 148) / 2 ^ 149 < 1); [|lia].
  apply Z.div_lt_upper_bound; [reflexivity|].
  change (2 ^ 149 * 1) with (2 ^ 148 + 2 ^ 148).
  assert (0 < 2 ^ 148) by reflexivity. lia.
Qed.

(** ** Facts about integer-valued floats *)

Lemma digits2_pos_small (p : positive) : Zpos p < 2 ^ 24 -> 1 <= Zpos (digits2_pos p) <= 24.
Proof.
  intros Hp. pose proof (digits2_pos_bounds p) as [L _]. split; [lia|].
  destruct (Z.le_gt_cases (Zpos (digits2_pos p)) 24) as [|Hgt]; [assumption|].
  assert (2 ^ 24 <= 2 ^ (Zpos (digits2_pos p) - 1)) by (apply Z.pow_le_mono_r; lia). lia.
Qed.

Lemma digits2_pos_shift (p q : positive) (k : Z) :
  0 <= k -> Zpos q = Zpos p * 2 ^ k ->
  Zpos (digits2_pos q) = Zpos (digits2_pos p) + k.
Proof.
  intros Hk Hq. apply digits2_pos_unique.
  pose proof (digits2_pos_bounds p) as [L U]. rewrite Hq.
  replace (Zpos (digits2_pos p) + k - 1) with (Zpos (digits2_pos p) - 1 + k) by lia.
  rewrite !pow2_add by lia.
  assert (0 < 2 ^ k) by (apply pow2_pos; lia). nia.
Qed.

Lemma integer_mantissa (p : positive) :
  Zpos p < 2 ^ 24 ->
  2 ^ 23 <= Zpos p * 2 ^ (24 - Zpos (digits2_pos p)) < 2 ^ 24.
Proof.
  intros Hp. pose proof (digits2_pos_small p Hp) as Hd.
  pose proof (digits2_pos_bounds p) as [L U].
  set (d := Zpos (digits2_pos p)) in *.
  assert (E1 : 2 ^ 24 = 2 ^ d * 2 ^ (24 - d)) by (rewrite <- pow2_add by lia; f_equal; lia).
  assert (E2 : 2 ^ 23 = 2 ^ (d - 1) * 2 ^ (24 - d)) by (rewrite <- pow2_add by lia; f_equal; lia).
  assert (0 < 2 ^ (24 - d)) by (apply pow2_pos; lia).
  rewrite E1, E2. nia.
Qed.

(** Rounding an integer of fewer than 25 bits that has been shifted left
    is exact. *)
Lemma binary_round_exact (s : bool) (p q : positive) (k : Z) :
  0 <= k <= 125 -> Zpos q = Zpos p * 2 ^ k -> Zpos p < 2 ^ 24 ->
  binary_round prec emax s q (- k) = integer_float s p.
Proof.
  intros Hk Hq Hp. unfold integer_float.
  pose proof (digits2_pos_small p Hp) as Hd.
  pose proof (digits2_pos_shift p q k (proj1 Hk) Hq) as Hdq.
  pose proof (integer_mantissa p Hp) as Hm.
  set (d := Zpos (digits2_pos p)) in *.
  destruct (Z.lt_ge_cases (d + k) 24) as [Hlt|Hge].
  - pose proof (binary_round_small s q (- k)) as B. cbv zeta in B. rewrite Hdq in B.
    destruct B as [E _]; try lia.
    rewrite E, Hq. f_equal; [|lia]. f_equal.
    replace (24 - d) with (k + (24 - (d + k))) by lia.
    rewrite pow2_add by lia. lia.
  - pose proof (binary_round_big s q (- k)) as B. cbv zeta in B. rewrite Hdq in B.
    destruct B as [E _]; try lia.
    rewrite E, Hq.
    replace (Zpos p * 2 ^ k) with ((Zpos p * 2 ^ (24 - d)) * 2 ^ (d + k - 24)).
    + rewrite rne_div_exact by (apply pow2_pos; lia).
      unfold normalize24.
      destruct (Z.eqb_spec (Zpos p * 2 ^ (24 - d)) (2 ^ 24)); [lia|].
      f_equal. lia.
    + rewrite <- Z.mul_assoc, <- pow2_add by lia. do 2 f_equal. lia.
Qed.

Lemma of_int_exact (s : bool) (p : positive) :
  Zpos p < 2 ^ 24 -> of_int (cond_Zopp s (Zpos p)) = integer_float s p.
Proof.
  intros Hp.
  assert (E : binary_round prec emax s p (- 0) = integer_float s p).
  { apply binary_round_exact; [lia| rewrite Z.pow_0_r; lia | exact Hp]. }
  destruct s; exact E.
Qed.

(** The mantissa of an integer float aligned to a smaller exponent. *)
Lemma integer_float_align (p : positive) (k : Z) :
  Zpos p < 2 ^ 24 -> Zpos (digits2_pos p) - 24 >= - k ->
  Zpos (fst (shl_align (Z.to_pos (Zpos p * 2 ^ (24 - Zpos (digits2_pos p))))
                       (Zpos (digits2_pos p) - 24) (- k)))
  = Zpos p * 2 ^ k.
Proof.
  intros Hp Hk. pose proof (digits2_pos_small p Hp) as Hd.
  pose proof (integer_mantissa p Hp) as Hm.
  rewrite shl_align_fst by lia. rewrite Z2Pos.id by lia.
  rewrite <- Z.mul_assoc, <- pow2_add by lia. do 2 f_equal. lia.
Qed.

Lemma binary_normalize_exact (n k : Z) :
  0 <= k <= 125 -> Z.abs n < 2 ^ 24 ->
  binary_normalize prec emax (n * 2 ^ k) (- k) false = of_int n.
Proof.
  intros Hk Hn. assert (Hpow : 0 < 2 ^ k) by (apply pow2_pos; lia).
  destruct n as [|p|p].
  - reflexivity.
  - change (of_int (Zpos p)) with (of_int (cond_Zopp false (Zpos p))).
    rewrite (of_int_exact false p) by lia.
    destruct (Zpos p * 2 ^ k) as [|q|q] eqn:Eq; try lia.
    apply binary_round_exact; [exact Hk | symmetry; exact Eq | lia].
  - change (of_int (Zneg p)) with (of_int (cond_Zopp true (Zpos p))).
    rewrite (of_int_exact true p) by lia.
    destruct (Zneg p * 2 ^ k) as [|q|q] eqn:Eq; try lia.
    apply binary_round_exact; [exact Hk | lia | lia].
Qed.

(** Sums and differences of integers are exact while everything stays
    below [2 ^ 24]. *)
Lemma integer_float_add_sub (sx sy : bool) (p q : positive) :
  Zpos p < 2 ^ 24 -> Zpos q < 2 ^ 24 ->
  (Z.abs (cond_Zopp sx (Zpos p) + cond_Zopp sy (Zpos q)) < 2 ^ 24 ->
   fadd (integer_float sx p) (integer_float sy q)
   = of_int (cond_Zopp sx (Zpos p) + cond_Zopp sy (Zpos q)))
  /\ (Z.abs (cond_Zopp sx (Zpos p) - cond_Zopp sy (Zpos q)) < 2 ^ 24 ->
      fsub (integer_float sx p) (integer_float sy q)
      = of_int (cond_Zopp sx (Zpos p) - cond_Zopp sy (Zpos q))).
Proof.
  intros Hp Hq.
  pose proof (digits2_pos_small p Hp) as Hdp. pose proof (digits2_pos_small q Hq) as Hdq.
  set (k := - Z.min (Zpos (digits2_pos p) - 24) (Zpos (digits2_pos q) - 24)).
  assert (Hk : 0 <= k <= 125) by (unfold k; lia).
  assert (Ap : Zpos (fst (shl_align (Z.to_pos (Zpos p * 2 ^ (24 - Zpos (digits2_pos p))))
                                    (Zpos (digits2_pos p) - 24) (- k))) = Zpos p * 2 ^ k)
    by (apply integer_float_align; unfold k; lia).
  assert (Aq : Zpos (fst (shl_align (Z.to_pos (Zpos q * 2 ^ (24 - Zpos (digits2_pos q))))
                                    (Zpos (digits2_pos q) - 24) (- k))) = Zpos q * 2 ^ k)
    by (apply integer_float_align; unfold k; lia).
  assert (Emin : Z.min (Zpos (digits2_pos p) - 24) (Zpos (digits2_pos q) - 24) = - k)
    by (unfold k; lia).
  split; intros Hs.
  - unfold fadd, integer_float, SFadd. cbv zeta. rewrite Emin, Ap, Aq.
    rewrite <- (binary_normalize_exact _ k Hk Hs). f_equal.
    destruct sx, sy; cbn [cond_Zopp]; lia.
  - unfold fsub, integer_float, SFsub. cbv zeta. rewrite Emin, Ap, Aq.
    rewrite <- (binary_normalize_exact _ k Hk Hs). f_equal.
    destruct sx, sy; cbn [cond_Zopp]; lia.
Qed.

Lemma of_int_cases (n : Z) :
  Z.abs n < 2 ^ 24 ->
  (n = 0 /\ of_int n = fzero)
  \/ exists s p, n = cond_Zopp s (Zpos p) /\ Zpos p < 2 ^ 24 /\ of_int n = integer_float s p.
Proof.
  intros Hn. destruct n as [|p|p].
  - left. split; reflexivity.
  - right. exists false, p. split; [reflexivity|]. split; [lia|]. apply (of_int_exact false). lia.
  - right. exists true, p. split; [reflexivity|]. split; [lia|]. apply (of_int_exact true). lia.
Qed.

Lemma fadd_of_int (a c : Z) :
  Z.abs a < 2 ^ 24 -> Z.abs c < 2 ^ 24 -> Z.abs (a + c) < 2 ^ 24 ->
  fadd (of_int a) (of_int c) = of_int (a + c).
Proof.
  intros Ha Hc Hs.
  destruct (of_int_cases a Ha) as [[-> Ea]|(sa & p & -> & Hp & Ea)];
    destruct (of_int_cases c Hc) as [[-> Ec]|(sc & q & -> & Hq & Ec)].
  - reflexivity.
  - rewrite Ea, Z.add_0_l, Ec. reflexivity.
  - rewrite Ec, Z.add_0_r, Ea. reflexivity.
  - rewrite Ea, Ec. apply (integer_float_add_sub sa sc p q Hp Hq). exact Hs.
Qed.

Lemma fsub_of_int (b a : Z) :
  Z.abs a < 2 ^ 24 -> Z.abs b < 2 ^ 24 -> Z.abs (b - a) < 2 ^ 24 ->
  fsub (of_int b) (of_int a) = of_int (b - a).
Proof.
  intros Ha Hb Hs.
  destruct (of_int_cases b Hb) as [[-> Eb]|(sb & q & -> & Hq & Eb)];
    destruct (of_int_cases a Ha) as [[-> Ea]|(sa & p & -> & Hp & Ea)].
  - reflexivity.
  - rewrite Eb, Ea. cbn [Z.sub Z.add].
    replace (Z.opp (cond_Zopp sa (Zpos p))) with (cond_Zopp (negb sa) (Zpos p))
      by (destruct sa; reflexivity).
    rewrite of_int_exact by exact Hp. reflexivity.
  - rewrite Ea, Z.sub_0_r, Eb. reflexivity.
  - rewrite Eb, Ea. apply (integer_float_add_sub sb sa q p Hq Hp). exact Hs.
Qed.

Lemma valid_normal (s : bool) (m : positive) (e : Z) :
  2 ^ 23 <= Zpos m < 2 ^ 24 -> -149 <= e <= 104 -> valid (S754_finite s m e) = true.
Proof.
  intros Hm He. unfold valid, valid_binary, bounded, canonical_mantissa.
  rewrite (digits2_pos_unique m 24) by (change (2 ^ (24 - 1)) with (2 ^ 23); lia).
  rewrite fexp_eq. change (emax - prec) with 104.
  apply andb_true_intro. split; [apply Z.eqb_eq|apply Z.leb_le]; lia.
Qed.

Lemma valid_of_int (n : Z) : Z.abs n < 2 ^ 24 -> valid (of_int n) = true.
Proof.
  intros Hn. destruct (of_int_cases n Hn) as [[_ ->]|(s & p & _ & Hp & ->)]; [reflexivity|].
  unfold integer_float. pose proof (integer_mantissa p Hp). pose proof (digits2_pos_small p Hp).
  apply valid_normal; [rewrite Z2Pos.id by lia; lia | lia].
Qed.

(** ** Facts about the base animator *)

Ltac run :=
  cbv beta iota zeta delta
    [bind ret when abort get_this get_info get_target modify_this put_target
     mark_hasAnimations call ALOGW lift deref] in *;
  cbn [this target info callbacks logcat] in *.

Ltac fields :=
  cbn [this target info callbacks logcat
       mFinalValue mDeltaValue mFromValue mInterpolator mStagingPlayState mPlayState
       mHasStartValue mStartTime mDuration mStartDelay mListener
       set_mInterpolator set_startValue set_mStagingPlayState set_mPlayState
       set_mStartTime set_mDuration set_mStartDelay set_mListener
       frameTimeMs hasAnimations animationHook
       PlayState_eqb PlayState_ltb PlayState_gtb PlayState_rank
       Z.eqb Z.ltb Z.gtb Z.compare Pos.eqb Pos.compare Pos.compare_cont
       negb andb orb app] in *.

Lemma PlayState_eqb_eq (a b : PlayState) : PlayState_eqb a b = true <-> a = b.
Proof. destruct a, b; cbn; split; congruence. Qed.

Lemma PlayState_max_rank (a b : PlayState) :
  PlayState_rank (PlayState_max a b) = Z.max (PlayState_rank a) (PlayState_rank b).
Proof. destruct a, b; reflexivity. Qed.

Lemma checkMutable_spec {T : Type} (w : World T) :
  checkMutable w =
  match mStagingPlayState (this w) with
  | NOT_STARTED => Ok (tt, w)
  | _ => alreadyStarted
  end.
Proof. unfold checkMutable; run. destruct (mStagingPlayState (this w)); reflexivity. Qed.

(** C6.  Each configuration setter aborts exactly when the staging play
    state is not NOT_STARTED, and otherwise stores its argument;
    [setStartValue] also stores [mFinalValue - value] as the delta and sets
    [mHasStartValue]. *)
Theorem setters_guarded_by_checkMutable :
  forall (T : Type) (w : World T) (i : option Interpolator) (d delay : Z) (v : float),
    match mStagingPlayState (this w) with
    | NOT_STARTED =>
        setInterpolator i w = Ok (tt, with_this (set_mInterpolator i (this w)) w)
        /\ mInterpolator (set_mInterpolator i (this w)) = i
        /\ setDuration d w = Ok (tt, with_this (set_mDuration d (this w)) w)
        /\ mDuration (set_mDuration d (this w)) = d
        /\ setStartDelay delay w = Ok (tt, with_this (set_mStartDelay delay (this w)) w)
        /\ mStartDelay (set_mStartDelay delay (this w)) = delay
        /\ exists a',
            setStartValue v w = Ok (tt, with_this a' w)
            /\ mFromValue a' = v
            /\ mDeltaValue a' = fsub (mFinalValue (this w)) v
            /\ mHasStartValue a' = true
            /\ mFinalValue a' = mFinalValue (this w)
    | _ =>
        setInterpolator i w = alreadyStarted
        /\ setDuration d w = alreadyStarted
        /\ setStartDelay delay w = alreadyStarted
        /\ setStartValue v w = alreadyStarted
    end.
Proof.
  intros T w i d delay v.
  unfold setInterpolator, setDuration, setStartDelay, setStartValue, doSetStartValue.
  unfold bind. rewrite !checkMutable_spec.
  destruct (mStagingPlayState (this w)); run; repeat split; try reflexivity.
  eexists; repeat split.
Qed.

Section BaseFacts.

Context {V T : Type} `{ValueAccessor V T}.
Variable self : V.
Variable createDefaultInterpolator : Interpolator.


Lemma transitionToRunning_eq (w : World T) :
  transitionToRunning createDefaultInterpolator w =
  let a := this w in
  let ft := frameTimeMs (info w) in
  let s0 := wrap64 (ft + mStartDelay a) in
  let s := if s0 <? 0 then 0 else s0 in
  let log1 := if out_of_window (mStartDelay a)
              then StrangeStartDelay (mStartDelay a) :: logcat w else logcat w in
  let log2 := if s0 <? 0 then WeirdStartTime s0 ft (mStartDelay a) :: log1 else log1 in
  let log3 := if out_of_window (mDuration a)
              then StrangeDuration (mDuration a) :: log2 else log2 in
  if ft <=? 0 then Abort (LOG_ALWAYS_FATAL "isn't a real frame time!")
  else match mInterpolator a, mStagingPlayState a with
       | Some _, _ =>
           Ok (tt, mkWorld (set_mStartTime s a) (target w) (info w) (callbacks w) log3)
       | None, NOT_STARTED =>
           Ok (tt, mkWorld (set_mInterpolator (Some createDefaultInterpolator)
                              (set_mStartTime s a))
                     (target w) (info w) (callbacks w) log3)
       | None, _ => alreadyStarted
       end.
Proof.
  unfold transitionToRunning, setInterpolator, checkMutable, out_of_window. run.
  destruct (frameTimeMs (info w) <=? 0); [reflexivity|].
  destruct ((mStartDelay (this w) <? 0) || (mStartDelay (this w) >? 50000));
    cbn [this target info callbacks logcat set_mStartTime mStartTime mStartDelay mInterpolator
         mDuration mStagingPlayState];
    destruct (wrap64 (frameTimeMs (info w) + mStartDelay (this w)) <? 0);
    cbn [this target info callbacks logcat set_mStartTime mStartTime mStartDelay mInterpolator
         mDuration mStagingPlayState];
    destruct (mInterpolator (this w));
    cbn [this target info callbacks logcat set_mStartTime mStartTime mStartDelay mInterpolator
         mDuration mStagingPlayState];
    try (destruct (mStagingPlayState (this w));
    cbn [this target info callbacks logcat set_mStartTime mStartTime mStartDelay mInterpolator
         mDuration mStagingPlayState negb PlayState_eqb PlayState_rank Z.eqb set_mInterpolator]);
    try reflexivity;
    destruct ((mDuration (this w) <? 0) || (mDuration (this w) >? 50000)); reflexivity.
Qed.

Lemma pushStaging_eq (w : World T) :
  pushStaging self createDefaultInterpolator w =
  let resolve (k : World T -> Result (unit * World T)) :=
    if mHasStartValue (this w) then k w
    else match getValue self (target w) with
         | Ok v => k (with_this (set_startValue v (fsub (mFinalValue (this w)) v) (this w)) w)
         | Abort f => Abort f
         end in
  resolve (fun w1 =>
    if PlayState_gtb (mStagingPlayState (this w1)) (mPlayState (this w1)) then
      let w2 := with_this (set_mPlayState (mStagingPlayState (this w1)) (this w1)) w1 in
      match mStagingPlayState (this w1) with
      | RUNNING => transitionToRunning createDefaultInterpolator w2
      | _ => Ok (tt, w2)
      end
    else Ok (tt, w1)).
Proof.
  unfold pushStaging, doSetStartValue, with_this. run.
  destruct (mHasStartValue (this w)); cbn [negb].
  - destruct (PlayState_gtb (mStagingPlayState (this w)) (mPlayState (this w))); [|reflexivity].
    cbn. destruct (mStagingPlayState (this w)); reflexivity.
  - destruct (getValue self (target w)) as [v|f]; [|reflexivity].
    cbn. destruct (PlayState_gtb (mStagingPlayState (this w)) (mPlayState (this w))); [|reflexivity].
    cbn. destruct (mStagingPlayState (this w)); reflexivity.
Qed.

Lemma transitionToRunning_keeps_states (w w' : World T) (u : unit) :
  transitionToRunning createDefaultInterpolator w = Ok (u, w') ->
  mPlayState (this w') = mPlayState (this w)
  /\ mStagingPlayState (this w') = mStagingPlayState (this w).
Proof.
  rewrite transitionToRunning_eq. cbv zeta.
  destruct (frameTimeMs (info w) <=? 0); [discriminate|].
  destruct (mInterpolator (this w)); [|destruct (mStagingPlayState (this w)) eqn:E];
    intros Q; inversion Q; subst; cbn; auto.
Qed.

Lemma pushStaging_commits_max (w w' : World T) (u : unit) :
  pushStaging self createDefaultInterpolator w = Ok (u, w') ->
  mPlayState (this w') = PlayState_max (mPlayState (this w)) (mStagingPlayState (this w)).
Proof.
  rewrite pushStaging_eq. cbv zeta.
  assert (K : forall w1 : World T,
             mPlayState (this w1) = mPlayState (this w) ->
             mStagingPlayState (this w1) = mStagingPlayState (this w) ->
             (if PlayState_gtb (mStagingPlayState (this w1)) (mPlayState (this w1))
              then match mStagingPlayState (this w1) with
                   | RUNNING => transitionToRunning createDefaultInterpolator
                                  (with_this (set_mPlayState (mStagingPlayState (this w1)) (this w1)) w1)
                   | _ => Ok (tt, with_this (set_mPlayState (mStagingPlayState (this w1)) (this w1)) w1)
                   end
              else Ok (tt, w1)) = Ok (u, w') ->
             mPlayState (this w') = PlayState_max (mPlayState (this w)) (mStagingPlayState (this w))).
  { intros w1 Ep Es. rewrite Ep, Es.
    unfold PlayState_max, PlayState_gtb, PlayState_ltb.
    destruct (mStagingPlayState (this w)) eqn:S1, (mPlayState (this w)) eqn:P1;
      cbn -[transitionToRunning]; intros Q; try (inversion Q; subst; cbn; congruence);
      apply transitionToRunning_keeps_states in Q; cbn in Q; destruct Q; congruence. }
  destruct (mHasStartValue (this w)).
  - apply K; reflexivity.
  - destruct (getValue self (target w)); [|discriminate]. apply K; reflexivity.
Qed.

Lemma commit_all_never_below (steps : list (PlayState * T * TreeInfo)) :
  forall (w : World T) (ws : list (World T)),
    commit_all self createDefaultInterpolator steps w = Ok ws ->
    forall q, In q (map committed ws) ->
              PlayState_rank (committed w) <= PlayState_rank q.
Proof.
  induction steps as [|[[s t] i] rest IH]; intros w ws E q Hq.
  - inversion E; subst. contradiction.
  - cbn [commit_all] in E.
    destruct (pushStaging self createDefaultInterpolator (restage s t i w))
      as [[u w1]|f] eqn:E1; [|discriminate].
    destruct (commit_all self createDefaultInterpolator rest w1) as [ws'|f] eqn:E2;
      [|discriminate].
    inversion E; subst ws. apply pushStaging_commits_max in E1. cbn in E1.
    assert (L : PlayState_rank (committed w) <= PlayState_rank (committed w1)).
    { unfold committed. rewrite E1, PlayState_max_rank. lia. }
    destruct Hq as [Hq|Hq].
    + subst q. exact L.
    + specialize (IH w1 ws' E2 q Hq). lia.
Qed.

(** C3.  Along any run of commits, with the staging state (and the target
    and tree info) reset arbitrarily before each one, the play state after
    a commit is the maximum of the one before it and the staging state of
    that commit, and the committed play states never decrease. *)
Theorem pushStaging_commits_forward_only :
  forall (steps : list (PlayState * T * TreeInfo)) (w : World T) (ws : list (World T)),
    commit_all self createDefaultInterpolator steps w = Ok ws ->
    (forall (k : nat) (p q s : PlayState),
        nth_error (map committed (w :: ws)) k = Some p ->
        nth_error (map committed ws) k = Some q ->
        nth_error (map (staged T) steps) k = Some s ->
        q = PlayState_max p s)
    /\ (forall (i j : nat) (p q : PlayState),
           (i <= j)%nat ->
           nth_error (map committed (w :: ws)) i = Some p ->
           nth_error (map committed (w :: ws)) j = Some q ->
           PlayState_rank p <= PlayState_rank q).
Proof.
  induction steps as [|[[s t] i0] rest IH]; intros w ws E.
  - inversion E; subst. split.
    + intros k p q s _ Hq. destruct k; discriminate.
    + intros i j p q Hij Hp Hq. destruct i, j; cbn in *; try discriminate;
        try (destruct i; discriminate); try (destruct j; discriminate).
      inversion Hp; inversion Hq; subst; lia.
  - pose proof (commit_all_never_below _ _ _ E) as Below.
    cbn [commit_all] in E.
    destruct (pushStaging self createDefaultInterpolator (restage s t i0 w))
      as [[u w1]|f] eqn:E1; [|discriminate].
    destruct (commit_all self createDefaultInterpolator rest w1) as [ws'|f] eqn:E2;
      [|discriminate].
    inversion E; subst ws. destruct (IH w1 ws' E2) as [IHmax IHmono]. split.
    + intros k p q s' Hp Hq Hs. destruct k as [|k].
      * cbn in Hp, Hq, Hs. inversion Hp; inversion Hq; inversion Hs; subst.
        apply pushStaging_commits_max in E1. exact E1.
      * cbn [map nth_error] in Hp, Hq, Hs. eapply IHmax; eassumption.
    + intros i j p q Hij Hp Hq. destruct i as [|i].
      * cbn in Hp. inversion Hp; subst p. destruct j as [|j].
        -- cbn in Hq. inversion Hq; subst. lia.
        -- cbn [map nth_error] in Hq. apply Below. eapply nth_error_In. exact Hq.
      * destruct j as [|j]; [lia|]. cbn [map nth_error] in Hp, Hq.
        eapply (IHmono i j); [lia| |]; assumption.
Qed.

Lemma pushStaging_without_interpolator (w : World T) :
  mInterpolator (this w) = None ->
  mStagingPlayState (this w) = RUNNING ->
  mPlayState (this w) = NOT_STARTED ->
  succeeded (pushStaging self createDefaultInterpolator w) = false.
Proof.
  intros Hi Hs Hp. rewrite pushStaging_eq. cbv zeta.
  assert (K : forall w1 : World T,
             mInterpolator (this w1) = None ->
             mStagingPlayState (this w1) = RUNNING ->
             mPlayState (this w1) = NOT_STARTED ->
             succeeded
               (if PlayState_gtb (mStagingPlayState (this w1)) (mPlayState (this w1))
                then match mStagingPlayState (this w1) with
                     | RUNNING => transitionToRunning createDefaultInterpolator
                                    (with_this (set_mPlayState (mStagingPlayState (this w1)) (this w1)) w1)
                     | _ => Ok (tt, with_this (set_mPlayState (mStagingPlayState (this w1)) (this w1)) w1)
                     end
                else Ok (tt, w1)) = false).
  { intros w1 Hi1 Hs1 Hp1. rewrite Hs1, Hp1. cbn -[transitionToRunning].
    rewrite transitionToRunning_eq. cbv zeta. cbn. rewrite Hi1, Hs1.
    destruct (frameTimeMs (info w1) <=? 0); reflexivity. }
  destruct (mHasStartValue (this w)).
  - apply K; assumption.
  - destruct (getValue self (target w)); [|reflexivity]. apply K; cbn; assumption.
Qed.

End BaseFacts.

Lemma wrap64_range (z : Z) : int64_range (wrap64 z).
Proof.
  unfold int64_range, wrap64.
  pose proof (Z.mod_pos_bound (z + 2 ^ 63) (2 ^ 64)). lia.
Qed.

(** What activation does when it returns: the frame time was positive, the
    start time is the sum of frame time and start delay (as a 64-bit
    integer) floored at 0, an interpolator is present, and duration, start
    delay, target and callbacks are as before, whatever was logged. *)
Lemma activation_effects {T : Type} (createDefaultInterpolator : Interpolator)
      (w w' : World T) (u : unit) :
  transitionToRunning createDefaultInterpolator w = Ok (u, w') ->
  0 < frameTimeMs (info w)
  /\ mStartTime (this w')
     = Z.max 0 (wrap64 (frameTimeMs (info w) + mStartDelay (this w)))
  /\ 0 <= mStartTime (this w') < 2 ^ 63
  /\ mInterpolator (this w') <> None
  /\ mDuration (this w') = mDuration (this w)
  /\ mStartDelay (this w') = mStartDelay (this w)
  /\ mPlayState (this w') = mPlayState (this w)
  /\ target w' = target w
  /\ callbacks w' = callbacks w
  /\ info w' = info w.
Proof.
  rewrite transitionToRunning_eq. cbv zeta.
  destruct (Z.leb_spec (frameTimeMs (info w)) 0) as [|Hft]; [discriminate|].
  pose proof (wrap64_range (frameTimeMs (info w) + mStartDelay (this w))) as Hr.
  unfold int64_range in Hr.
  set (s0 := wrap64 (frameTimeMs (info w) + mStartDelay (this w))) in *.
  assert (Hs : (if s0 <? 0 then 0 else s0) = Z.max 0 s0)
    by (destruct (Z.ltb_spec s0 0); lia).
  rewrite Hs.
  destruct (mInterpolator (this w)) eqn:Ei; [|destruct (mStagingPlayState (this w))];
    intros Q; inversion Q; subst; cbn;
    repeat split; try lia; try reflexivity; try congruence; try discriminate.
Qed.

Lemma activation_needs_frame_time {T : Type} (createDefaultInterpolator : Interpolator)
      (w : World T) :
  frameTimeMs (info w) <= 0 ->
  transitionToRunning createDefaultInterpolator w
  = Abort (LOG_ALWAYS_FATAL "isn't a real frame time!").
Proof.
  intros H. rewrite transitionToRunning_eq. cbv zeta.
  replace (frameTimeMs (info w) <=? 0) with true by (symmetry; apply Z.leb_le; lia).
  reflexivity.
Qed.

Section AnimateFacts.

Context {V T : Type} `{ValueAccessor V T}.
Variable self : V.
Variable createDefaultInterpolator : Interpolator.

Lemma animate_eq (w : World T) :
  animate self w =
  let a := this w in
  let i := info w in
  if PlayState_ltb (mPlayState a) RUNNING then Ok (false, w)
  else if mStartTime a >? frameTimeMs i then Ok (false, with_hasAnimations w)
  else match mInterpolator a with
       | None => Abort NullDereference
       | Some interpolator =>
           let a' := if fge (rawFraction a i) fone then set_mPlayState FINISHED a else a in
           match setValue self (animatedValue a (interpolator (clampedFraction a i))) (target w) with
           | Abort f => Abort f
           | Ok t' =>
               if PlayState_eqb (mPlayState a') FINISHED
               then Ok (true, mkWorld a' t' i (notification a' i ++ callbacks w) (logcat w))
               else Ok (false, with_hasAnimations (mkWorld a' t' i (callbacks w) (logcat w)))
           end
       end.
Proof.
  unfold animate, callOnFinishedListener, with_hasAnimations, animatedValue, notification. run.
  destruct (PlayState_ltb (mPlayState (this w)) RUNNING); [destruct w; reflexivity|].
  destruct (mStartTime (this w) >? frameTimeMs (info w)).
  { rewrite orb_true_r. reflexivity. }
  destruct (fge (rawFraction (this w) (info w)) fone); fields;
    destruct (mInterpolator (this w)); try reflexivity; fields;
    destruct (setValue self _ (target w)); try reflexivity; fields.
  - destruct (mListener (this w)); [destruct (animationHook (info w))|]; reflexivity.
  - destruct (mPlayState (this w)); fields; rewrite ?orb_true_r; try reflexivity.
    destruct (mListener (this w)); [destruct (animationHook (info w))|]; reflexivity.
Qed.

Lemma set_mPlayState_same (a : BaseRenderNodeAnimator) :
  set_mPlayState (mPlayState a) a = a.
Proof. destruct a; reflexivity. Qed.

Lemma animate_when_finished :
  forall (w : World T),
    mPlayState (this w) = FINISHED ->
    animate self w =
    if mStartTime (this w) >? frameTimeMs (info w) then Ok (false, with_hasAnimations w)
    else match mInterpolator (this w) with
         | None => Abort NullDereference
         | Some interpolator =>
             match setValue self (animatedValue (this w) (interpolator fone)) (target w) with
             | Abort f => Abort f
             | Ok t' =>
                 Ok (true, mkWorld (this w) t' (info w)
                                   (notification (this w) (info w) ++ callbacks w) (logcat w))
             end
         end.
Proof.
  intros w Hf. rewrite animate_eq. cbv zeta.
  unfold clampedFraction, rawFraction. rewrite Hf. fields.
  change (fge fone fone) with true. cbv iota.
  rewrite <- Hf, set_mPlayState_same, Hf. fields.
  reflexivity.
Qed.



End AnimateFacts.

Section Evaluation.

Context {V T : Type} `{ValueAccessor V T}.
Variable self : V.

Lemma rawFraction_running (a : BaseRenderNodeAnimator) (i : TreeInfo) :
  mPlayState a = RUNNING -> 0 < mDuration a ->
  0 <= mStartTime a <= frameTimeMs i -> frameTimeMs i < 2 ^ 63 ->
  rawFraction a i = fdiv (of_int (frameTimeMs i - mStartTime a)) (of_int (mDuration a)).
Proof.
  intros Hp Hd Hs Ht. unfold rawFraction. rewrite Hp.
  replace (mDuration a >? 0) with true by (symmetry; apply Z.gtb_lt; lia).
  cbn [PlayState_eqb PlayState_rank Z.eqb Pos.eqb andb].
  rewrite wrap64_id by (unfold int64_range; lia). reflexivity.
Qed.

Lemma rawFraction_nonneg (a : BaseRenderNodeAnimator) (i : TreeInfo) :
  mPlayState a = RUNNING -> 0 < mDuration a < 2 ^ 63 ->
  0 <= mStartTime a <= frameTimeMs i -> frameTimeMs i < 2 ^ 63 ->
  nonneg_finite (rawFraction a i).
Proof.
  intros Hp Hd Hs Ht. rewrite rawFraction_running by (assumption || lia).
  apply quotient_nonneg; lia.
Qed.

Lemma clampedFraction_mono (a : BaseRenderNodeAnimator) (i i' : TreeInfo) :
  mPlayState a = RUNNING -> 0 < mDuration a < 2 ^ 63 ->
  0 <= mStartTime a <= frameTimeMs i -> frameTimeMs i <= frameTimeMs i' ->
  frameTimeMs i' < 2 ^ 63 ->
  fle (clampedFraction a i) (clampedFraction a i') = true.
Proof.
  intros Hp Hd Hs Hle Ht.
  pose proof (rawFraction_nonneg a i Hp Hd) as N. pose proof (rawFraction_nonneg a i' Hp Hd) as N'.
  assert (M : fle (rawFraction a i) (rawFraction a i') = true).
  { rewrite !rawFraction_running by (assumption || lia). apply quotient_mono; lia. }
  unfold clampedFraction, fge. change (SFleb ?x ?y) with (fle x y).
  destruct (fle fone (rawFraction a i)) eqn:E.
  - assert (E' : fle fone (rawFraction a i') = true).
    { apply (fle_trans fone (rawFraction a i)); try assumption; try exact I; apply N || apply N'; lia. }
    rewrite E'. reflexivity.
  - destruct (fle fone (rawFraction a i')) eqn:E'.
    + apply fle_total; [exact I|apply N; lia|exact E].
    + exact M.
Qed.

Lemma clampedFraction_range (a : BaseRenderNodeAnimator) (i : TreeInfo) :
  mPlayState a = RUNNING -> 0 < mDuration a < 2 ^ 63 ->
  0 <= mStartTime a <= frameTimeMs i -> frameTimeMs i < 2 ^ 63 ->
  fle fzero (clampedFraction a i) = true /\ fle (clampedFraction a i) fone = true.
Proof.
  intros Hp Hd Hs Ht. pose proof (rawFraction_nonneg a i Hp Hd Hs Ht) as N.
  unfold clampedFraction, fge. change (SFleb ?x ?y) with (fle x y).
  destruct (fle fone (rawFraction a i)) eqn:E.
  - split; reflexivity.
  - split; [apply fle_zero_l; exact N|apply fle_total; [exact I|exact N|exact E]].
Qed.

Lemma rawFraction_complete (a : BaseRenderNodeAnimator) (i : TreeInfo) :
  mPlayState a = RUNNING -> 0 < mDuration a ->
  0 <= mStartTime a -> mStartTime a + mDuration a <= frameTimeMs i ->
  frameTimeMs i < 2 ^ 63 ->
  fge (rawFraction a i) fone = true.
Proof.
  intros Hp Hd Hs Hle Ht. rewrite rawFraction_running by (assumption || lia).
  apply quotient_complete; lia.
Qed.

Lemma rawFraction_instant (a : BaseRenderNodeAnimator) (i : TreeInfo) :
  mDuration a <= 0 -> rawFraction a i = fone.
Proof.
  intros Hd. unfold rawFraction.
  replace (mDuration a >? 0) with false
    by (symmetry; rewrite Z.gtb_ltb; apply Z.ltb_ge; lia).
  rewrite andb_false_r. reflexivity.
Qed.

(** The call of [animate] that finishes the animator. *)
Lemma animate_finishing (w : World T) (interpolator : Interpolator) :
  PlayState_ltb (mPlayState (this w)) RUNNING = false ->
  mStartTime (this w) <= frameTimeMs (info w) ->
  mInterpolator (this w) = Some interpolator ->
  fge (rawFraction (this w) (info w)) fone = true ->
  animate self w =
  match setValue self (animatedValue (this w) (interpolator fone)) (target w) with
  | Abort f => Abort f
  | Ok t' =>
      Ok (true, mkWorld (set_mPlayState FINISHED (this w)) t' (info w)
                        (notification (this w) (info w) ++ callbacks w) (logcat w))
  end.
Proof.
  intros Hp Hs Hi Hf. rewrite animate_eq. cbv zeta. rewrite Hp.
  replace (mStartTime (this w) >? frameTimeMs (info w)) with false
    by (symmetry; rewrite Z.gtb_ltb; apply Z.ltb_ge; lia).
  rewrite Hi. unfold clampedFraction. rewrite Hf.
  destruct (setValue self _ (target w)); reflexivity.
Qed.

Lemma animatedValue_end (a : BaseRenderNodeAnimator) :
  valid (mDeltaValue a) = true ->
  animatedValue a fone = fadd (mFromValue a) (mDeltaValue a).
Proof. intros Hv. unfold animatedValue. rewrite fmul_one by exact Hv. reflexivity. Qed.

(** The end value in terms of the final value: the delta is the rounded
    difference, and the sum is rounded again. *)
Lemma animatedValue_end_final (a : BaseRenderNodeAnimator) :
  mDeltaValue a = fsub (mFinalValue a) (mFromValue a) ->
  valid (mDeltaValue a) = true ->
  animatedValue a fone = fadd (mFromValue a) (fsub (mFinalValue a) (mFromValue a)).
Proof. intros Hd Hv. rewrite animatedValue_end by exact Hv. rewrite Hd. reflexivity. Qed.

(** Between integers below [2 ^ 24] neither operation rounds. *)
Lemma animatedValue_end_integers (a : BaseRenderNodeAnimator) (from final : Z) :
  mFromValue a = of_int from -> mFinalValue a = of_int final ->
  mDeltaValue a = fsub (mFinalValue a) (mFromValue a) ->
  Z.abs from < 2 ^ 24 -> Z.abs final < 2 ^ 24 -> Z.abs (final - from) < 2 ^ 24 ->
  animatedValue a fone = mFinalValue a.
Proof.
  intros Hfrom Hfinal Hdelta Ha Hb Hab.
  assert (Hdel : mDeltaValue a = of_int (final - from)).
  { rewrite Hdelta, Hfrom, Hfinal. apply fsub_of_int; assumption. }
  rewrite animatedValue_end by (rewrite Hdel; apply valid_of_int; exact Hab).
  rewrite Hdel, Hfrom, Hfinal, fadd_of_int
    by (first [assumption | rewrite Z.add_comm, Z.sub_add; assumption]).
  f_equal. lia.
Qed.

(** C1 (amended).  For a running animator with a positive duration and a
    frame time at or after the start time, [animate] computes the quotient
    of the elapsed time and the duration in float arithmetic, capped at 1;
    the capped fraction lies between 0 and 1 and does not decrease with the
    frame time; from [mStartTime + mDuration] on it is 1, the animator
    becomes FINISHED (and stays so), the call returns true, and the value
    handed to [setValue] is [mFromValue + mDeltaValue * interpolate(1)].
    With an interpolator fixing 1 and the delta the commit computes, that
    value is the float result of [mFromValue + (mFinalValue - mFromValue)],
    both operations rounded; it is [mFinalValue] whenever start and final
    value are integers below [2 ^ 24] in magnitude with a difference below
    [2 ^ 24], and not in general. *)
Theorem animate_fraction_monotone_and_finishing :
  forall (w : World T) (interpolator : Interpolator),
    let a := this w in
    let t := frameTimeMs (info w) in
    mPlayState a = RUNNING ->
    0 < mDuration a < 2 ^ 63 ->
    0 <= mStartTime a <= t ->
    t < 2 ^ 63 ->
    mInterpolator a = Some interpolator ->
    rawFraction a (info w) = fdiv (of_int (t - mStartTime a)) (of_int (mDuration a))
    /\ clampedFraction a (info w)
       = (if fge (rawFraction a (info w)) fone then fone else rawFraction a (info w))
    /\ fle fzero (clampedFraction a (info w)) = true
    /\ fle (clampedFraction a (info w)) fone = true
    /\ (forall i' : TreeInfo,
           t <= frameTimeMs i' < 2 ^ 63 ->
           fle (clampedFraction a (info w)) (clampedFraction a i') = true)
    /\ animate self w
       = match setValue self (animatedValue a (interpolator (clampedFraction a (info w))))
                        (target w) with
         | Abort f => Abort f
         | Ok t' =>
             if fge (rawFraction a (info w)) fone
             then Ok (true, mkWorld (set_mPlayState FINISHED a) t' (info w)
                                    (notification a (info w) ++ callbacks w) (logcat w))
             else Ok (false, with_hasAnimations (mkWorld a t' (info w) (callbacks w) (logcat w)))
         end
    /\ (mStartTime a + mDuration a <= t ->
        fge (rawFraction a (info w)) fone = true
        /\ clampedFraction a (info w) = fone
        /\ (interpolator fone = fone -> valid (mDeltaValue a) = true ->
            animatedValue a (interpolator fone) = fadd (mFromValue a) (mDeltaValue a))
        /\ (interpolator fone = fone -> valid (mDeltaValue a) = true ->
            mDeltaValue a = fsub (mFinalValue a) (mFromValue a) ->
            animatedValue a (interpolator fone)
            = fadd (mFromValue a) (fsub (mFinalValue a) (mFromValue a)))
        /\ (interpolator fone = fone ->
            forall from final : Z,
              mFromValue a = of_int from -> mFinalValue a = of_int final ->
              mDeltaValue a = fsub (mFinalValue a) (mFromValue a) ->
              Z.abs from < 2 ^ 24 -> Z.abs final < 2 ^ 24 ->
              Z.abs (final - from) < 2 ^ 24 ->
              animatedValue a (interpolator fone) = mFinalValue a))
    /\ (forall (w2 w3 : World T) (b : bool),
           mPlayState (this w2) = FINISHED ->
           animate self w2 = Ok (b, w3) -> mPlayState (this w3) = FINISHED).
Proof.
  intros w interpolator a t Hp Hd Hs Ht Hi.
  split; [apply rawFraction_running; assumption || lia|].
  split; [reflexivity|].
  destruct (clampedFraction_range a (info w) Hp Hd Hs Ht) as [R0 R1].
  split; [exact R0|]. split; [exact R1|].
  split; [intros i' Hi'; apply clampedFraction_mono; assumption || lia|].
  split.
  { rewrite animate_eq. cbv zeta. fold a. rewrite Hp.
    cbn [PlayState_ltb PlayState_rank Z.ltb Z.compare Pos.compare Pos.compare_cont].
    replace (mStartTime a >? frameTimeMs (info w)) with false
      by (symmetry; rewrite Z.gtb_ltb; apply Z.ltb_ge; fold t; lia).
    rewrite Hi.
    destruct (setValue self _ (target w)); [|reflexivity].
    destruct (fge (rawFraction a (info w)) fone); [reflexivity|].
    rewrite Hp. reflexivity. }
  split.
  { intros Hend.
    assert (F : fge (rawFraction a (info w)) fone = true)
      by (apply rawFraction_complete; assumption || lia).
    split; [exact F|]. split; [|split; [|split]].
    - unfold clampedFraction. rewrite F. reflexivity.
    - intros I1 Hv. rewrite I1. apply animatedValue_end. exact Hv.
    - intros I1 Hv Hdel. rewrite I1. apply animatedValue_end_final; assumption.
    - intros I1 from final Hfrom Hfinal Hdel Ha Hb Hab. rewrite I1.
      apply (animatedValue_end_integers a from final); assumption. }
  intros w2 w3 b Hf E.
  rewrite (animate_when_finished self w2 Hf) in E.
  destruct (mStartTime (this w2) >? frameTimeMs (info w2)).
  - inversion E; subst; exact Hf.
  - destruct (mInterpolator (this w2)); [|discriminate].
    destruct (setValue self _ (target w2)); [|discriminate].
    inversion E; subst; exact Hf.
Qed.

(** C4 (amended).  A running animator whose duration is zero or negative
    finishes at its first evaluation at or after the start time: the
    fraction is 1, the call returns true, the animator becomes FINISHED,
    and the value handed to [setValue] is
    [mFromValue + mDeltaValue * interpolate(1)].  With an interpolator
    fixing 1 and the delta the commit computes, that value is the float
    result of [mFromValue + (mFinalValue - mFromValue)], both operations
    rounded; it is [mFinalValue] whenever start and final value are
    integers below [2 ^ 24] in magnitude with a difference below
    [2 ^ 24], and not in general. *)
Theorem animate_without_duration_finishes_at_once :
  forall (w : World T) (interpolator : Interpolator),
    let a := this w in
    mPlayState a = RUNNING ->
    mDuration a <= 0 ->
    mStartTime a <= frameTimeMs (info w) ->
    mInterpolator a = Some interpolator ->
    rawFraction a (info w) = fone
    /\ clampedFraction a (info w) = fone
    /\ animate self w
       = match setValue self (animatedValue a (interpolator fone)) (target w) with
         | Abort f => Abort f
         | Ok t' =>
             Ok (true, mkWorld (set_mPlayState FINISHED a) t' (info w)
                               (notification a (info w) ++ callbacks w) (logcat w))
         end
    /\ (interpolator fone = fone -> valid (mDeltaValue a) = true ->
        animatedValue a (interpolator fone) = fadd (mFromValue a) (mDeltaValue a))
    /\ (interpolator fone = fone -> valid (mDeltaValue a) = true ->
        mDeltaValue a = fsub (mFinalValue a) (mFromValue a) ->
        animatedValue a (interpolator fone)
        = fadd (mFromValue a) (fsub (mFinalValue a) (mFromValue a)))
    /\ (interpolator fone = fone ->
        forall from final : Z,
          mFromValue a = of_int from -> mFinalValue a = of_int final ->
          mDeltaValue a = fsub (mFinalValue a) (mFromValue a) ->
          Z.abs from < 2 ^ 24 -> Z.abs final < 2 ^ 24 ->
          Z.abs (final - from) < 2 ^ 24 ->
          animatedValue a (interpolator fone) = mFinalValue a).
Proof.
  intros w interpolator a Hp Hd Hs Hi.
  pose proof (rawFraction_instant a (info w) Hd) as R.
  split; [exact R|]. split; [unfold clampedFraction; rewrite R; reflexivity|].
  split; [|split; [|split]].
  - apply animate_finishing; try assumption.
    + fold a. rewrite Hp. reflexivity.
    + fold a. rewrite R. reflexivity.
  - intros I1 Hv. rewrite I1. apply animatedValue_end. exact Hv.
  - intros I1 Hv Hdel. rewrite I1. apply animatedValue_end_final; assumption.
  - intros I1 from final Hfrom Hfinal Hdel Ha Hb Hab. rewrite I1.
    apply (animatedValue_end_integers a from final); assumption.
Qed.

End Evaluation.

(** ** The three subclasses at work *)

Import CanvasPropertyPrimitiveAnimator.


(** C5.  A started animator that was never given an interpolator cannot be
    committed: installing the default one goes through [setInterpolator],
    whose [checkMutable] sees the staging state RUNNING and aborts.  So it
    is for the animator built with final value 1.0 and committed at frame
    time 100, and for every animator, target and tree info. *)
Theorem activation_without_interpolator_aborts :
  (forall (createDefaultInterpolator : Interpolator),
      run_on (setStagingPlayState RUNNING ;;
              pushStaging tt createDefaultInterpolator)%anim
             (newWorld (BaseRenderNodeAnimator_new (of_int 1)) (mkPrimitive (of_int 0)) 100)
      = alreadyStarted)
  /\ (forall (V T : Type) (accessor : ValueAccessor V T) (self : V)
             (createDefaultInterpolator : Interpolator) (w : World T),
         mInterpolator (this w) = None ->
         mStagingPlayState (this w) = RUNNING ->
         mPlayState (this w) = NOT_STARTED ->
         succeeded (pushStaging self createDefaultInterpolator w) = false).
Proof.
  split.
  - intros cdi. reflexivity.
  - intros V T accessor self cdi w. apply pushStaging_without_interpolator.
Qed.

(** The attachment in closed form. *)
Lemma onAttached_eq {RP : Type} {ops : RenderPropertiesOps RP}
      (self : RenderPropertyAnimator.PropertyAccessors) (w : World (RenderNode.t RP)) :
  RenderPropertyAnimator.onAttached self w =
  let a := this w in
  let node := target w in
  let written :=
    RenderNode.mk (RenderNode.properties node)
                  (RenderPropertyAnimator.setter self (mFinalValue a)
                     (RenderNode.stagingProperties node))
                  (RenderNode.mDirtyPropertyFields node) in
  let v := RenderPropertyAnimator.getter self (RenderNode.stagingProperties node) in
  if negb (mHasStartValue a)
     && RenderNode.isPropertyFieldDirty (RenderPropertyAnimator.dirtyMask self) node
  then match mStagingPlayState a with
       | NOT_STARTED =>
           Ok (tt, mkWorld (set_startValue v (fsub (mFinalValue a) v) a)
                           written (info w) (callbacks w) (logcat w))
       | _ => alreadyStarted
       end
  else Ok (tt, mkWorld a written (info w) (callbacks w) (logcat w)).
Proof.
  cbv zeta.
  unfold RenderPropertyAnimator.onAttached, setStartValue, doSetStartValue. run.
  destruct (negb (mHasStartValue (this w))
            && RenderNode.isPropertyFieldDirty (RenderPropertyAnimator.dirtyMask self) (target w)).
  - unfold bind. rewrite checkMutable_spec.
    destruct (mStagingPlayState (this w)); reflexivity.
  - reflexivity.
Qed.

(** C8.  [onAttached] decides on the dirty mask of the animator's table
    row.  Attached before it is started, an animator always gets its final
    value written to the staging copy of its property (nothing else of the
    target changes), and its start value is captured from the staging copy
    exactly when none was resolved and the row's mask is dirty on the
    target.  The row's mask is the property's own dirty bit for every
    property but TRANSLATION_Z, whose row carries TRANSLATION_X: a
    TRANSLATION_Z animator attached to a node whose only dirty bit is
    TRANSLATION_Z captures nothing, and attached to a node whose only dirty
    bit is TRANSLATION_X it captures the staging translation Z. *)
Theorem onAttached_captures_on_the_table_mask :
  (forall (RP : Type) (ops : RenderPropertiesOps RP)
          (self : RenderPropertyAnimator.PropertyAccessors) (w : World (RenderNode.t RP)),
      mStagingPlayState (this w) = NOT_STARTED ->
      let dirty :=
        RenderNode.isPropertyFieldDirty (RenderPropertyAnimator.dirtyMask self) (target w) in
      let v := RenderPropertyAnimator.getter self (RenderNode.stagingProperties (target w)) in
      exists w',
        RenderPropertyAnimator.onAttached self w = Ok (tt, w')
        /\ RenderNode.stagingProperties (target w')
           = RenderPropertyAnimator.setter self (mFinalValue (this w))
               (RenderNode.stagingProperties (target w))
        /\ RenderNode.properties (target w') = RenderNode.properties (target w)
        /\ RenderNode.mDirtyPropertyFields (target w')
           = RenderNode.mDirtyPropertyFields (target w)
        /\ info w' = info w /\ callbacks w' = callbacks w /\ logcat w' = logcat w
        /\ this w'
           = (if negb (mHasStartValue (this w)) && dirty
              then set_startValue v (fsub (mFinalValue (this w)) v) (this w)
              else this w))
  /\ (forall p : RenderPropertyAnimator.RenderProperty,
         RenderPropertyAnimator.dirtyMask (RenderPropertyAnimator.mPropertyAccess p)
         = ownDirtyMask p
         <-> p <> RenderPropertyAnimator.TRANSLATION_Z)
  /\ RenderPropertyAnimator.dirtyMask
       (RenderPropertyAnimator.mPropertyAccess RenderPropertyAnimator.TRANSLATION_Z)
     = RenderNode.TRANSLATION_X
  /\ (let animator :=
        RenderPropertyAnimator.new RenderPropertyAnimator.TRANSLATION_Z (of_int 9) in
      let node := nodeWithDirtyBit RenderNode.TRANSLATION_Z in
      RenderNode.isPropertyFieldDirty (ownDirtyMask RenderPropertyAnimator.TRANSLATION_Z) node
      = true
      /\ rp_get TranslationZ (RenderNode.stagingProperties node) = of_int 5
      /\ exists w',
          RenderPropertyAnimator.onAttached (snd animator) (newWorld (fst animator) node 100)
          = Ok (tt, w')
          /\ mHasStartValue (this w') = false
          /\ mFromValue (this w') = fzero
          /\ rp_get TranslationZ (RenderNode.stagingProperties (target w')) = of_int 9)
  /\ (let animator :=
        RenderPropertyAnimator.new RenderPropertyAnimator.TRANSLATION_Z (of_int 9) in
      let node := nodeWithDirtyBit RenderNode.TRANSLATION_X in
      RenderNode.isPropertyFieldDirty (ownDirtyMask RenderPropertyAnimator.TRANSLATION_Z) node
      = false
      /\ exists w',
          RenderPropertyAnimator.onAttached (snd animator) (newWorld (fst animator) node 100)
          = Ok (tt, w')
          /\ mHasStartValue (this w') = true
          /\ mFromValue (this w') = of_int 5
          /\ mDeltaValue (this w') = fsub (of_int 9) (of_int 5)).
Proof.
  split; [|split; [|split; [|split]]].
  - intros RP ops self w Hs dirty v. rewrite onAttached_eq. cbv zeta. rewrite Hs.
    fold dirty v.
    destruct (negb (mHasStartValue (this w)) && dirty);
      eexists; (split; [reflexivity|]); repeat split.
  - intros p. destruct p; cbn; split; intros Q;
      first [reflexivity | discriminate Q | intros Q'; discriminate Q'
            | exfalso; apply Q; reflexivity].
  - reflexivity.
  - cbv zeta. split; [reflexivity|]. split; [reflexivity|].
    eexists. split; [reflexivity|]. repeat split.
  - cbv zeta. split; [reflexivity|].
    eexists. split; [reflexivity|]. repeat split.
Qed.

(** C9.  Two table entries share a dirty mask exactly when they are the
    entries of TRANSLATION_X and TRANSLATION_Z, which both carry
    [RenderNode::RenderPropertyAnimator.TRANSLATION_X]; the table has one entry per property, each
    with the accessors of its own property. *)
Theorem accessor_table_shares_one_dirty_mask :
  (forall p q : RenderPropertyAnimator.RenderProperty,
      RenderPropertyAnimator.dirtyMask (RenderPropertyAnimator.mPropertyAccess p) = RenderPropertyAnimator.dirtyMask (RenderPropertyAnimator.mPropertyAccess q)
      <-> p = q
          \/ (p = RenderPropertyAnimator.TRANSLATION_X /\ q = RenderPropertyAnimator.TRANSLATION_Z)
          \/ (p = RenderPropertyAnimator.TRANSLATION_Z /\ q = RenderPropertyAnimator.TRANSLATION_X))
  /\ RenderPropertyAnimator.dirtyMask (RenderPropertyAnimator.mPropertyAccess RenderPropertyAnimator.TRANSLATION_X) = RenderNode.TRANSLATION_X
  /\ RenderPropertyAnimator.dirtyMask (RenderPropertyAnimator.mPropertyAccess RenderPropertyAnimator.TRANSLATION_Z) = RenderNode.TRANSLATION_X
  /\ RenderPropertyAnimator.accessor (RenderPropertyAnimator.mPropertyAccess RenderPropertyAnimator.TRANSLATION_X) = TranslationX
  /\ RenderPropertyAnimator.accessor (RenderPropertyAnimator.mPropertyAccess RenderPropertyAnimator.TRANSLATION_Z) = TranslationZ
  /\ List.length RenderPropertyAnimator.PROPERTY_ACCESSOR_LUT = List.length RenderPropertyAnimator.all_properties
  /\ map RenderPropertyAnimator.mPropertyAccess RenderPropertyAnimator.all_properties = RenderPropertyAnimator.PROPERTY_ACCESSOR_LUT.
Proof.
  split; [|repeat split].
  intros p q; split.
  - destruct p, q; cbn; intros E; try discriminate E; tauto.
  - intros [E|[[E1 E2]|[E1 E2]]]; subst; reflexivity.
Qed.

(** *** Runs of the base algorithm on a primitive cell *)

Lemma animate_fraction_monotone_and_finishing_witness :
  let w := newWorld (runningAnimator (of_int 20) (of_int 100) 100 1000) sampleCell 1100 in
  mPlayState (this w) = RUNNING
  /\ 0 < mDuration (this w) < 2 ^ 63
  /\ 0 <= mStartTime (this w) <= frameTimeMs (info w)
  /\ frameTimeMs (info w) < 2 ^ 63
  /\ mInterpolator (this w) = Some linearInterpolator
  /\ animate tt w
     = Ok (true, mkWorld (set_mPlayState FINISHED (this w)) (mkPrimitive (of_int 100))
                         (info w) [onAnimationFinished 7%nat] []).
Proof.
  cbv zeta.
  assert (H1 : mPlayState (runningAnimator (of_int 20) (of_int 100) 100 1000) = RUNNING)
    by reflexivity.
  assert (H2 : 0 < 1000 < 2 ^ 63) by (split; reflexivity).
  assert (H3 : 0 <= 100 <= 1100) by (split; discriminate).
  assert (H4 : 1100 < 2 ^ 63) by reflexivity.
  repeat (split; [first [exact H1 | exact H2 | exact H3 | exact H4 | reflexivity]|]).
  destruct (animate_fraction_monotone_and_finishing tt
              (newWorld (runningAnimator (of_int 20) (of_int 100) 100 1000) sampleCell 1100)
              linearInterpolator H1 H2 H3 H4 eq_refl)
    as (_ & _ & _ & _ & _ & E & _).
  rewrite E. reflexivity.
Defined.

(** Animating a cell from 1.0 to 0.1 over the default 300 ms: the value
    written at the end of the duration is not the final value. *)
Lemma animate_end_value_is_rounded :
  let script : M CanvasPropertyPrimitive bool :=
    (setInterpolator (Some linearInterpolator) ;;
     setStagingPlayState RUNNING ;;
     newFrame 100 None ;;
     pushStaging tt linearInterpolator ;;
     newFrame 400 None ;;
     animate tt)%anim in
  exists w',
    script (newWorld (BaseRenderNodeAnimator_new (decimal 1 1)) (mkPrimitive (of_int 1)) 1)
    = Ok (true, w')
    /\ mStartTime (this w') + mDuration (this w') <= frameTimeMs (info w')
    /\ mFinalValue (this w') = S754_finite false 13421773 (-27)
    /\ value (target w') = S754_finite false 13421776 (-27)
    /\ value (target w') <> mFinalValue (this w').
Proof.
  eexists. split; [vm_compute; reflexivity|]. cbn.
  split; [discriminate|]. split; [reflexivity|]. split; [reflexivity|]. discriminate.
Qed.

Lemma animate_without_duration_finishes_at_once_witness :
  let w : World PlainPaint :=
    newWorld (runningAnimator (of_int 1) (of_int 5) 100 0) (mkPaint (of_int 1) 255) 100 in
  mPlayState (this w) = RUNNING
  /\ mDuration (this w) <= 0
  /\ mStartTime (this w) <= frameTimeMs (info w)
  /\ mInterpolator (this w) = Some linearInterpolator
  /\ animate CanvasPropertyPaintAnimator.STROKE_WIDTH w
     = Ok (true, mkWorld (set_mPlayState FINISHED (this w)) (mkPaint (of_int 5) 255)
                         (info w) [onAnimationFinished 7%nat] []).
Proof.
  cbv zeta.
  assert (H1 : mPlayState (runningAnimator (of_int 1) (of_int 5) 100 0) = RUNNING) by reflexivity.
  assert (H2 : 0 <= 0) by discriminate.
  assert (H3 : 100 <= 100) by discriminate.
  repeat (split; [first [exact H1 | exact H2 | exact H3 | reflexivity]|]).
  destruct (animate_without_duration_finishes_at_once CanvasPropertyPaintAnimator.STROKE_WIDTH
              (newWorld (runningAnimator (of_int 1) (of_int 5) 100 0)
                        (mkPaint (of_int 1) 255) 100)
              linearInterpolator H1 H2 H3 eq_refl)
    as (_ & _ & E & _).
  rewrite E. reflexivity.
Defined.

(** The stroke-width scenario from the constructor on: final 5.0, current
    1.0, duration 0. *)
Lemma stroke_width_scenario :
  let script : M PlainPaint bool :=
    (setInterpolator (Some linearInterpolator) ;;
     setDuration 0 ;;
     setStagingPlayState RUNNING ;;
     newFrame 100 None ;;
     pushStaging CanvasPropertyPaintAnimator.STROKE_WIDTH linearInterpolator ;;
     animate CanvasPropertyPaintAnimator.STROKE_WIDTH)%anim in
  exists w',
    script (newWorld (BaseRenderNodeAnimator_new (of_int 5)) (mkPaint (of_int 1) 255) 1)
    = Ok (true, w')
    /\ target w' = mkPaint (of_int 5) 255
    /\ mPlayState (this w') = FINISHED.
Proof. eexists. split; [vm_compute; reflexivity|]. split; reflexivity. Qed.

(** With duration 0 as well, a cell animated from 1.0 to 0.1 ends on a
    neighbouring float. *)
Lemma instant_end_value_is_rounded :
  let script : M CanvasPropertyPrimitive bool :=
    (setInterpolator (Some linearInterpolator) ;;
     setDuration 0 ;;
     setStagingPlayState RUNNING ;;
     newFrame 100 None ;;
     pushStaging tt linearInterpolator ;;
     animate tt)%anim in
  exists w',
    script (newWorld (BaseRenderNodeAnimator_new (decimal 1 1)) (mkPrimitive (of_int 1)) 1)
    = Ok (true, w')
    /\ mDuration (this w') = 0
    /\ mFinalValue (this w') = S754_finite false 13421773 (-27)
    /\ value (target w') = S754_finite false 13421776 (-27)
    /\ value (target w') <> mFinalValue (this w').
Proof.
  eexists. split; [vm_compute; reflexivity|]. cbn.
  split; [reflexivity|]. split; [reflexivity|]. split; [reflexivity|]. discriminate.
Qed.


Lemma pushStaging_commits_forward_only_witness :
  exists ws,
    commit_all tt linearInterpolator sampleSteps (newWorld sampleConfigured sampleCell 1) = Ok ws
    /\ map committed ws = [NOT_STARTED; RUNNING; RUNNING; FINISHED; FINISHED]
    /\ (forall (i j : nat) (p q : PlayState),
           (i <= j)%nat ->
           nth_error (map committed (newWorld sampleConfigured sampleCell 1 :: ws)) i = Some p ->
           nth_error (map committed (newWorld sampleConfigured sampleCell 1 :: ws)) j = Some q ->
           PlayState_rank p <= PlayState_rank q).
Proof.
  destruct (commit_all tt linearInterpolator sampleSteps (newWorld sampleConfigured sampleCell 1))
    as [ws|f] eqn:E; [|vm_compute in E; discriminate E].
  exists ws. split; [reflexivity|]. split.
  - vm_compute in E. inversion E. reflexivity.
  - exact (proj2 (pushStaging_commits_forward_only tt linearInterpolator sampleSteps
                    (newWorld sampleConfigured sampleCell 1) ws E)).
Defined.

Ltac fields_new :=
  cbn [BaseRenderNodeAnimator_new with_this
       this target info callbacks logcat
       mFinalValue mDeltaValue mFromValue mInterpolator mStagingPlayState mPlayState
       mHasStartValue mStartTime mDuration mStartDelay mListener
       set_mInterpolator set_startValue set_mStagingPlayState set_mPlayState
       set_mStartTime set_mDuration set_mStartDelay set_mListener
       frameTimeMs hasAnimations animationHook
       PlayState_eqb PlayState_ltb PlayState_gtb PlayState_rank
       Z.eqb Z.ltb Z.gtb Z.compare Pos.eqb Pos.compare Pos.compare_cont
       negb andb orb app] in *.

Lemma default_duration_not_reached (n : Z) :
  0 <= n < 300 -> fge (fdiv (of_int n) (of_int 300)) fone = false.
Proof.
  intros Hn.
  assert (A : forallb (fun k => negb (fge (fdiv (of_int k) (of_int 300)) fone))
                      before_default_duration = true) by (vm_compute; reflexivity).
  rewrite forallb_forall in A.
  specialize (A n). apply negb_true_iff. apply A.
  unfold before_default_duration. apply in_map_iff.
  exists (Z.to_nat n). split; [lia|]. apply in_seq. lia.
Qed.

Section Defaults.

Context {V T : Type} `{ValueAccessor V T}.
Variable self : V.

(** C10.  The constructor's defaults, and what they mean for a run.  The
    default configuration itself never animates: with no interpolator set,
    the commit that activates the animator aborts in [checkMutable].  An
    animator that keeps every default but is given an interpolator starts
    at the frame time of its activating commit; each later evaluation
    hands to [setValue] the start value plus the delta times the
    interpolated fraction, the fraction being the elapsed time over 300 ms
    until 300 ms have passed and 1 from then on, and returns true exactly
    from 300 ms after the start on. *)
Theorem fresh_animator_defaults :
  forall (finalValue : float),
    let a := BaseRenderNodeAnimator_new finalValue in
    (mFinalValue a = finalValue /\ mDuration a = 300 /\ mStartDelay a = 0
     /\ mStartTime a = 0 /\ mStagingPlayState a = NOT_STARTED
     /\ mPlayState a = NOT_STARTED /\ mHasStartValue a = false
     /\ mInterpolator a = None /\ mFromValue a = fzero /\ mDeltaValue a = fzero
     /\ mListener a = None)
    /\ (forall (w : World T) (createDefaultInterpolator : Interpolator) (v : float),
           this w = a ->
           0 < frameTimeMs (info w) ->
           getValue self (target w) = Ok v ->
           run_on (setStagingPlayState RUNNING ;;
                   pushStaging self createDefaultInterpolator) w = alreadyStarted)
    /\ forall (w : World T) (interpolator createDefaultInterpolator : Interpolator) (v : float),
        this w = a ->
        0 < frameTimeMs (info w) < 2 ^ 63 ->
        getValue self (target w) = Ok v ->
        exists w1,
          run_on (setInterpolator (Some interpolator) ;;
                  setStagingPlayState RUNNING ;;
                  pushStaging self createDefaultInterpolator) w = Ok (tt, w1)
          /\ mPlayState (this w1) = RUNNING
          /\ mDuration (this w1) = 300
          /\ mStartTime (this w1) = frameTimeMs (info w)
          /\ mFromValue (this w1) = v
          /\ mDeltaValue (this w1) = fsub finalValue v
          /\ mFinalValue (this w1) = finalValue
          /\ mInterpolator (this w1) = Some interpolator
          /\ (forall i : TreeInfo,
                 mStartTime (this w1) <= frameTimeMs i < 2 ^ 63 ->
                 (fge (rawFraction (this w1) i) fone = true
                  <-> mStartTime (this w1) + 300 <= frameTimeMs i))
          /\ (forall (t : T) (i : TreeInfo),
                 mStartTime (this w1) <= frameTimeMs i < 2 ^ 63 ->
                 let finished := mStartTime (this w1) + 300 <=? frameTimeMs i in
                 let fraction :=
                   if finished then fone
                   else fdiv (of_int (frameTimeMs i - mStartTime (this w1))) (of_int 300) in
                 animate self (retarget t i w1)
                 = match setValue self
                           (fadd v (fmul (fsub finalValue v) (interpolator fraction))) t with
                   | Abort f => Abort f
                   | Ok t' =>
                       if finished
                       then Ok (true, mkWorld (set_mPlayState FINISHED (this w1)) t' i
                                              (callbacks w1) (logcat w1))
                       else Ok (false, mkWorld (this w1) t'
                                               (mkTreeInfo (frameTimeMs i) true
                                                           (animationHook i))
                                               (callbacks w1) (logcat w1))
                   end).
Proof.
  intros finalValue a. split; [repeat split|]. split.
  { intros w cdi v Hthis Hft Hget.
    destruct w as [a0 tg inf cb lg]. cbn [this target info] in *. subst a0. subst a.
    unfold run_on, setStagingPlayState. run.
    rewrite pushStaging_eq. cbv zeta.
    fields_new. rewrite Hget. fields_new.
    rewrite transitionToRunning_eq. cbv zeta.
    fields_new.
    replace (frameTimeMs inf <=? 0) with false by (symmetry; apply Z.leb_gt; lia).
    reflexivity. }
  intros w interpolator cdi v Hthis Hft Hget.
  destruct w as [a0 tg inf cb lg]. cbn [this target info] in *. subst a0. subst a.
  unfold run_on, setInterpolator, setStagingPlayState, checkMutable. run.
  cbn [BaseRenderNodeAnimator_new mStagingPlayState PlayState_eqb PlayState_rank Z.eqb negb].
  rewrite pushStaging_eq. cbv zeta.
  fields_new. rewrite Hget. fields_new.
  rewrite transitionToRunning_eq. cbv zeta.
  fields_new.
  replace (frameTimeMs inf <=? 0) with false by (symmetry; apply Z.leb_gt; lia).
  rewrite Z.add_0_r, wrap64_id by (unfold int64_range; lia).
  replace (frameTimeMs inf <? 0) with false by (symmetry; apply Z.ltb_ge; lia).
  change (out_of_window 0) with false. change (out_of_window 300) with false. cbv iota.
  eexists. split; [reflexivity|]. fields.
  repeat (split; [reflexivity|]).
  assert (Hfrac : forall i : TreeInfo,
             frameTimeMs inf <= frameTimeMs i < 2 ^ 63 ->
             (fge (fdiv (of_int (frameTimeMs i - frameTimeMs inf)) (of_int 300)) fone = true
              <-> frameTimeMs inf + 300 <= frameTimeMs i)).
  { intros i Hi. split.
    - intros F. destruct (Z.le_gt_cases (frameTimeMs inf + 300) (frameTimeMs i)) as [L|G];
        [exact L|].
      rewrite default_duration_not_reached in F by lia. discriminate F.
    - intros L. apply quotient_complete; lia. }
  split.
  - intros i Hi. unfold rawFraction. fields_new.
    rewrite wrap64_id by (unfold int64_range; lia). apply Hfrac. exact Hi.
  - intros t i Hi. cbv zeta. rewrite animate_eq. cbv zeta.
    cbn [retarget this info target callbacks logcat]. fields_new.
    replace (frameTimeMs inf >? frameTimeMs i) with false
      by (symmetry; rewrite Z.gtb_ltb; apply Z.ltb_ge; lia).
    unfold clampedFraction, rawFraction, animatedValue, notification, with_hasAnimations.
    fields_new. rewrite wrap64_id by (unfold int64_range; lia).
    specialize (Hfrac i Hi).
    destruct (Z.leb_spec (frameTimeMs inf + 300) (frameTimeMs i)) as [L|G].
    + rewrite (proj2 Hfrac L).
      destruct (setValue self _ t); reflexivity.
    + destruct (fge (fdiv (of_int (frameTimeMs i - frameTimeMs inf)) (of_int 300)) fone)
        eqn:F; [pose proof (proj1 Hfrac eq_refl); lia|].
      destruct (setValue self _ t); reflexivity.
Qed.

End Defaults.

Import CanvasPropertyPaintAnimator.

(** [to_uint8] truncates the float sum [value + 0.5f] and clamps it to
    0..255, when that sum fits an [int]; its result is always within
    0..255; whenever the float sum is exact the result is the nearest
    integer, ties upward, clamped. *)
Lemma to_uint8_truncates_rounded_sum :
  (forall x : float,
      to_uint8 x = match to_int (fadd x fhalf) with
                   | Some c => Ok (clamp_uint8 c)
                   | None => Abort UndefinedConversion
                   end
      /\ (forall c : Z, to_uint8 x = Ok c -> 0 <= c <= 255)
      /\ (forall u : Z,
             ulps x = Some u ->
             ulps (fadd x fhalf) = Some (u + 2 ^ 148) ->
             INT_MIN <= Z.quot (u + 2 ^ 148) (2 ^ 149) <= INT_MAX ->
             to_uint8 x = Ok (clamp_uint8 (nearest_integer u))))
  /\ map to_uint8 [of_int (-10); of_int 0; decimal 1276 1; of_int 255; of_int 300]
     = [Ok 0; Ok 0; Ok 128; Ok 255; Ok 255].
Proof.
  split; [|vm_compute; reflexivity].
  intros x. split; [reflexivity|]. split.
  - unfold to_uint8. destruct (to_int (fadd x fhalf)); [|discriminate].
    intros c Q; inversion Q; subst. apply clamp_uint8_range.
  - intros u Hu Hs Hr. unfold to_uint8, to_int.
    rewrite (truncate_ulps _ _ Hs).
    destruct Hr as [R1 R2]. apply Z.leb_le in R1, R2. rewrite R1, R2. cbn [andb].
    fold (clamp_uint8 (Z.quot (u + 2 ^ 148) (2 ^ 149))).
    rewrite clamp_quot_div. reflexivity.
Qed.

Lemma exponent_in_int_range (s : bool) (m : positive) (e : Z) :
  valid (S754_finite s m e) = true ->
  Zpos m * 2 ^ (e + 149) < 2 ^ 180 -> e <= 7.
Proof.
  intros Hv Hu. destruct (valid_finite _ _ _ Hv) as [[He1 _] [_ Hm0]].
  destruct (Z.le_gt_cases e 7) as [|G]; [assumption|exfalso].
  assert (Hm : 2 ^ 23 <= Zpos m) by (apply Hm0; lia).
  assert (Hp : 2 ^ 157 <= 2 ^ (e + 149)) by (apply Z.pow_le_mono_r; lia).
  assert (2 ^ 23 * 2 ^ 157 <= Zpos m * 2 ^ (e + 149)).
  { apply Z.mul_le_mono_nonneg; try assumption; [discriminate|discriminate]. }
  change (2 ^ 23 * 2 ^ 157) with (2 ^ 180) in H. lia.
Qed.

(** C7 (amended).  On every finite binary32 value of magnitude below
    [2 ^ 31], except the largest float below one half, [to_uint8] gives the
    nearest integer, ties upward, clamped to 0..255. *)
Theorem to_uint8_rounds_to_nearest :
  forall (x : float) (u : Z),
    valid x = true ->
    ulps x = Some u ->
    Z.abs u < 2 ^ 180 ->
    x <> below_half ->
    to_uint8 x = Ok (clamp_uint8 (nearest_integer u))
    /\ 0 <= clamp_uint8 (nearest_integer u) <= 255.
Proof.
  intros x u Hv Hu Hr Hn. split; [|apply clamp_uint8_range].
  destruct x as [s|s| |s m e]; cbn [ulps] in Hu; try discriminate Hu.
  - inversion Hu; subst u. destruct s; reflexivity.
  - destruct (valid_finite _ _ _ Hv) as [[He1 _] _].
    replace (-149 <=? e) with true in Hu by (symmetry; apply Z.leb_le; lia).
    inversion Hu; subst u; clear Hu.
    assert (Hpw : 0 < 2 ^ (e + 149)) by (apply pow2_pos; lia).
    destruct s.
    + assert (He : e <= 7).
      { apply (exponent_in_int_range true m e Hv).
        replace (Z.abs (Zneg m * 2 ^ (e + 149))) with (Zpos m * 2 ^ (e + 149)) in Hr by lia.
        exact Hr. }
      rewrite nearest_integer_negative by lia.
      apply to_uint8_negative; assumption.
    + assert (He : e <= 7).
      { apply (exponent_in_int_range false m e Hv).
        replace (Z.abs (Zpos m * 2 ^ (e + 149))) with (Zpos m * 2 ^ (e + 149)) in Hr by lia.
        exact Hr. }
      destruct (Z.le_gt_cases e (-25)) as [Small|Large].
      * destruct (to_uint8_small m e Hv Small Hn) as [T N]. rewrite T, N. reflexivity.
      * apply to_uint8_large; [exact Hv|lia].
Qed.

Lemma to_uint8_rounds_to_nearest_witness :
  (valid (decimal 1276 1) = true
   /\ ulps (decimal 1276 1) = Some (16724787 * 2 ^ 132)
   /\ Z.abs (16724787 * 2 ^ 132) < 2 ^ 180
   /\ decimal 1276 1 <> below_half
   /\ to_uint8 (decimal 1276 1) = Ok 128)
  /\ map to_uint8 [of_int (-10); of_int 0; decimal 1276 1; of_int 255; of_int 300]
     = [Ok 0; Ok 0; Ok 128; Ok 255; Ok 255].
Proof.
  assert (S3 : to_uint8 (decimal 1276 1) = Ok 128).
  { assert (N : decimal 1276 1 <> below_half) by (vm_compute; discriminate).
    exact (proj1 (to_uint8_rounds_to_nearest (decimal 1276 1) (16724787 * 2 ^ 132)
                    eq_refl eq_refl eq_refl N)). }
  assert (S1 : to_uint8 (of_int (-10)) = Ok 0).
  { assert (N : of_int (-10) <> below_half) by (vm_compute; discriminate).
    exact (proj1 (to_uint8_rounds_to_nearest (of_int (-10)) (- 10485760 * 2 ^ 129)
                    eq_refl eq_refl eq_refl N)). }
  assert (S2 : to_uint8 (of_int 0) = Ok 0).
  { assert (N : of_int 0 <> below_half) by (vm_compute; discriminate).
    exact (proj1 (to_uint8_rounds_to_nearest (of_int 0) 0 eq_refl eq_refl eq_refl N)). }
  assert (S4 : to_uint8 (of_int 255) = Ok 255).
  { assert (N : of_int 255 <> below_half) by (vm_compute; discriminate).
    exact (proj1 (to_uint8_rounds_to_nearest (of_int 255) (255 * 2 ^ 149)
                    eq_refl eq_refl eq_refl N)). }
  assert (S5 : to_uint8 (of_int 300) = Ok 255).
  { assert (N : of_int 300 <> below_half) by (vm_compute; discriminate).
    exact (proj1 (to_uint8_rounds_to_nearest (of_int 300) (300 * 2 ^ 149)
                    eq_refl eq_refl eq_refl N)). }
  split.
  - split; [reflexivity|]. split; [reflexivity|]. split; [reflexivity|].
    split; [vm_compute; discriminate|exact S3].
  - cbn [map]. rewrite S1, S2, S3, S4, S5. reflexivity.
Defined.

(** The largest float below one half goes to 1, although 0 is nearer. *)
Lemma to_uint8_below_half :
  valid below_half = true
  /\ flt below_half fhalf = true
  /\ to_uint8 below_half = Ok 1
  /\ (exists u, ulps below_half = Some u /\ nearest_integer u = 0
                /\ Z.abs (0 * 2 ^ 149 - u) < Z.abs (1 * 2 ^ 149 - u)).
Proof.
  split; [reflexivity|]. split; [reflexivity|]. split; [reflexivity|].
  eexists. split; [reflexivity|]. split; [reflexivity|]. reflexivity.
Qed.

(** The default configuration at work on a cell holding 20, final value
    100, linear interpolator: committed at frame 100, half way at 250, not
    finished at 399, finished with 100 written at 400. *)
Lemma default_configuration_run :
  let script : M CanvasPropertyPrimitive (bool * float * bool * bool) :=
    (setInterpolator (Some linearInterpolator) ;;
     setStagingPlayState RUNNING ;;
     newFrame 100 None ;;
     pushStaging tt linearInterpolator ;;
     newFrame 250 None ;;
     b1 <- animate tt ;;
     t1 <- get_target ;;
     newFrame 399 None ;;
     b2 <- animate tt ;;
     newFrame 400 None ;;
     b3 <- animate tt ;;
     ret (b1, value t1, b2, b3))%anim in
  exists w',
    script (newWorld (BaseRenderNodeAnimator_new (of_int 100)) (mkPrimitive (of_int 20)) 1)
    = Ok ((false, of_int 60, false, true), w')
    /\ target w' = mkPrimitive (of_int 100)
    /\ mPlayState (this w') = FINISHED.
Proof. eexists. split; [vm_compute; reflexivity|]. split; reflexivity. Qed.

(** ** Facts about the life of an animator *)

Section LifeFacts.

Context {V T : Type} `{ValueAccessor V T}.
Variable self : V.
Variable createDefaultInterpolator : Interpolator.

(** When a commit returns: always, once the start value can be read,
    except at activation, which needs a positive frame time and an
    interpolator. *)
Lemma pushStaging_returns (w : World T) :
  (mHasStartValue (this w) = true \/ exists v, getValue self (target w) = Ok v) ->
  succeeded (pushStaging self createDefaultInterpolator w)
  = negb (activating (this w))
    || ((0 <? frameTimeMs (info w))
        && match mInterpolator (this w) with Some _ => true | None => false end).
Proof.
  intros Hstart. rewrite pushStaging_eq. cbv zeta.
  assert (K : forall w1 : World T,
             mPlayState (this w1) = mPlayState (this w) ->
             mStagingPlayState (this w1) = mStagingPlayState (this w) ->
             mInterpolator (this w1) = mInterpolator (this w) ->
             info w1 = info w ->
             succeeded
               (if PlayState_gtb (mStagingPlayState (this w1)) (mPlayState (this w1))
                then match mStagingPlayState (this w1) with
                     | RUNNING => transitionToRunning createDefaultInterpolator
                                    (with_this (set_mPlayState (mStagingPlayState (this w1)) (this w1)) w1)
                     | _ => Ok (tt, with_this (set_mPlayState (mStagingPlayState (this w1)) (this w1)) w1)
                     end
                else Ok (tt, w1))
             = negb (activating (this w))
               || ((0 <? frameTimeMs (info w))
                   && match mInterpolator (this w) with Some _ => true | None => false end)).
  { intros w1 Ep Es Ei Einfo. unfold activating. rewrite Ep, Es.
    destruct (mStagingPlayState (this w)) eqn:S1, (mPlayState (this w)) eqn:P1;
      try reflexivity.
    cbn -[transitionToRunning]. rewrite transitionToRunning_eq. cbv zeta.
    cbn [with_this this info]. fields. rewrite Ei, Es, Einfo.
    rewrite Z.leb_antisym.
    destruct (0 <? frameTimeMs (info w)); [|reflexivity].
    destruct (mInterpolator (this w)); reflexivity. }
  destruct (mHasStartValue (this w)) eqn:Eh.
  - apply K; reflexivity.
  - destruct Hstart as [Q|[v Hv]]; [discriminate|]. rewrite Hv. apply K; reflexivity.
Qed.

Lemma well_formed_new (finalValue : float) :
  well_formed (BaseRenderNodeAnimator_new finalValue).
Proof.
  unfold well_formed. cbn. repeat split; try lia; try congruence; try discriminate.
Qed.

Lemma pushStaging_well_formed (w w' : World T) (u : unit) :
  well_formed (this w) ->
  pushStaging self createDefaultInterpolator w = Ok (u, w') ->
  well_formed (this w').
Proof.
  intros Hw. rewrite pushStaging_eq. cbv zeta.
  assert (K : forall w1 : World T,
             well_formed (this w1) -> mHasStartValue (this w1) = true ->
             (if PlayState_gtb (mStagingPlayState (this w1)) (mPlayState (this w1))
              then match mStagingPlayState (this w1) with
                   | RUNNING => transitionToRunning createDefaultInterpolator
                                  (with_this (set_mPlayState (mStagingPlayState (this w1)) (this w1)) w1)
                   | _ => Ok (tt, with_this (set_mPlayState (mStagingPlayState (this w1)) (this w1)) w1)
                   end
              else Ok (tt, w1)) = Ok (u, w') ->
             well_formed (this w')).
  { intros w1 (W1 & W2 & W3 & W4 & W5) Hh.
    destruct (PlayState_gtb (mStagingPlayState (this w1)) (mPlayState (this w1))) eqn:G.
    - destruct (mStagingPlayState (this w1)) eqn:S1.
      + intros Q; inversion Q; subst; clear Q. unfold PlayState_gtb in G.
        destruct (mPlayState (this w1)); discriminate G.
      + rewrite transitionToRunning_eq. cbv zeta.
        destruct (frameTimeMs (info (with_this (set_mPlayState RUNNING (this w1)) w1)) <=? 0);
          [discriminate|].
        pose proof (wrap64_range
                      (frameTimeMs (info (with_this (set_mPlayState RUNNING (this w1)) w1))
                       + mStartDelay (this (with_this (set_mPlayState RUNNING (this w1)) w1))))
          as Hr.
        unfold int64_range in Hr.
        set (s0 := wrap64 _) in *.
        assert (Hs : 0 <= (if s0 <? 0 then 0 else s0) < 2 ^ 63)
          by (destruct (Z.ltb_spec s0 0); lia).
        cbn [with_this this]. fields. rewrite S1.
        destruct (mInterpolator (this w1)) eqn:Ei.
        * intros Q; inversion Q; subst; clear Q. unfold well_formed. cbn.
          rewrite S1, Ei. repeat split; try lia; try congruence; try discriminate; auto.
        * discriminate.
      + intros Q; inversion Q; subst; clear Q. unfold well_formed. cbn.
        rewrite S1. repeat split; try lia; try congruence; try discriminate; auto.
    - intros Q; inversion Q; subst. unfold well_formed. auto. }
  destruct (mHasStartValue (this w)) eqn:Eh.
  - apply K; assumption.
  - destruct (getValue self (target w)) as [v|f]; [|discriminate].
    apply K; [|reflexivity].
    destruct Hw as (W1 & W2 & W3 & W4 & W5). unfold well_formed. cbn.
    repeat split; try lia; auto.
Qed.

Lemma animate_well_formed (w w' : World T) (b : bool) :
  well_formed (this w) ->
  animate self w = Ok (b, w') ->
  well_formed (this w').
Proof.
  intros Hw. rewrite animate_eq. cbv zeta.
  destruct (PlayState_ltb (mPlayState (this w)) RUNNING) eqn:L.
  { intros Q; inversion Q; subst; exact Hw. }
  destruct (mStartTime (this w) >? frameTimeMs (info w)).
  { intros Q; inversion Q; subst; exact Hw. }
  destruct (mInterpolator (this w)) eqn:Ei; [|discriminate].
  destruct (setValue self _ (target w)); [|discriminate].
  destruct Hw as (W1 & W2 & W3 & W4 & W5).
  assert (Hp : mPlayState (this w) <> NOT_STARTED).
  { intros N. rewrite N in L. discriminate L. }
  destruct (fge (rawFraction (this w) (info w)) fone).
  - cbn [set_mPlayState mPlayState PlayState_eqb PlayState_rank Z.eqb Pos.eqb].
    intros Q; inversion Q; subst; clear Q. unfold well_formed. cbn.
    repeat split; try lia; auto; try discriminate.
    intros S0. specialize (W2 S0). contradiction.
  - destruct (PlayState_eqb (mPlayState (this w)) FINISHED);
      intros Q; inversion Q; subst; clear Q; unfold well_formed; cbn; repeat split;
        try lia; auto.
Qed.

(** X1.  Every reachable animator is well formed: its start time is a
    non-negative 64-bit integer, it has a start value and the matching
    delta once it has left NOT_STARTED, and it has an interpolator while it
    is RUNNING. *)
Theorem reachable_well_formed (w : World T) :
  reachable self createDefaultInterpolator w -> well_formed (this w).
Proof.
  induction 1 as [finalValue t i|w w' c Hr IH Hc|w t i Hr IH].
  - apply well_formed_new.
  - destruct c; cbn [perform] in Hc.
    + unfold setInterpolator, bind in Hc. rewrite checkMutable_spec in Hc.
      destruct (mStagingPlayState (this w)) eqn:Es; [|discriminate Hc..].
      run. inversion Hc; subst; clear Hc.
      destruct IH as (W1 & W2 & W3 & W4 & W5). unfold well_formed. cbn.
      specialize (W2 Es).
      repeat split; try lia; auto; congruence.
    + unfold setDuration, bind in Hc. rewrite checkMutable_spec in Hc.
      destruct (mStagingPlayState (this w)) eqn:Es; [|discriminate Hc..].
      run. inversion Hc; subst; clear Hc.
      destruct IH as (W1 & W2 & W3 & W4 & W5). unfold well_formed. cbn.
      rewrite Es. repeat split; try lia; auto.
    + unfold setStartDelay, bind in Hc. rewrite checkMutable_spec in Hc.
      destruct (mStagingPlayState (this w)) eqn:Es; [|discriminate Hc..].
      run. inversion Hc; subst; clear Hc.
      destruct IH as (W1 & W2 & W3 & W4 & W5). unfold well_formed. cbn.
      rewrite Es. repeat split; try lia; auto.
    + unfold setStartValue, doSetStartValue, bind in Hc. rewrite checkMutable_spec in Hc.
      destruct (mStagingPlayState (this w)) eqn:Es; [|discriminate Hc..].
      run. inversion Hc; subst; clear Hc.
      destruct IH as (W1 & W2 & W3 & W4 & W5). unfold well_formed. cbn.
      rewrite Es. repeat split; try lia; auto.
    + unfold setListener in Hc. run. inversion Hc; subst; clear Hc.
      destruct IH as (W1 & W2 & W3 & W4 & W5). unfold well_formed. cbn.
      repeat split; try lia; auto.
    + unfold setStagingPlayState in Hc. run. inversion Hc; subst; clear Hc.
      destruct IH as (W1 & W2 & W3 & W4 & W5). unfold well_formed. cbn.
      repeat split; try lia; auto. discriminate.
    + unfold setStagingPlayState in Hc. run. inversion Hc; subst; clear Hc.
      destruct IH as (W1 & W2 & W3 & W4 & W5). unfold well_formed. cbn.
      repeat split; try lia; auto. discriminate.
    + eapply pushStaging_well_formed; eassumption.
    + unfold bind in Hc. destruct (animate self w) as [[b w1]|f] eqn:Ea; [|discriminate].
      unfold ret in Hc. inversion Hc; subst. eapply animate_well_formed; eassumption.
  - exact IH.
Qed.

End LifeFacts.

(** A started animator with an interpolator is reachable and RUNNING
    after its first commit. *)
Example reachable_running :
  exists w : World _,
    reachable tt linearInterpolator w /\ mPlayState (this w) = RUNNING
    /\ mStartTime (this w) = 100.
Proof.
  eexists. split.
  - eapply reachable_call with (c := CallPushStaging).
    + eapply reachable_call with (c := CallStart).
      * eapply reachable_call with (c := CallSetInterpolator (Some linearInterpolator)).
        -- apply (reachable_new tt linearInterpolator (of_int 1) (CanvasPropertyPrimitiveAnimator.mkPrimitive (of_int 0))
                    (mkTreeInfo 100 false None)).
        -- reflexivity.
      * reflexivity.
    + vm_compute. reflexivity.
  - split; reflexivity.
Qed.

(** ** Commits and evaluations, call by call *)

Section CallFacts.

Context {V T : Type} `{ValueAccessor V T}.
Variable self : V.
Variable createDefaultInterpolator : Interpolator.

(** The commit with its start value resolved. *)
Lemma pushStaging_resolved (w : World T) :
  mHasStartValue (this w) = true ->
  pushStaging self createDefaultInterpolator w =
  if PlayState_gtb (mStagingPlayState (this w)) (mPlayState (this w)) then
    match mStagingPlayState (this w) with
    | RUNNING => transitionToRunning createDefaultInterpolator
                   (with_this (set_mPlayState RUNNING (this w)) w)
    | s => Ok (tt, with_this (set_mPlayState s (this w)) w)
    end
  else Ok (tt, w).
Proof.
  intros Hh. rewrite pushStaging_eq. cbv zeta. rewrite Hh.
  destruct (mStagingPlayState (this w)); reflexivity.
Qed.

(** What a commit that returns leaves behind. *)
Lemma pushStaging_result (w w1 : World T) (u : unit) :
  pushStaging self createDefaultInterpolator w = Ok (u, w1) ->
  exists from delta,
    (if mHasStartValue (this w)
     then from = mFromValue (this w) /\ delta = mDeltaValue (this w)
     else getValue self (target w) = Ok from /\ delta = fsub (mFinalValue (this w)) from)
    /\ target w1 = target w /\ info w1 = info w /\ callbacks w1 = callbacks w
    /\ this w1
       = (if activating (this w)
          then set_mStartTime
                 (Z.max 0 (wrap64 (frameTimeMs (info w) + mStartDelay (this w))))
          else fun a => a)
           (set_mPlayState (PlayState_max (mPlayState (this w)) (mStagingPlayState (this w)))
              (set_startValue from delta (this w)))
    /\ (activating (this w) = false -> logcat w1 = logcat w)
    /\ (activating (this w) = true ->
        0 < frameTimeMs (info w) /\ mInterpolator (this w) <> None).
Proof.
  rewrite pushStaging_eq. cbv zeta. intros E.
  assert (K : forall (from delta : float) (w0 : World T),
             w0 = with_this (set_startValue from delta (this w)) w ->
             (if PlayState_gtb (mStagingPlayState (this w0)) (mPlayState (this w0))
              then match mStagingPlayState (this w0) with
                   | RUNNING => transitionToRunning createDefaultInterpolator
                                  (with_this (set_mPlayState (mStagingPlayState (this w0)) (this w0)) w0)
                   | _ => Ok (tt, with_this (set_mPlayState (mStagingPlayState (this w0)) (this w0)) w0)
                   end
              else Ok (tt, w0)) = Ok (u, w1) ->
             target w1 = target w /\ info w1 = info w /\ callbacks w1 = callbacks w
             /\ this w1
                = (if activating (this w)
                   then set_mStartTime
                          (Z.max 0 (wrap64 (frameTimeMs (info w) + mStartDelay (this w))))
                   else fun a => a)
                    (set_mPlayState (PlayState_max (mPlayState (this w)) (mStagingPlayState (this w)))
                       (set_startValue from delta (this w)))
             /\ (activating (this w) = false -> logcat w1 = logcat w)
             /\ (activating (this w) = true ->
                 0 < frameTimeMs (info w) /\ mInterpolator (this w) <> None)).
  { intros from delta w0 -> . unfold activating. cbn [with_this this]. fields.
    destruct (mStagingPlayState (this w)) eqn:Es, (mPlayState (this w)) eqn:Ep;
      cbn -[transitionToRunning Z.max wrap64];
      try solve [intros Q; inversion Q; subst; clear Q; cbn; rewrite ?Es, ?Ep;
                 repeat split;
                 solve [reflexivity | congruence
                        | unfold set_startValue, set_mPlayState; cbn; rewrite ?Es, ?Ep;
                          reflexivity]].
    rewrite transitionToRunning_eq. cbv zeta. cbn [with_this this info target callbacks logcat]. fields.
    destruct (Z.leb_spec (frameTimeMs (info w)) 0) as [Hle|Hlt]; [discriminate|].
    destruct (mInterpolator (this w)) eqn:Ei; [|rewrite Es; discriminate].
    intros Q; inversion Q; subst; clear Q. cbn.
    repeat split; try lia; try discriminate.
    f_equal. destruct (Z.ltb_spec (wrap64 (frameTimeMs (info w) + mStartDelay (this w))) 0); lia. }
  destruct (mHasStartValue (this w)) eqn:Eh.
  - exists (mFromValue (this w)), (mDeltaValue (this w)). split; [split; reflexivity|].
    apply (K _ _ w); [|exact E].
    destruct w as [a t i cb lg]; destruct a; cbn in *; subst; reflexivity.
  - destruct (getValue self (target w)) as [v|f] eqn:Eg; [|discriminate].
    exists v, (fsub (mFinalValue (this w)) v). split; [split; reflexivity|].
    eapply K; [reflexivity|exact E].
Qed.

(** X2.  A commit that returns writes neither the target, the tree info nor
    the callbacks, and keeps final value, duration, start delay, listener,
    interpolator and staging state; a start value set before is kept, a
    missing one is read from the target; start time and log change only
    when the commit activates the animator. *)
Theorem pushStaging_keeps_target_and_configuration (w w1 : World T) (u : unit) :
  pushStaging self createDefaultInterpolator w = Ok (u, w1) ->
  target w1 = target w /\ info w1 = info w /\ callbacks w1 = callbacks w
  /\ mFinalValue (this w1) = mFinalValue (this w)
  /\ mDuration (this w1) = mDuration (this w)
  /\ mStartDelay (this w1) = mStartDelay (this w)
  /\ mListener (this w1) = mListener (this w)
  /\ mInterpolator (this w1) = mInterpolator (this w)
  /\ mStagingPlayState (this w1) = mStagingPlayState (this w)
  /\ mHasStartValue (this w1) = true
  /\ (mHasStartValue (this w) = true ->
      mFromValue (this w1) = mFromValue (this w)
      /\ mDeltaValue (this w1) = mDeltaValue (this w))
  /\ (mHasStartValue (this w) = false ->
      getValue self (target w) = Ok (mFromValue (this w1))
      /\ mDeltaValue (this w1) = fsub (mFinalValue (this w)) (mFromValue (this w1)))
  /\ (activating (this w) = false ->
      mStartTime (this w1) = mStartTime (this w) /\ logcat w1 = logcat w).
Proof.
  intros E.
  destruct (pushStaging_result w w1 u E)
    as (from & delta & Hs & Ht & Hi & Hc & Ha & Hl & _).
  rewrite Ha. repeat (split; [first [assumption | destruct (activating (this w)); reflexivity]|]).
  split; [|split].
  - intros Hh. rewrite Hh in Hs. destruct Hs as [-> ->].
    destruct (activating (this w)); split; reflexivity.
  - intros Hh. rewrite Hh in Hs. destruct Hs as [Hg ->].
    destruct (activating (this w)); split; first [exact Hg | reflexivity].
  - intros Hact. rewrite Hact. split; [reflexivity | exact (Hl Hact)].
Qed.

(** X3.  Committing again changes nothing: once a commit has returned, another
    commit of the same staged state returns the world it was given,
    whatever target and tree info it is shown. *)
Theorem pushStaging_again_is_a_no_op (w w1 : World T) (u : unit) (t : T) (i : TreeInfo) :
  pushStaging self createDefaultInterpolator w = Ok (u, w1) ->
  pushStaging self createDefaultInterpolator (retarget t i w1) = Ok (tt, retarget t i w1).
Proof.
  intros E.
  destruct (pushStaging_result w w1 u E) as (from & delta & _ & _ & _ & _ & Ha & _).
  rewrite pushStaging_resolved.
  - cbn [retarget this]. rewrite Ha.
    destruct (activating (this w)); cbn;
      destruct (mPlayState (this w)), (mStagingPlayState (this w)); reflexivity.
  - cbn [retarget this]. rewrite Ha. destruct (activating (this w)); reflexivity.
Qed.

(** X4.  What one evaluation may do: it leaves the animator as it is or moves
    a RUNNING one to FINISHED, never logs, and never clears
    [hasAnimations]; it returns true exactly when it has evaluated the
    animator and left it FINISHED, and then it has delivered the
    notification once and not touched the tree info; when it returns
    false it has delivered nothing and, unless the animator was never
    committed, has set [hasAnimations]. *)
Theorem animate_contract (w w1 : World T) (b : bool) :
  animate self w = Ok (b, w1) ->
  (this w1 = this w
   \/ (mPlayState (this w) = RUNNING /\ this w1 = set_mPlayState FINISHED (this w)))
  /\ logcat w1 = logcat w
  /\ frameTimeMs (info w1) = frameTimeMs (info w)
  /\ animationHook (info w1) = animationHook (info w)
  /\ (hasAnimations (info w) = true -> hasAnimations (info w1) = true)
  /\ (b = true <->
      mPlayState (this w1) = FINISHED /\ mStartTime (this w) <= frameTimeMs (info w))
  /\ (b = true ->
      info w1 = info w
      /\ callbacks w1 = notification (this w) (info w) ++ callbacks w
      /\ (List.length (callbacks w1) <= S (List.length (callbacks w)))%nat)
  /\ (b = false ->
      callbacks w1 = callbacks w
      /\ (mPlayState (this w) = NOT_STARTED -> w1 = w)
      /\ (mPlayState (this w) <> NOT_STARTED -> hasAnimations (info w1) = true)
      /\ (frameTimeMs (info w) < mStartTime (this w) ->
          this w1 = this w /\ target w1 = target w)).
Proof.
  rewrite animate_eq. cbv zeta.
  assert (Hn : (List.length (notification (this w) (info w) ++ callbacks w)
                <= S (List.length (callbacks w)))%nat).
  { unfold notification. destruct (mListener (this w)); [destruct (animationHook (info w))|];
      cbn; lia. }
  destruct (PlayState_ltb (mPlayState (this w)) RUNNING) eqn:L.
  { intros Q; inversion Q; subst; clear Q.
    assert (Hp : mPlayState (this w1) = NOT_STARTED)
      by (destruct (mPlayState (this w1)); [reflexivity|discriminate L..]).
    repeat split; auto; try congruence; try (intros; exfalso; congruence).
    all: try (intros [Q _]; congruence). }
  assert (Hp : mPlayState (this w) <> NOT_STARTED)
    by (intros N; rewrite N in L; discriminate L).
  destruct (Z.gtb_spec (mStartTime (this w)) (frameTimeMs (info w))) as [Hgt|Hle].
  { intros Q; inversion Q; subst; clear Q. cbn.
    repeat split; auto; try congruence; try (intros; exfalso; congruence); try lia.
    all: try (intros [_ Q]; lia). }
  destruct (mInterpolator (this w)) as [interpolator|]; [|discriminate].
  destruct (setValue self _ (target w)) as [t'|f]; [|discriminate].
  destruct (fge (rawFraction (this w) (info w)) fone) eqn:Ef.
  - cbn [set_mPlayState mPlayState PlayState_eqb PlayState_rank Z.eqb Pos.eqb].
    intros Q; inversion Q; subst; clear Q. cbn [this info logcat callbacks target].
    assert (Hnote : notification (set_mPlayState FINISHED (this w)) (info w)
                    = notification (this w) (info w)) by reflexivity.
    rewrite Hnote.
    repeat split; auto; try congruence; try lia.
    destruct (mPlayState (this w)) eqn:Ep; [congruence| |].
    + right. split; reflexivity.
    + left. rewrite <- Ep. apply set_mPlayState_same.
  - destruct (PlayState_eqb (mPlayState (this w)) FINISHED) eqn:Efin;
      intros Q; inversion Q; subst; clear Q; cbn [this info logcat callbacks target with_hasAnimations
                                                 frameTimeMs hasAnimations animationHook].
    + apply PlayState_eqb_eq in Efin.
      repeat split; auto; try congruence; try lia.
    + assert (Hnf : mPlayState (this w) <> FINISHED).
      { intros N. rewrite N in Efin. discriminate Efin. }
      repeat split; auto; try congruence; try lia.
      all: try (intros [Q _]; congruence).
Qed.

End CallFacts.

Lemma pushStaging_keeps_target_and_configuration_witness :
  exists w1,
    pushStaging tt linearInterpolator sampleStarted = Ok (tt, w1)
    /\ target w1 = target sampleStarted
    /\ info w1 = info sampleStarted
    /\ callbacks w1 = callbacks sampleStarted
    /\ mFinalValue (this w1) = mFinalValue (this sampleStarted).
Proof.
  destruct (pushStaging tt linearInterpolator sampleStarted) as [[[] w1]|f] eqn:E;
    [|vm_compute in E; discriminate E].
  exists w1. split; [reflexivity|].
  destruct (pushStaging_keeps_target_and_configuration tt linearInterpolator
              sampleStarted w1 tt E) as (H1 & H2 & H3 & H4 & _).
  repeat split; assumption.
Defined.

Lemma pushStaging_again_is_a_no_op_witness :
  exists w1,
    pushStaging tt linearInterpolator sampleStarted = Ok (tt, w1)
    /\ pushStaging tt linearInterpolator
         (retarget (mkPrimitive (of_int 7)) (mkTreeInfo 116 false None) w1)
       = Ok (tt, retarget (mkPrimitive (of_int 7)) (mkTreeInfo 116 false None) w1).
Proof.
  destruct (pushStaging tt linearInterpolator sampleStarted) as [[[] w1]|f] eqn:E;
    [|vm_compute in E; discriminate E].
  exists w1. split; [reflexivity|].
  exact (pushStaging_again_is_a_no_op tt linearInterpolator sampleStarted w1 tt
           (mkPrimitive (of_int 7)) (mkTreeInfo 116 false None) E).
Defined.

Lemma animate_contract_witness :
  let w := newWorld (runningAnimator (of_int 20) (of_int 100) 100 1000) sampleCell 600 in
  exists w1,
    animate tt w = Ok (false, w1)
    /\ logcat w1 = logcat w
    /\ callbacks w1 = callbacks w
    /\ hasAnimations (info w1) = true.
Proof.
  cbv zeta.
  destruct (animate tt (newWorld (runningAnimator (of_int 20) (of_int 100) 100 1000)
                                 sampleCell 600)) as [[b w1]|f] eqn:E;
    [|vm_compute in E; discriminate E].
  assert (Hb : b = false) by (vm_compute in E; inversion E; reflexivity).
  subst b. exists w1. split; [reflexivity|].
  destruct (animate_contract tt _ w1 false E) as (_ & Hl & _ & _ & _ & _ & _ & Hf).
  destruct (Hf eq_refl) as (Hc & _ & Hh & _).
  repeat split; [exact Hl | exact Hc | apply Hh; discriminate].
Defined.
Section CommitFacts.

Context {V T : Type} `{ValueAccessor V T}.
Variable self : V.
Variable createDefaultInterpolator : Interpolator.


(** An activating commit returns once the start value can be read, the
    frame time is positive and an interpolator is set. *)
Lemma pushStaging_activates (w : World T) (interpolator : Interpolator) :
  activating (this w) = true ->
  mInterpolator (this w) = Some interpolator ->
  (mHasStartValue (this w) = true \/ exists v, getValue self (target w) = Ok v) ->
  0 < frameTimeMs (info w) ->
  exists w1, pushStaging self createDefaultInterpolator w = Ok (tt, w1).
Proof.
  intros Ha Hi Hs Hf.
  pose proof (pushStaging_returns self createDefaultInterpolator w Hs) as R.
  rewrite Ha, Hi in R.
  destruct (Z.ltb_spec 0 (frameTimeMs (info w))); [|lia]. cbn [negb orb andb] in R.
  destruct (pushStaging self createDefaultInterpolator w) as [[[] w1]|f]; [|discriminate R].
  exists w1. reflexivity.
Qed.

(** A commit without a start value is the commit of the animator with the
    target's current value as its start value. *)
Lemma pushStaging_resolves (w : World T) (v : float) :
  mHasStartValue (this w) = false ->
  getValue self (target w) = Ok v ->
  pushStaging self createDefaultInterpolator w
  = pushStaging self createDefaultInterpolator
      (with_this (set_startValue v (fsub (mFinalValue (this w)) v) (this w)) w).
Proof.
  intros Hh Hg. rewrite (pushStaging_resolved self createDefaultInterpolator (with_this _ w))
    by reflexivity.
  rewrite pushStaging_eq. cbv zeta. rewrite Hh, Hg. cbn [with_this this]. fields.
  destruct (mStagingPlayState (this w)); reflexivity.
Qed.

(** X5.  The only ways a commit aborts: the start value is missing and cannot
    be read; or the commit activates the animator and the frame time is
    not positive, or no interpolator has been set. *)
Theorem pushStaging_aborts_only_when (w : World T) (f : Failure) :
  pushStaging self createDefaultInterpolator w = Abort f <->
  (mHasStartValue (this w) = false /\ getValue self (target w) = Abort f)
  \/ ((mHasStartValue (this w) = true \/ exists v, getValue self (target w) = Ok v)
      /\ activating (this w) = true
      /\ ((frameTimeMs (info w) <= 0 /\ f = LOG_ALWAYS_FATAL "isn't a real frame time!")
          \/ (0 < frameTimeMs (info w) /\ mInterpolator (this w) = None
              /\ f = LOG_ALWAYS_FATAL "Animator has already been started!"))).
Proof.
  assert (K : forall w0 : World T,
             mHasStartValue (this w0) = true ->
             (pushStaging self createDefaultInterpolator w0 = Abort f <->
              activating (this w0) = true
              /\ ((frameTimeMs (info w0) <= 0 /\ f = LOG_ALWAYS_FATAL "isn't a real frame time!")
                  \/ (0 < frameTimeMs (info w0) /\ mInterpolator (this w0) = None
                      /\ f = LOG_ALWAYS_FATAL "Animator has already been started!")))).
  { intros w0 Hh. rewrite (pushStaging_resolved _ _ _ Hh). unfold activating.
    destruct (mStagingPlayState (this w0)) eqn:Es, (mPlayState (this w0)) eqn:Ep;
      cbn -[transitionToRunning];
      try solve [split; [discriminate | intros [Q _]; discriminate Q]].
    rewrite transitionToRunning_eq. cbv zeta. cbn [with_this this info]. fields.
    rewrite Es.
    destruct (Z.leb_spec (frameTimeMs (info w0)) 0) as [Hle|Hlt].
    - split.
      + intros Q; inversion Q; subst. split; [reflexivity|]. left. split; [exact Hle|reflexivity].
      + intros [_ [[_ ->]|[Hpos _]]]; [reflexivity|lia].
    - destruct (mInterpolator (this w0)) eqn:Ei.
      + split; [discriminate|]. intros [_ [[Hle _]|[_ [Q _]]]]; [lia|discriminate Q].
      + split.
        * intros Q; inversion Q; subst. split; [reflexivity|]. right. repeat split. exact Hlt.
        * intros [_ [[Hle _]|[_ [_ ->]]]]; [lia|reflexivity]. }
  destruct (mHasStartValue (this w)) eqn:Eh.
  - rewrite (K w Eh). split.
    + intros Q. right. split; [left; reflexivity|exact Q].
    + intros [[Q _]|[_ Q]]; [discriminate Q|exact Q].
  - destruct (getValue self (target w)) as [v|g] eqn:Eg.
    + rewrite (pushStaging_resolves w v Eh Eg). rewrite K by reflexivity.
      cbn [with_this this info]. unfold activating. fields. split.
      * intros Q. right. split; [right; exists v; reflexivity|exact Q].
      * intros [[_ Q]|[_ Q]]; [discriminate Q|exact Q].
    + rewrite pushStaging_eq. cbv zeta. rewrite Eh, Eg. split.
      * intros Q. left. split; [reflexivity|]. congruence.
      * intros [[_ Q]|[[Q|[v Q]] _]]; congruence.
Qed.

End CommitFacts.
Lemma reachable_well_formed_witness :
  exists w : World CanvasPropertyPrimitive,
    pushStaging tt linearInterpolator sampleStarted = Ok (tt, w)
    /\ reachable tt linearInterpolator w
    /\ well_formed (this w).
Proof.
  destruct (pushStaging tt linearInterpolator sampleStarted) as [[[] w1]|f] eqn:E;
    [|vm_compute in E; discriminate E].
  exists w1. split; [reflexivity|].
  assert (R : reachable tt linearInterpolator w1).
  { eapply reachable_call with (c := CallPushStaging); [|exact E].
    eapply reachable_call with (c := CallStart).
    - eapply reachable_call with (c := CallSetInterpolator (Some linearInterpolator)).
      + apply (reachable_new tt linearInterpolator (of_int 100) sampleCell
                 (mkTreeInfo 100 false None)).
      + reflexivity.
    - reflexivity. }
  split; [exact R|].
  exact (reachable_well_formed tt linearInterpolator w1 R).
Defined.
(** ** Start time, start delay and the end of the run *)

Lemma quotient_zero (d : Z) :
  1 <= d < 2 ^ 63 -> fdiv (of_int 0) (of_int d) = fzero.
Proof.
  intros Hd. destruct (of_int_normal d Hd) as (m & e & E & _). rewrite E. reflexivity.
Qed.

Section TimingFacts.

Context {V T : Type} `{ValueAccessor V T}.
Variable self : V.
Variable createDefaultInterpolator : Interpolator.

(** X6.  An animator activated at frame time [t0] with start delay [d >= 0]
    starts at [t0 + d]: every evaluation at an earlier frame time only sets
    [hasAnimations], and the evaluation at [t0 + d] runs the interpolator
    on fraction 0. *)
Theorem start_delay_is_honoured (w : World T) (interpolator : Interpolator) :
  activating (this w) = true ->
  mInterpolator (this w) = Some interpolator ->
  (mHasStartValue (this w) = true \/ exists v, getValue self (target w) = Ok v) ->
  0 < frameTimeMs (info w) ->
  0 <= mStartDelay (this w) ->
  frameTimeMs (info w) + mStartDelay (this w) < 2 ^ 63 ->
  exists w1,
    pushStaging self createDefaultInterpolator w = Ok (tt, w1)
    /\ mPlayState (this w1) = RUNNING
    /\ mStartTime (this w1) = frameTimeMs (info w) + mStartDelay (this w)
    /\ (forall (t : T) (i : TreeInfo),
           frameTimeMs i < frameTimeMs (info w) + mStartDelay (this w) ->
           animate self (retarget t i w1) = Ok (false, with_hasAnimations (retarget t i w1)))
    /\ (forall (t : T) (i : TreeInfo),
           frameTimeMs i = frameTimeMs (info w) + mStartDelay (this w) ->
           0 < mDuration (this w) < 2 ^ 63 ->
           animate self (retarget t i w1)
           = match setValue self (animatedValue (this w1) (interpolator fzero)) t with
             | Abort f => Abort f
             | Ok t' => Ok (false, with_hasAnimations
                                     (mkWorld (this w1) t' i (callbacks w1) (logcat w1)))
             end).
Proof.
  intros Ha Hi Hs Hf Hd Hr.
  destruct (pushStaging_activates self createDefaultInterpolator w interpolator Ha Hi Hs Hf)
    as (w1 & E).
  exists w1. split; [exact E|].
  destruct (pushStaging_result self createDefaultInterpolator w w1 tt E)
    as (from & delta & _ & _ & _ & _ & Ht & _).
  rewrite Ha in Ht.
  assert (Hw : wrap64 (frameTimeMs (info w) + mStartDelay (this w))
               = frameTimeMs (info w) + mStartDelay (this w)).
  { apply wrap64_id. unfold int64_range. lia. }
  rewrite Hw, Z.max_r in Ht by lia.
  unfold activating in Ha. apply andb_prop in Ha. destruct Ha as [Hst Hpl].
  apply PlayState_eqb_eq in Hst. apply PlayState_eqb_eq in Hpl.
  rewrite Hst, Hpl in Ht. cbn [PlayState_max PlayState_ltb PlayState_rank Z.ltb Z.compare] in Ht.
  assert (Hp : mPlayState (this w1) = RUNNING) by (rewrite Ht; reflexivity).
  assert (Hstart : mStartTime (this w1) = frameTimeMs (info w) + mStartDelay (this w))
    by (rewrite Ht; reflexivity).
  assert (Hint : mInterpolator (this w1) = Some interpolator) by (rewrite Ht; exact Hi).
  assert (Hdur : mDuration (this w1) = mDuration (this w)) by (rewrite Ht; reflexivity).
  split; [exact Hp|]. split; [exact Hstart|]. split.
  - intros t i Hlt. rewrite animate_eq. cbv zeta. cbn [retarget this info].
    rewrite Hp, Hstart. cbn [PlayState_ltb PlayState_rank Z.ltb Z.compare].
    destruct (Z.gtb_spec (frameTimeMs (info w) + mStartDelay (this w)) (frameTimeMs i));
      [reflexivity|lia].
  - intros t i Heq Hdu. rewrite animate_eq. cbv zeta. cbn [retarget this info target callbacks logcat].
    rewrite Hp, Hint. cbn [PlayState_ltb PlayState_rank Z.ltb Z.compare].
    destruct (Z.gtb_spec (mStartTime (this w1)) (frameTimeMs i)) as [Hgt|_]; [lia|].
    assert (Hraw : rawFraction (this w1) i = fzero).
    { unfold rawFraction. rewrite Hp, Hdur. cbn [PlayState_eqb PlayState_rank Z.eqb Pos.eqb andb].
      destruct (Z.gtb_spec (mDuration (this w)) 0) as [_|Hle]; [|lia].
      replace (frameTimeMs i - mStartTime (this w1)) with 0 by lia.
      change (wrap64 0) with 0. apply quotient_zero. lia. }
    unfold clampedFraction. rewrite Hraw.
    change (fge fzero fone) with false. cbv iota.
    destruct (setValue self _ t) as [t'|f]; [|reflexivity].
    rewrite Hp. reflexivity.
Qed.


(** X8.  An animator ended before it ever ran is committed straight to
    FINISHED: the commit checks neither the frame time nor the
    interpolator and leaves the start time alone; the next evaluation at or
    after the start time writes the end value and reports the animator
    finished whatever its duration, and dereferences a null interpolator
    if none was set. *)
Theorem ended_before_it_ran (w : World T) :
  mPlayState (this w) = NOT_STARTED ->
  mStagingPlayState (this w) = FINISHED ->
  (mHasStartValue (this w) = true \/ exists v, getValue self (target w) = Ok v) ->
  exists w1,
    pushStaging self createDefaultInterpolator w = Ok (tt, w1)
    /\ mPlayState (this w1) = FINISHED
    /\ mStartTime (this w1) = mStartTime (this w)
    /\ mInterpolator (this w1) = mInterpolator (this w)
    /\ logcat w1 = logcat w
    /\ (forall (t : T) (i : TreeInfo),
           mStartTime (this w) <= frameTimeMs i ->
           animate self (retarget t i w1)
           = match mInterpolator (this w) with
             | None => Abort NullDereference
             | Some interpolator =>
                 match setValue self (animatedValue (this w1) (interpolator fone)) t with
                 | Abort f => Abort f
                 | Ok t' =>
                     Ok (true, mkWorld (this w1) t' i
                                       (notification (this w1) i ++ callbacks w1) (logcat w1))
                 end
             end).
Proof.
  intros Hp Hst Hs.
  assert (Ha : activating (this w) = false) by (unfold activating; rewrite Hst; reflexivity).
  pose proof (pushStaging_returns self createDefaultInterpolator w Hs) as R.
  rewrite Ha in R. cbn [negb orb] in R.
  destruct (pushStaging self createDefaultInterpolator w) as [[[] w1]|f] eqn:E;
    [|discriminate R].
  exists w1. split; [reflexivity|].
  destruct (pushStaging_result self createDefaultInterpolator w w1 tt E)
    as (from & delta & _ & _ & _ & _ & Ht & Hl & _).
  rewrite Ha, Hp, Hst in Ht. cbn [PlayState_max PlayState_ltb PlayState_rank Z.ltb Z.compare] in Ht.
  assert (Hp1 : mPlayState (this w1) = FINISHED) by (rewrite Ht; reflexivity).
  assert (Hstart : mStartTime (this w1) = mStartTime (this w)) by (rewrite Ht; reflexivity).
  assert (Hint : mInterpolator (this w1) = mInterpolator (this w)) by (rewrite Ht; reflexivity).
  repeat (split; [first [exact Hp1 | exact Hstart | exact Hint | exact (Hl Ha)]|]).
  intros t i Hle.
  rewrite (animate_when_finished self (retarget t i w1)) by exact Hp1.
  cbn [retarget this info target callbacks logcat]. rewrite Hstart, Hint.
  destruct (Z.gtb_spec (mStartTime (this w)) (frameTimeMs i)); [lia|reflexivity].
Qed.

End TimingFacts.

Lemma start_delay_is_honoured_witness :
  activating (this (sampleDelayed 50)) = true
  /\ mInterpolator (this (sampleDelayed 50)) = Some linearInterpolator
  /\ 0 < frameTimeMs (info (sampleDelayed 50))
  /\ 0 <= mStartDelay (this (sampleDelayed 50))
  /\ exists w1,
      pushStaging tt linearInterpolator (sampleDelayed 50) = Ok (tt, w1)
      /\ mStartTime (this w1) = 150
      /\ animate tt (retarget sampleCell (mkTreeInfo 149 false None) w1)
         = Ok (false, with_hasAnimations (retarget sampleCell (mkTreeInfo 149 false None) w1)).
Proof.
  assert (H1 : activating (this (sampleDelayed 50)) = true) by reflexivity.
  assert (H2 : mInterpolator (this (sampleDelayed 50)) = Some linearInterpolator)
    by reflexivity.
  assert (H3 : mHasStartValue (this (sampleDelayed 50)) = true
               \/ exists v, getValue tt (target (sampleDelayed 50)) = Ok v)
    by (right; exists (of_int 20); reflexivity).
  assert (H4 : 0 < frameTimeMs (info (sampleDelayed 50))) by reflexivity.
  assert (H5 : 0 <= mStartDelay (this (sampleDelayed 50))) by discriminate.
  assert (H6 : frameTimeMs (info (sampleDelayed 50)) + mStartDelay (this (sampleDelayed 50))
               < 2 ^ 63) by reflexivity.
  repeat (split; [first [exact H1 | exact H2 | exact H4 | exact H5]|]).
  destruct (start_delay_is_honoured tt linearInterpolator (sampleDelayed 50)
              linearInterpolator H1 H2 H3 H4 H5 H6) as (w1 & E & _ & Hs & Hw & _).
  exists w1. split; [exact E|]. split; [exact Hs|].
  apply Hw. reflexivity.
Defined.


Lemma ended_before_it_ran_witness :
  mPlayState (this sampleEnded) = NOT_STARTED
  /\ mStagingPlayState (this sampleEnded) = FINISHED
  /\ exists w1,
      pushStaging tt linearInterpolator sampleEnded = Ok (tt, w1)
      /\ mPlayState (this w1) = FINISHED
      /\ mStartTime (this w1) = 0.
Proof.
  assert (H1 : mPlayState (this sampleEnded) = NOT_STARTED) by reflexivity.
  assert (H2 : mStagingPlayState (this sampleEnded) = FINISHED) by reflexivity.
  assert (H3 : mHasStartValue (this sampleEnded) = true
               \/ exists v, getValue tt (target sampleEnded) = Ok v)
    by (right; exists (of_int 20); reflexivity).
  repeat (split; [first [exact H1 | exact H2]|]).
  destruct (ended_before_it_ran tt linearInterpolator sampleEnded H1 H2 H3)
    as (w1 & E & Hp & Hs & _).
  exists w1. split; [exact E|]. split; [exact Hp|exact Hs].
Defined.
(** ** The end of the run *)

(** For a duration below [2 ^ 24] the quotient stays below 1 until the
    elapsed time reaches the duration. *)
Lemma quotient_incomplete (n d : Z) :
  0 <= n < d -> d < 2 ^ 24 -> fge (fdiv (of_int n) (of_int d)) fone = false.
Proof.
  intros Hn Hd.
  destruct (Z.eq_dec n 0) as [->|Hn0].
  { rewrite quotient_zero by lia. reflexivity. }
  destruct n as [|p|p]; try lia. destruct d as [|q|q]; try lia.
  change (of_int (Zpos p)) with (of_int (cond_Zopp false (Zpos p))).
  change (of_int (Zpos q)) with (of_int (cond_Zopp false (Zpos q))).
  rewrite !of_int_exact by lia. unfold integer_float.
  pose proof (integer_mantissa p ltac:(lia)) as Hmp.
  pose proof (integer_mantissa q ltac:(lia)) as Hmq.
  pose proof (digits2_pos_small p ltac:(lia)) as Hdp.
  pose proof (digits2_pos_small q ltac:(lia)) as Hdq.
  assert (Hmono : Zpos (digits2_pos p) <= Zpos (digits2_pos q))
    by (apply digits2_pos_mono; lia).
  set (dp := Zpos (digits2_pos p)) in *. set (dq := Zpos (digits2_pos q)) in *.
  set (m1 := Z.to_pos (Zpos p * 2 ^ (24 - dp))).
  set (m2 := Z.to_pos (Zpos q * 2 ^ (24 - dq))).
  assert (H1 : Zpos m1 = Zpos p * 2 ^ (24 - dp)) by (unfold m1; rewrite Z2Pos.id; lia).
  assert (H2 : Zpos m2 = Zpos q * 2 ^ (24 - dq)) by (unfold m2; rewrite Z2Pos.id; lia).
  destruct (fdiv_normal m1 m2 (dp - 24) (dq - 24)) as [E HM]; try lia.
  rewrite E. clear E.
  set (j := if Zpos m1 <? Zpos m2 then 0 else 1) in *.
  set (M := rne_div (Zpos m1 * 2 ^ 24) (Zpos m2 * 2 ^ j)) in *.
  assert (Hj : j = 0 \/ j = 1) by (unfold j; destruct (Zpos m1 <? Zpos m2); lia).
  assert (Hlt : dp - 24 - (dq - 24) - 24 + j <= -25 \/
                (dp - 24 - (dq - 24) - 24 + j = -24 /\ M < 2 ^ 24)).
  { destruct (Z.eq_dec dp dq) as [Heq|Hne].
    - right. assert (Hm12 : Zpos m1 < Zpos m2).
      { rewrite H1, H2, Heq. apply Z.mul_lt_mono_pos_r; [apply pow2_pos; lia|lia]. }
      assert (Hj0 : j = 0) by (unfold j; destruct (Z.ltb_spec (Zpos m1) (Zpos m2)); lia).
      split; [lia|].
      assert (M <= 2 ^ 24 - 1); [|lia].
      unfold M. rewrite Hj0, Z.pow_0_r, Z.mul_1_r.
      apply rne_div_below; lia.
    - destruct Hj as [Hj0|Hj1]; [left; lia|].
      destruct (Z.eq_dec (dp + 1) dq) as [Heq|Hne2]; [|left; lia].
      right. split; [lia|].
      assert (M <= 2 ^ 24 - 1); [|lia].
      unfold M. rewrite Hj1. change (2 ^ 1) with 2.
      apply rne_div_below; lia. }
  destruct (normalize24_normal M (dp - 24 - (dq - 24) - 24 + j) HM)
    as (m & e & -> & Hm & He & _ & Hsmall & _).
  unfold fge. change (SFleb fone (S754_finite false m e))
    with (fle (S754_finite false 8388608 (-23)) (S754_finite false m e)).
  destruct (fle (S754_finite false 8388608 (-23)) (S754_finite false m e)) eqn:Ef;
    [|reflexivity].
  apply fle_finite_pos in Ef. unfold lex_le in Ef.
  destruct Hlt as [Hl|[Hl HMlt]].
  - lia.
  - destruct (Hsmall HMlt) as [He' _]. lia.
Qed.

Section EndFacts.

Context {V T : Type} `{ValueAccessor V T}.
Variable self : V.

(** X9.  With a duration below [2 ^ 24] ms a RUNNING animator finishes at the
    first evaluation whose frame time has reached start time plus
    duration, and at none before it. *)
Theorem animate_finishes_exactly_at_the_duration (w : World T) (interpolator : Interpolator) :
  mPlayState (this w) = RUNNING ->
  0 < mDuration (this w) < 2 ^ 24 ->
  0 <= mStartTime (this w) <= frameTimeMs (info w) ->
  frameTimeMs (info w) < 2 ^ 63 ->
  mInterpolator (this w) = Some interpolator ->
  (fge (rawFraction (this w) (info w)) fone = true
   <-> mStartTime (this w) + mDuration (this w) <= frameTimeMs (info w))
  /\ forall (b : bool) (w1 : World T),
      animate self w = Ok (b, w1) ->
      (b = true <-> mStartTime (this w) + mDuration (this w) <= frameTimeMs (info w))
      /\ (mPlayState (this w1) = FINISHED
          <-> mStartTime (this w) + mDuration (this w) <= frameTimeMs (info w)).
Proof.
  intros Hp Hd Hs Hf Hi.
  assert (Hiff : fge (rawFraction (this w) (info w)) fone = true
                 <-> mStartTime (this w) + mDuration (this w) <= frameTimeMs (info w)).
  { split.
    - intros Hge.
      destruct (Z.le_gt_cases (mStartTime (this w) + mDuration (this w)) (frameTimeMs (info w)))
        as [|Hgt]; [assumption|].
      rewrite rawFraction_running in Hge by (first [exact Hp | lia]).
      rewrite quotient_incomplete in Hge by lia. discriminate Hge.
    - intros Hle. apply rawFraction_complete; first [exact Hp | lia]. }
  split; [exact Hiff|].
  intros b w1. rewrite animate_eq. cbv zeta. rewrite Hp, Hi.
  cbn [PlayState_ltb PlayState_rank Z.ltb Z.compare].
  destruct (Z.gtb_spec (mStartTime (this w)) (frameTimeMs (info w))) as [Hgt|_]; [lia|].
  destruct (setValue self _ (target w)) as [t'|f]; [|discriminate].
  destruct (fge (rawFraction (this w) (info w)) fone) eqn:Ef.
  - cbn [set_mPlayState mPlayState PlayState_eqb PlayState_rank Z.eqb Pos.eqb].
    intros Q; inversion Q; subst; clear Q. cbn [this mPlayState set_mPlayState].
    pose proof (proj1 Hiff eq_refl). split; split; auto.
  - rewrite Hp. cbn [PlayState_eqb PlayState_rank Z.eqb Pos.eqb].
    intros Q; inversion Q; subst; clear Q. cbn [this with_hasAnimations]. rewrite Hp.
    split; split; intros Q; try discriminate Q; apply Hiff in Q; discriminate Q.
Qed.


End EndFacts.

Lemma animate_finishes_exactly_at_the_duration_witness :
  let w := newWorld (runningAnimator (of_int 20) (of_int 100) 100 1000) sampleCell 1099 in
  mPlayState (this w) = RUNNING
  /\ 0 < mDuration (this w) < 2 ^ 24
  /\ 0 <= mStartTime (this w) <= frameTimeMs (info w)
  /\ frameTimeMs (info w) < 2 ^ 63
  /\ mInterpolator (this w) = Some linearInterpolator
  /\ (fge (rawFraction (this w) (info w)) fone = true
      <-> mStartTime (this w) + mDuration (this w) <= frameTimeMs (info w)).
Proof.
  cbv zeta.
  assert (H1 : mPlayState (runningAnimator (of_int 20) (of_int 100) 100 1000) = RUNNING)
    by reflexivity.
  assert (H2 : 0 < 1000 < 2 ^ 24) by (split; reflexivity).
  assert (H3 : 0 <= 100 <= 1099) by (split; discriminate).
  assert (H4 : 1099 < 2 ^ 63) by reflexivity.
  repeat (split; [first [exact H1 | exact H2 | exact H3 | exact H4 | reflexivity]|]).
  exact (proj1 (animate_finishes_exactly_at_the_duration tt
                  (newWorld (runningAnimator (of_int 20) (of_int 100) 100 1000) sampleCell 1099)
                  linearInterpolator H1 H2 H3 H4 eq_refl)).
Defined.

(** ** The paint animator *)

Lemma nearest_integer_whole (n : Z) : nearest_integer (n * 2 ^ 149) = n.
Proof.
  unfold nearest_integer. symmetry.
  apply Z.div_unique with (r := 2 ^ 148); [|ring].
  left. split; [apply Z.pow_nonneg; lia|]. apply Z.pow_lt_mono_r; lia.
Qed.

(** On an integer-valued float the conversion to the alpha channel is
    clamping. *)
Lemma to_uint8_of_int (n : Z) :
  Z.abs n < 2 ^ 24 -> to_uint8 (of_int n) = Ok (clamp_uint8 n).
Proof.
  intros Hn. destruct (of_int_cases n Hn) as [[-> ->]|(s & p & -> & Hp & ->)]; [reflexivity|].
  pose proof (integer_mantissa p Hp) as Hm. pose proof (digits2_pos_small p Hp) as Hd.
  assert (Hv : valid (integer_float s p) = true).
  { unfold integer_float. apply valid_normal; [rewrite Z2Pos.id by lia; lia | lia]. }
  unfold integer_float in *. destruct s.
  - rewrite to_uint8_negative by (first [exact Hv | lia]).
    cbn [cond_Zopp]. rewrite clamp_uint8_low by lia. reflexivity.
  - rewrite to_uint8_large by (first [exact Hv | lia]).
    rewrite Z2Pos.id by lia. cbn [cond_Zopp].
    replace (Zpos p * 2 ^ (24 - Zpos (digits2_pos p)) * 2 ^ (Zpos (digits2_pos p) - 24 + 149))
      with (Zpos p * 2 ^ 149).
    + rewrite nearest_integer_whole. reflexivity.
    + rewrite <- Z.mul_assoc, <- pow2_add by lia. do 2 f_equal. lia.
Qed.

Section PaintFacts.

Context {P : Type} `{SkPaintOps P}.

(** X11.  Writing an integer-valued float to the paint's alpha stores the
    integer clamped to [0, 255]; so reading the alpha (an 8-bit value) and
    writing it back stores the alpha that was read. *)
Theorem paint_alpha_round_trip (paint : P) (n : Z) :
  Z.abs n < 2 ^ 24 ->
  setValue ALPHA (of_int n) paint = Ok (setAlpha (clamp_uint8 n) paint)
  /\ (0 <= getAlpha paint <= 255 ->
      exists v, getValue ALPHA paint = Ok v
                /\ setValue ALPHA v paint = Ok (setAlpha (getAlpha paint) paint)).
Proof.
  intros Hn. split.
  - cbn [setValue accessors]. rewrite to_uint8_of_int by exact Hn. reflexivity.
  - intros Ha. exists (of_int (getAlpha paint)). split; [reflexivity|].
    cbn [setValue accessors]. rewrite to_uint8_of_int by lia.
    unfold clamp_uint8.
    destruct (Z.ltb_spec (getAlpha paint) 0); [lia|].
    destruct (Z.gtb_spec (getAlpha paint) 255); [lia|]. reflexivity.
Qed.


(** X13.  A paint animator bound to a field other than STROKE_WIDTH and ALPHA
    aborts at the commit that has to read its start value and at every
    evaluation that writes a value. *)
Theorem unknown_paint_field_is_fatal
        (w : World P) (n : Z) (createDefaultInterpolator interpolator : Interpolator) :
  (mHasStartValue (this w) = false ->
   pushStaging (OtherField n) createDefaultInterpolator w
   = Abort (LOG_ALWAYS_FATAL "Unknown field"))
  /\ (PlayState_ltb (mPlayState (this w)) RUNNING = false ->
      mStartTime (this w) <= frameTimeMs (info w) ->
      mInterpolator (this w) = Some interpolator ->
      animate (OtherField n) w = Abort (LOG_ALWAYS_FATAL "Unknown field")).
Proof.
  split.
  - intros Hh. rewrite pushStaging_eq. cbv zeta. rewrite Hh. reflexivity.
  - intros Hp Hs Hi. rewrite animate_eq. cbv zeta. rewrite Hp, Hi.
    destruct (Z.gtb_spec (mStartTime (this w)) (frameTimeMs (info w))); [lia|reflexivity].
Qed.

End PaintFacts.

Lemma paint_alpha_round_trip_witness :
  Z.abs 300 < 2 ^ 24
  /\ setValue ALPHA (of_int 300) (mkPaint (of_int 1) 17) = Ok (mkPaint (of_int 1) 255)
  /\ setValue ALPHA (of_int 17) (mkPaint (of_int 1) 17) = Ok (mkPaint (of_int 1) 17).
Proof.
  assert (H1 : Z.abs 300 < 2 ^ 24) by reflexivity.
  assert (H2 : Z.abs 17 < 2 ^ 24) by reflexivity.
  split; [exact H1|]. split.
  - exact (proj1 (paint_alpha_round_trip (mkPaint (of_int 1) 17) 300 H1)).
  - exact (proj1 (paint_alpha_round_trip (mkPaint (of_int 1) 17) 17 H2)).
Defined.

(** ** The render property animator *)

Section AttachFacts.

Context {RP : Type} `{RenderPropertiesOps RP}.
Variable createDefaultInterpolator : Interpolator.


End AttachFacts.


(** ** The alpha conversion is monotone *)

Lemma nearest_integer_mono (u v : Z) : u <= v -> nearest_integer u <= nearest_integer v.
Proof. intros H. unfold nearest_integer. apply Z.div_le_mono; [reflexivity|lia]. Qed.

Lemma clamp_uint8_mono (a b : Z) : a <= b -> clamp_uint8 a <= clamp_uint8 b.
Proof.
  intros H. unfold clamp_uint8.
  destruct (Z.ltb_spec a 0), (Z.ltb_spec b 0), (Z.gtb_spec a 255), (Z.gtb_spec b 255); lia.
Qed.

(** The three ranges of [to_uint8]: below the largest float under one
    half it gives 0, on that float 1, and from one half on the clamped
    nearest integer; no float lies in between. *)
Lemma to_uint8_cases (x : float) (u : Z) :
  valid x = true -> ulps x = Some u -> Z.abs u < 2 ^ 180 ->
  exists c, to_uint8 x = Ok c
            /\ ((u < 16777215 * 2 ^ 124 /\ c = 0)
                \/ (u = 16777215 * 2 ^ 124 /\ c = 1)
                \/ (2 ^ 148 <= u /\ c = clamp_uint8 (nearest_integer u))).
Proof.
  intros Hv Hu Hr.
  destruct x as [s|s| |s m e]; cbn [ulps] in Hu; try discriminate Hu.
  - inversion Hu; subst u. exists 0. split; [destruct s; reflexivity|]. left. split; reflexivity.
  - destruct (valid_finite _ _ _ Hv) as [[He1 _] [Hm1 Hm0]].
    replace (-149 <=? e) with true in Hu by (symmetry; apply Z.leb_le; lia).
    inversion Hu; subst u; clear Hu.
    assert (Hpw : 0 < 2 ^ (e + 149)) by (apply pow2_pos; lia).
    assert (He : e <= 7).
    { apply (exponent_in_int_range s m e Hv).
      destruct s; [replace (Z.abs (Zneg m * 2 ^ (e + 149))) with (Zpos m * 2 ^ (e + 149)) in Hr by lia
                  |replace (Z.abs (Zpos m * 2 ^ (e + 149))) with (Zpos m * 2 ^ (e + 149)) in Hr by lia];
        exact Hr. }
    destruct s.
    + exists 0. split; [apply to_uint8_negative; assumption|]. left. split; [|reflexivity].
      assert (0 < 16777215 * 2 ^ 124) by reflexivity. lia.
    + destruct (Z.le_gt_cases e (-25)) as [Small|Large].
      * destruct (Z.eq_dec e (-25)) as [E25|N25].
        -- subst e. destruct (Pos.eq_dec m 16777215) as [->|Nm].
           ++ exists 1. split; [reflexivity|]. right. left. split; reflexivity.
           ++ assert (Hn : S754_finite false m (-25) <> below_half).
              { unfold below_half. intros Q. inversion Q. contradiction. }
              destruct (to_uint8_small m (-25) Hv Small Hn) as [T _].
              exists 0. split; [exact T|]. left. split; [|reflexivity].
              change (-25 + 149) with 124.
              assert (Zpos m < 16777215) by (change (2 ^ 24) with 16777216 in Hm1; lia).
              assert (0 < 2 ^ 124) by reflexivity. nia.
        -- assert (Hn : S754_finite false m e <> below_half).
           { unfold below_half. intros Q. inversion Q. lia. }
           destruct (to_uint8_small m e Hv Small Hn) as [T _].
           exists 0. split; [exact T|]. left. split; [|reflexivity].
           assert (2 ^ (e + 149) <= 2 ^ 123) by (apply Z.pow_le_mono_r; lia).
           assert (Zpos m * 2 ^ (e + 149) <= 16777215 * 2 ^ 123).
           { apply Z.mul_le_mono_nonneg; lia. }
           assert (16777215 * 2 ^ 123 < 16777215 * 2 ^ 124) by reflexivity. lia.
      * exists (clamp_uint8 (nearest_integer (Zpos m * 2 ^ (e + 149)))).
        split; [apply to_uint8_large; [exact Hv|lia]|].
        right. right. split; [|reflexivity].
        assert (Hm : 2 ^ 23 <= Zpos m) by (apply Hm0; lia).
        assert (Hp : 2 ^ 125 <= 2 ^ (e + 149)) by (apply Z.pow_le_mono_r; lia).
        assert (2 ^ 23 * 2 ^ 125 <= Zpos m * 2 ^ (e + 149)).
        { apply Z.mul_le_mono_nonneg; try assumption; discriminate. }
        change (2 ^ 23 * 2 ^ 125) with (2 ^ 148) in *. assumption.
Qed.

(** X16.  [to_uint8] is monotone on the finite floats below [2 ^ 31] in
    magnitude: a larger value never yields a smaller alpha. *)
Theorem to_uint8_is_monotone (x y : float) (u v : Z) :
  valid x = true -> valid y = true ->
  ulps x = Some u -> ulps y = Some v ->
  Z.abs u < 2 ^ 180 -> Z.abs v < 2 ^ 180 ->
  u <= v ->
  exists c c', to_uint8 x = Ok c /\ to_uint8 y = Ok c' /\ c <= c'.
Proof.
  intros Hvx Hvy Hu Hv Hru Hrv Huv.
  destruct (to_uint8_cases x u Hvx Hu Hru) as (c & Tc & Cc).
  destruct (to_uint8_cases y v Hvy Hv Hrv) as (c' & Tc' & Cc').
  exists c, c'. split; [exact Tc|]. split; [exact Tc'|].
  assert (Hone : forall w, 2 ^ 148 <= w -> 1 <= clamp_uint8 (nearest_integer w)).
  { intros w Hw. change 1 with (clamp_uint8 (nearest_integer (2 ^ 148))).
    apply clamp_uint8_mono, nearest_integer_mono. exact Hw. }
  assert (HU : 16777215 * 2 ^ 124 < 2 ^ 148) by reflexivity.
  destruct Cc as [[Hx ->]|[[Hx ->]|[Hx ->]]]; destruct Cc' as [[Hy ->]|[[Hy ->]|[Hy ->]]];
    try lia.
  - apply clamp_uint8_range.
  - apply Hone. exact Hy.
  - apply clamp_uint8_mono, nearest_integer_mono. exact Huv.
Qed.

Lemma to_uint8_is_monotone_witness :
  valid (of_int 100) = true /\ valid (decimal 1276 1) = true
  /\ ulps (of_int 100) = Some (13107200 * 2 ^ 132)
  /\ ulps (decimal 1276 1) = Some (16724787 * 2 ^ 132)
  /\ 13107200 * 2 ^ 132 <= 16724787 * 2 ^ 132
  /\ exists c c', to_uint8 (of_int 100) = Ok c /\ to_uint8 (decimal 1276 1) = Ok c' /\ c <= c'.
Proof.
  assert (H1 : valid (of_int 100) = true) by reflexivity.
  assert (H2 : valid (decimal 1276 1) = true) by reflexivity.
  assert (H3 : ulps (of_int 100) = Some (13107200 * 2 ^ 132)) by reflexivity.
  assert (H4 : ulps (decimal 1276 1) = Some (16724787 * 2 ^ 132)) by reflexivity.
  assert (H5 : Z.abs (13107200 * 2 ^ 132) < 2 ^ 180) by reflexivity.
  assert (H6 : Z.abs (16724787 * 2 ^ 132) < 2 ^ 180) by reflexivity.
  assert (H7 : 13107200 * 2 ^ 132 <= 16724787 * 2 ^ 132) by discriminate.
  repeat (split; [first [exact H1 | exact H2 | exact H3 | exact H4 | exact H7]|]).
  exact (to_uint8_is_monotone (of_int 100) (decimal 1276 1) _ _ H1 H2 H3 H4 H5 H6 H7).
Defined.
(** ** Rounding is monotone *)

Lemma mantissa24_bounds (p : positive) : 2 ^ 23 <= mantissa24 p <= 2 ^ 24.
Proof. exact (of_int_mantissa_bounds p). Qed.

Lemma mantissa24_small (p : positive) :
  Zpos (digits2_pos p) <= 24 ->
  mantissa24 p = Zpos p * 2 ^ (24 - Zpos (digits2_pos p)).
Proof.
  intros Hd. unfold mantissa24. cbv zeta.
  replace (Z.max 0 (Zpos (digits2_pos p) - 24)) with 0 by lia.
  replace (Z.max 0 (24 - Zpos (digits2_pos p))) with (24 - Zpos (digits2_pos p)) by lia.
  rewrite Z.pow_0_r, rne_div_1. reflexivity.
Qed.

Lemma mantissa24_big (p : positive) :
  24 <= Zpos (digits2_pos p) ->
  mantissa24 p = rne_div (Zpos p) (2 ^ (Zpos (digits2_pos p) - 24)).
Proof.
  intros Hd. unfold mantissa24. cbv zeta.
  replace (Z.max 0 (Zpos (digits2_pos p) - 24)) with (Zpos (digits2_pos p) - 24) by lia.
  replace (Z.max 0 (24 - Zpos (digits2_pos p))) with 0 by lia.
  rewrite Z.pow_0_r, Z.mul_1_r. reflexivity.
Qed.

Lemma binary_round_as_scaled (s : bool) (p : positive) (ez : Z) :
  -149 <= ez ->
  -149 <= ez + Zpos (digits2_pos p) - 24 <= 103 ->
  binary_round prec emax s p ez = round_scaled s (- ez) (Zpos p).
Proof.
  intros Hez Hr. unfold round_scaled.
  replace (Zpos (digits2_pos p) - 24 - - ez) with (ez + Zpos (digits2_pos p) - 24) by lia.
  destruct (Z.lt_ge_cases (Zpos (digits2_pos p)) 24) as [Hlt|Hge].
  - pose proof (binary_round_small s p ez) as B. cbv zeta in B.
    destruct B as [E Hm]; try lia. rewrite E, mantissa24_small by lia.
    unfold normalize24.
    destruct (Z.eqb_spec (Zpos p * 2 ^ (24 - Zpos (digits2_pos p))) (2 ^ 24)); [lia|reflexivity].
  - pose proof (binary_round_big s p ez) as B. cbv zeta in B.
    destruct B as [E Hm]; try lia. rewrite E, mantissa24_big by lia. reflexivity.
Qed.

Lemma binary_round_aux_as_scaled (s : bool) (p : positive) (ez : Z) :
  24 <= Zpos (digits2_pos p) ->
  -149 <= ez + Zpos (digits2_pos p) - 24 <= 103 ->
  binary_round_aux prec emax s (Zpos p) ez loc_Exact = round_scaled s (- ez) (Zpos p).
Proof.
  intros Hd Hr. unfold round_scaled.
  replace (Zpos (digits2_pos p) - 24 - - ez) with (ez + Zpos (digits2_pos p) - 24) by lia.
  pose proof (mantissa24_bounds p) as HM. rewrite mantissa24_big in * by lia.
  apply binary_round_aux_rne with (a := Zpos p) (b := 1);
    first [ apply stands_for_exact
          | cbn [Zdigits2]; rewrite fexp_eq; lia
          | replace (ez + Zpos (digits2_pos p) - 24 - ez) with (Zpos (digits2_pos p) - 24) by lia;
            rewrite Z.mul_1_l; reflexivity
          | lia ].
Qed.

Lemma rne_div_pow_shift (n a b c : Z) :
  0 <= a -> 0 <= b -> 0 <= c ->
  rne_div (n * 2 ^ (a + c)) (2 ^ (b + c)) = rne_div (n * 2 ^ a) (2 ^ b).
Proof.
  intros Ha Hb Hc. rewrite !pow2_add by lia.
  replace (n * (2 ^ a * 2 ^ c)) with (2 ^ c * (n * 2 ^ a)) by ring.
  replace (2 ^ b * 2 ^ c) with (2 ^ c * 2 ^ b) by ring.
  apply rne_div_scale; apply pow2_pos; lia.
Qed.

Lemma mantissa24_shift (p q : positive) (j : Z) :
  0 <= j -> Zpos q = Zpos p * 2 ^ j -> mantissa24 q = mantissa24 p.
Proof.
  intros Hj Hq. unfold mantissa24. cbv zeta.
  rewrite (digits2_pos_shift p q j Hj Hq), Hq.
  pose proof (digits2_pos_bounds p) as [L _].
  set (d := Zpos (digits2_pos p)).
  assert (Hd : 1 <= d) by (unfold d; lia).
  rewrite <- Z.mul_assoc, <- pow2_add by lia.
  destruct (Z.le_gt_cases (d + j) 24) as [H1|H1].
  - replace (Z.max 0 (d + j - 24)) with 0 by lia.
    replace (Z.max 0 (d - 24)) with 0 by lia.
    do 2 f_equal. f_equal. lia.
  - destruct (Z.le_gt_cases d 24) as [H2|H2].
    + replace (Z.max 0 (d - 24)) with 0 by lia.
      replace (Z.max 0 (24 - d)) with (24 - d) by lia.
      replace (Z.max 0 (24 - (d + j))) with 0 by lia.
      replace (Z.max 0 (d + j - 24)) with (d + j - 24) by lia.
      replace (j + 0) with ((24 - d) + (d + j - 24)) by lia.
      replace (2 ^ (d + j - 24)) with (2 ^ (0 + (d + j - 24))) by (f_equal; lia).
      rewrite rne_div_pow_shift by lia. reflexivity.
    + replace (Z.max 0 (24 - d)) with 0 by lia.
      replace (Z.max 0 (24 - (d + j))) with 0 by lia.
      replace (Z.max 0 (d + j - 24)) with (d - 24 + j) by lia.
      replace (Z.max 0 (d - 24)) with (d - 24) by lia.
      replace (j + 0) with (0 + j) by lia.
      rewrite rne_div_pow_shift by lia. reflexivity.
Qed.

Lemma round_scaled_shift (s : bool) (k j u : Z) :
  0 <= j -> 0 <= u -> round_scaled s (k + j) (u * 2 ^ j) = round_scaled s k u.
Proof.
  intros Hj Hu. assert (Hp : 0 < 2 ^ j) by (apply pow2_pos; lia).
  destruct u as [|p|p]; try lia; [reflexivity|].
  destruct (Zpos p * 2 ^ j) as [|q|q] eqn:Eq; try lia.
  unfold round_scaled.
  rewrite (mantissa24_shift p q j Hj) by (symmetry; exact Eq).
  rewrite (digits2_pos_shift p q j Hj) by (symmetry; exact Eq).
  f_equal. lia.
Qed.

Lemma round_scaled_nonneg (k u : Z) : nonneg_finite (round_scaled false k u).
Proof.
  destruct u; cbn [round_scaled]; try exact I. apply normalize24_nonneg.
Qed.

Lemma round_scaled_mono (k u u' : Z) :
  0 <= u <= u' -> fle (round_scaled false k u) (round_scaled false k u') = true.
Proof.
  intros Hu. destruct u as [|p|p]; try lia.
  - apply fle_zero_l, round_scaled_nonneg.
  - destruct u' as [|p'|p']; try lia. unfold round_scaled.
    apply fle_normalize24; try apply mantissa24_bounds.
    assert (Hpp : (p <= p')%positive) by lia.
    pose proof (of_int_mono_pos p p') as Hm. cbv zeta in Hm.
    pose proof (digits2_pos_mono p p' Hpp) as Hd.
    unfold lex_le, mantissa24 in *. cbv zeta.
    destruct (Z.eq_dec (Zpos (digits2_pos p)) (Zpos (digits2_pos p'))) as [E|N].
    + right. split; [lia|]. rewrite <- E.
      apply rne_div_mono; [apply pow2_pos; lia|].
      apply Z.mul_le_mono_nonneg_r; [apply Z.pow_nonneg; lia|lia].
    + left. lia.
Qed.

Lemma round_scaled_float (s : bool) (m : positive) (e k : Z) :
  2 ^ 23 <= Zpos m < 2 ^ 24 -> 0 <= e + k ->
  round_scaled s k (Zpos m * 2 ^ (e + k)) = S754_finite s m e.
Proof.
  intros Hm Hk.
  replace k with (- e + (e + k)) at 1 by lia.
  rewrite round_scaled_shift by lia.
  unfold round_scaled.
  assert (Hd : Zpos (digits2_pos m) = 24)
    by (apply digits2_pos_unique; change (2 ^ (24 - 1)) with (2 ^ 23); lia).
  rewrite mantissa24_small by lia. rewrite Hd. change (2 ^ (24 - 24)) with 1.
  rewrite Z.mul_1_r. unfold normalize24.
  destruct (Z.eqb_spec (Zpos m) (2 ^ 24)); [lia|].
  rewrite Pos2Z.id. f_equal. lia.
Qed.
Lemma digits2_pos_between (p : positive) (lo hi : Z) :
  0 <= lo -> 2 ^ lo <= Zpos p < 2 ^ hi -> lo < Zpos (digits2_pos p) <= hi.
Proof.
  intros Hlo [L U]. pose proof (digits2_pos_bounds p) as [L' U'].
  set (d := Zpos (digits2_pos p)) in *. assert (Hd : 1 <= d) by (unfold d; lia). split.
  - destruct (Z.lt_ge_cases lo d) as [|Hge]; [assumption|].
    assert (2 ^ d <= 2 ^ lo) by (apply Z.pow_le_mono_r; lia). lia.
  - destruct (Z.le_gt_cases d hi) as [|Hgt]; [assumption|].
    destruct (Z.le_gt_cases 0 hi) as [Hhi|Hhi].
    + assert (2 ^ hi <= 2 ^ (d - 1)) by (apply Z.pow_le_mono_r; lia). lia.
    + rewrite Z.pow_neg_r in U by lia. lia.
Qed.

Lemma magnitude_nonneg (x : float) : 0 <= magnitude x.
Proof.
  destruct x as [s|s| |s m e]; cbn [magnitude]; try lia.
Qed.

Lemma zero_or_normal_nonneg (lo hi : Z) (x : float) :
  zero_or_normal lo hi x -> nonneg_finite x.
Proof. intros [->|(m & e & -> & _)]; exact I. Qed.

Lemma zero_or_normal_wider (lo hi lo' hi' : Z) (x : float) :
  lo' <= lo -> hi <= hi' -> zero_or_normal lo hi x -> zero_or_normal lo' hi' x.
Proof.
  intros Hl Hh [->|(m & e & -> & Hm & He)]; [left; reflexivity|].
  right. exists m, e. repeat split; lia.
Qed.

(** A zero or normal float is the rounding of its own magnitude. *)
Lemma round_scaled_magnitude (lo hi : Z) (x : float) :
  -149 <= lo -> zero_or_normal lo hi x -> round_scaled false 149 (magnitude x) = x.
Proof.
  intros Hlo [->|(m & e & -> & Hm & He)]; [reflexivity|].
  cbn [magnitude]. apply round_scaled_float; lia.
Qed.

(** The order of zero or normal floats is the order of their magnitudes. *)
Lemma fle_magnitude (lo hi : Z) (x y : float) :
  -149 <= lo -> zero_or_normal lo hi x -> zero_or_normal lo hi y ->
  fle x y = true -> magnitude x <= magnitude y.
Proof.
  intros Hlo [->|(m & e & -> & Hm & He)] Hy Hle.
  - apply magnitude_nonneg.
  - destruct Hy as [->|(m' & e' & -> & Hm' & He')]; [discriminate Hle|].
    apply fle_finite_pos in Hle. cbn [magnitude]. destruct Hle as [Hlt|[-> Hmm]].
    + replace (e' + 149) with ((e + 149) + (e' - e)) by lia.
      rewrite (pow2_add (e + 149) (e' - e)) by lia.
      assert (0 < 2 ^ (e + 149)) by (apply pow2_pos; lia).
      assert (2 ^ 1 <= 2 ^ (e' - e)) by (apply Z.pow_le_mono_r; lia).
      change (2 ^ 1) with 2 in *.
      assert (Hq : Zpos m <= Zpos m' * 2 ^ (e' - e)).
      { change (2 ^ 24) with 16777216 in *. change (2 ^ 23) with 8388608 in *. nia. }
      rewrite Z.mul_assoc, (Z.mul_comm (Zpos m' * 2 ^ (e + 149))), Z.mul_assoc.
      rewrite (Z.mul_comm (2 ^ (e' - e))).
      apply Z.mul_le_mono_nonneg_r; lia.
    + apply Z.mul_le_mono_nonneg_r; [apply Z.pow_nonneg; lia|lia].
Qed.

(** The rounding of a positive scaled integer in the normal range is a
    normal float. *)
Lemma round_scaled_normal (k : Z) (p : positive) :
  zero_or_normal (Zpos (digits2_pos p) - 24 - k) (Zpos (digits2_pos p) - 24 - k + 1)
                 (round_scaled false k (Zpos p)).
Proof.
  unfold round_scaled.
  destruct (normalize24_normal (mantissa24 p) (Zpos (digits2_pos p) - 24 - k)
              (mantissa24_bounds p)) as (m & e & -> & Hm & He & _).
  right. exists m, e. repeat split; lia.
Qed.

(** Products of positive normal floats. *)
Lemma fmul_as_scaled (s : bool) (mx my : positive) (ex ey : Z) :
  2 ^ 23 <= Zpos mx < 2 ^ 24 -> 2 ^ 23 <= Zpos my < 2 ^ 24 ->
  -149 <= ex -> -149 <= ey -> -172 <= ex + ey <= 79 ->
  fmul (S754_finite s mx ex) (S754_finite false my ey)
  = round_scaled s 298 (magnitude (S754_finite s mx ex) * magnitude (S754_finite false my ey))
  /\ 46 < Zpos (digits2_pos (mx * my)) <= 48.
Proof.
  intros Hx Hy Hex Hey Hsum.
  assert (Hd : 46 < Zpos (digits2_pos (mx * my)) <= 48).
  { apply digits2_pos_between; [lia|]. rewrite Pos2Z.inj_mul.
    change (2 ^ 46) with (2 ^ 23 * 2 ^ 23). change (2 ^ 48) with (2 ^ 24 * 2 ^ 24). nia. }
  split; [|exact Hd].
  unfold fmul, SFmul. replace (xorb s false) with s by (destruct s; reflexivity).
  rewrite binary_round_aux_as_scaled by lia.
  cbn [magnitude].
  replace (Zpos mx * 2 ^ (ex + 149) * (Zpos my * 2 ^ (ey + 149)))
    with (Zpos (mx * my) * 2 ^ (ex + ey + 298)).
  - replace 298 with (- (ex + ey) + (ex + ey + 298)) at 1 by lia.
    rewrite round_scaled_shift by lia. reflexivity.
  - rewrite Pos2Z.inj_mul. replace (ex + ey + 298) with ((ex + 149) + (ey + 149)) by lia.
    rewrite (pow2_add (ex + 149) (ey + 149)) by lia. ring.
Qed.

Lemma fmul_zero_or_normal (x y : float) :
  zero_or_normal (-23) 0 x -> zero_or_normal (-87) (-23) y ->
  fmul x y = round_scaled false 298 (magnitude x * magnitude y)
  /\ zero_or_normal (-87) 2 (fmul x y).
Proof.
  intros [->|(mx & ex & -> & Hmx & Hex)] [->|(my & ey & -> & Hmy & Hey)].
  - split; [reflexivity|left; reflexivity].
  - split; [reflexivity|left; reflexivity].
  - split; [cbn [magnitude]; rewrite Z.mul_0_r; reflexivity|left; reflexivity].
  - destruct (fmul_as_scaled false mx my ex ey) as [E Hd]; try lia.
    split; [exact E|]. rewrite E. cbn [magnitude].
    assert (Hpos : 0 < Zpos mx * 2 ^ (ex + 149) * (Zpos my * 2 ^ (ey + 149))).
    { assert (0 < 2 ^ (ex + 149)) by (apply pow2_pos; lia).
      assert (0 < 2 ^ (ey + 149)) by (apply pow2_pos; lia). nia. }
    destruct (Zpos mx * 2 ^ (ex + 149) * (Zpos my * 2 ^ (ey + 149))) as [|q|q] eqn:Eq;
      try lia.
    assert (Hq : Zpos q = Zpos (mx * my) * 2 ^ (ex + ey + 298)).
    { rewrite <- Eq, Pos2Z.inj_mul.
      replace (ex + ey + 298) with ((ex + 149) + (ey + 149)) by lia.
      rewrite (pow2_add (ex + 149) (ey + 149)) by lia. ring. }
    pose proof (digits2_pos_shift (mx * my) q (ex + ey + 298) ltac:(lia) Hq) as Hdq.
    eapply zero_or_normal_wider; [| |apply round_scaled_normal]; lia.
Qed.

Lemma fmul_opp (x y : float) :
  zero_or_normal (-23) 0 x -> zero_or_normal (-87) (-23) y ->
  fmul (SFopp x) y = SFopp (fmul x y).
Proof.
  intros [->|(mx & ex & -> & Hmx & Hex)] [->|(my & ey & -> & Hmy & Hey)]; try reflexivity.
  cbn [SFopp negb].
  destruct (fmul_as_scaled true mx my ex ey) as [E1 _]; try lia.
  destruct (fmul_as_scaled false mx my ex ey) as [E2 _]; try lia.
  rewrite E1, E2. cbn [magnitude].
  assert (Hpos : 0 < Zpos mx * 2 ^ (ex + 149) * (Zpos my * 2 ^ (ey + 149))).
  { assert (0 < 2 ^ (ex + 149)) by (apply pow2_pos; lia).
    assert (0 < 2 ^ (ey + 149)) by (apply pow2_pos; lia). nia. }
  destruct (Zpos mx * 2 ^ (ex + 149) * (Zpos my * 2 ^ (ey + 149))) as [|q|q]; try lia.
  unfold round_scaled, normalize24.
  destruct (mantissa24 q =? 2 ^ 24); reflexivity.
Qed.
(** Sums of a positive normal float and a normal float of either sign
    that does not exceed it. *)
Lemma fadd_as_scaled (sy : bool) (mx my : positive) (ex ey : Z) :
  2 ^ 23 <= Zpos mx < 2 ^ 24 -> 2 ^ 23 <= Zpos my < 2 ^ 24 ->
  -126 <= ex <= 100 -> -126 <= ey <= 100 ->
  (sy = true -> Zpos my * 2 ^ (ey + 149) <= Zpos mx * 2 ^ (ex + 149)) ->
  fadd (S754_finite false mx ex) (S754_finite sy my ey)
  = round_scaled false 149
      (Zpos mx * 2 ^ (ex + 149) + cond_Zopp sy (Zpos my * 2 ^ (ey + 149))).
Proof.
  intros Hx Hy Hex Hey Hle. unfold fadd, SFadd. cbv zeta.
  set (ez := Z.min ex ey). set (hi := Z.max ex ey).
  rewrite !shl_align_fst by (unfold ez; lia). cbn [cond_Zopp].
  set (A := Zpos mx * 2 ^ (ex - ez)). set (B := Zpos my * 2 ^ (ey - ez)).
  assert (Hpz : 0 < 2 ^ (ez + 149)) by (apply pow2_pos; unfold ez; lia).
  assert (HX : Zpos mx * 2 ^ (ex + 149) = A * 2 ^ (ez + 149)).
  { unfold A. rewrite <- Z.mul_assoc, <- pow2_add by (unfold ez; lia). do 2 f_equal. lia. }
  assert (HY : Zpos my * 2 ^ (ey + 149) = B * 2 ^ (ez + 149)).
  { unfold B. rewrite <- Z.mul_assoc, <- pow2_add by (unfold ez; lia). do 2 f_equal. lia. }
  assert (HA : 0 < A < 2 ^ (24 + hi - ez)).
  { unfold A. assert (0 < 2 ^ (ex - ez)) by (apply pow2_pos; unfold ez; lia).
    assert (2 ^ (ex - ez) <= 2 ^ (hi - ez)) by (apply Z.pow_le_mono_r; unfold hi, ez; lia).
    replace (24 + hi - ez) with (24 + (hi - ez)) by lia.
    rewrite pow2_add by (unfold hi, ez; lia). nia. }
  assert (HB : 0 < B < 2 ^ (24 + hi - ez)).
  { unfold B. assert (0 < 2 ^ (ey - ez)) by (apply pow2_pos; unfold ez; lia).
    assert (2 ^ (ey - ez) <= 2 ^ (hi - ez)) by (apply Z.pow_le_mono_r; unfold hi, ez; lia).
    replace (24 + hi - ez) with (24 + (hi - ez)) by lia.
    rewrite pow2_add by (unfold hi, ez; lia). nia. }
  assert (HS : 0 <= A + cond_Zopp sy B < 2 ^ (25 + hi - ez)).
  { replace (25 + hi - ez) with (1 + (24 + hi - ez)) by lia.
    rewrite pow2_add by (unfold hi, ez; lia). change (2 ^ 1) with 2.
    destruct sy; cbn [cond_Zopp]; [|lia].
    specialize (Hle eq_refl). rewrite HX, HY in Hle.
    assert (B <= A) by nia. lia. }
  rewrite HX, HY.
  replace (A * 2 ^ (ez + 149) + cond_Zopp sy (B * 2 ^ (ez + 149)))
    with ((A + cond_Zopp sy B) * 2 ^ (ez + 149)) by (destruct sy; cbn [cond_Zopp]; ring).
  transitivity (round_scaled false (- ez + (ez + 149))
                             ((A + cond_Zopp sy B) * 2 ^ (ez + 149)));
    [|f_equal; lia].
  rewrite round_scaled_shift by (unfold ez; lia).
  destruct (A + cond_Zopp sy B) as [|q|q] eqn:Eq; try lia; [reflexivity|].
  cbn [binary_normalize].
  assert (Hd : 0 < Zpos (digits2_pos q) <= 25 + hi - ez).
  { apply digits2_pos_between; [lia|]. change (2 ^ 0) with 1. lia. }
  apply binary_round_as_scaled; unfold hi, ez in *; lia.
Qed.

Lemma fadd_zero_or_normal (x y : float) :
  zero_or_normal (-23) 0 x -> zero_or_normal (-87) 2 y ->
  fadd x y = round_scaled false 149 (magnitude x + magnitude y).
Proof.
  intros [->|(mx & ex & -> & Hmx & Hex)] [->|(my & ey & -> & Hmy & Hey)].
  - reflexivity.
  - cbn [magnitude]. rewrite Z.add_0_l, round_scaled_float by lia. reflexivity.
  - cbn [magnitude]. rewrite Z.add_0_r, round_scaled_float by lia. reflexivity.
  - cbn [magnitude]. rewrite (fadd_as_scaled false) by (first [lia | discriminate]).
    reflexivity.
Qed.

Lemma fadd_opp_zero_or_normal (x y : float) :
  zero_or_normal (-23) 0 x -> zero_or_normal (-87) 2 y ->
  magnitude y <= magnitude x ->
  fadd x (SFopp y) = round_scaled false 149 (magnitude x - magnitude y).
Proof.
  intros [->|(mx & ex & -> & Hmx & Hex)] [->|(my & ey & -> & Hmy & Hey)] Hle.
  - reflexivity.
  - exfalso. cbn [magnitude] in Hle.
    assert (0 < 2 ^ (ey + 149)) by (apply pow2_pos; lia). nia.
  - cbn [magnitude SFopp]. rewrite Z.sub_0_r, round_scaled_float by lia. reflexivity.
  - cbn [magnitude SFopp negb] in *. rewrite (fadd_as_scaled true) by (first [lia | intros _; exact Hle]).
    cbn [cond_Zopp]. f_equal.
Qed.
Lemma of_int_zero_or_normal (n : Z) :
  0 <= n < 2 ^ 24 ->
  zero_or_normal (-23) 0 (of_int n) /\ magnitude (of_int n) = n * 2 ^ 149.
Proof.
  intros Hn. destruct n as [|p|p]; try lia.
  - split; [left; reflexivity|reflexivity].
  - change (of_int (Zpos p)) with (of_int (cond_Zopp false (Zpos p))).
    rewrite of_int_exact by lia. unfold integer_float.
    pose proof (integer_mantissa p ltac:(lia)) as Hm.
    pose proof (digits2_pos_small p ltac:(lia)) as Hd.
    split.
    + right. eexists _, _. split; [reflexivity|]. rewrite Z2Pos.id by lia. split; lia.
    + cbn [magnitude]. rewrite Z2Pos.id by lia.
      rewrite <- Z.mul_assoc, <- pow2_add by lia. do 2 f_equal. lia.
Qed.

Lemma of_int_opp (n : Z) : 0 < n < 2 ^ 24 -> of_int (- n) = SFopp (of_int n).
Proof.
  intros Hn. destruct n as [|p|p]; try lia.
  change (of_int (- Zpos p)) with (of_int (cond_Zopp true (Zpos p))).
  change (of_int (Zpos p)) with (of_int (cond_Zopp false (Zpos p))).
  rewrite !of_int_exact by lia. reflexivity.
Qed.

Lemma fone_zero_or_normal : zero_or_normal (-87) (-23) fone.
Proof. right. exists 8388608%positive, (-23). repeat split; lia. Qed.

(** The fraction [animate] passes to the interpolator is zero or a normal
    float of exponent between -87 and -23. *)
Lemma clampedFraction_shape (a : BaseRenderNodeAnimator) (i : TreeInfo) :
  mPlayState a = RUNNING -> 0 < mDuration a < 2 ^ 63 ->
  0 <= mStartTime a <= frameTimeMs i -> frameTimeMs i < 2 ^ 63 ->
  zero_or_normal (-87) (-23) (clampedFraction a i).
Proof.
  intros Hp Hd Hs Hf. unfold clampedFraction.
  destruct (fge (rawFraction a i) fone) eqn:Ege; [apply fone_zero_or_normal|].
  pose proof (rawFraction_nonneg a i Hp Hd Hs Hf) as Hnn.
  assert (Hle : fle (rawFraction a i) fone = true).
  { apply fle_total; [exact fone_nonneg | exact Hnn | exact Ege]. }
  rewrite rawFraction_running in * by (first [exact Hp | lia]).
  destruct (Z.eq_dec (frameTimeMs i - mStartTime a) 0) as [E0|N0].
  { rewrite E0, quotient_zero by lia. left. reflexivity. }
  destruct (of_int_normal (frameTimeMs i - mStartTime a)) as (m1 & e1 & E1 & Hm1 & He1); [lia|].
  destruct (of_int_normal (mDuration a)) as (m2 & e2 & E2 & Hm2 & He2); [lia|].
  rewrite E1, E2 in *.
  destruct (fdiv_normal m1 m2 e1 e2 Hm1 Hm2) as [E HM]; [lia|].
  rewrite E in *.
  destruct (normalize24_normal _ (e1 - e2 - 24 + (if Zpos m1 <? Zpos m2 then 0 else 1)) HM)
    as (m & e & En & Hm & He & _).
  rewrite En in *. apply fle_finite_pos in Hle. unfold lex_le in Hle.
  right. exists m, e. split; [reflexivity|]. split; [exact Hm|].
  destruct (Zpos m1 <? Zpos m2); lia.
Qed.

Section Values.

Variables (from delta : Z).
Hypothesis from_range : 0 <= from < 2 ^ 24.
Hypothesis delta_range : 0 <= delta < 2 ^ 24.

Variables (f f' : float).
Hypothesis f_shape : zero_or_normal (-87) (-23) f.
Hypothesis f'_shape : zero_or_normal (-87) (-23) f'.
Hypothesis f_le_f' : fle f f' = true.
Hypothesis f'_le_1 : fle f' fone = true.

Lemma fraction_magnitudes :
  magnitude f <= magnitude f' /\ magnitude f' <= magnitude fone.
Proof.
  split.
  - apply (fle_magnitude (-87) (-23)); first [lia | assumption].
  - apply (fle_magnitude (-87) (-23)); first [lia | assumption | apply fone_zero_or_normal].
Qed.

(** The magnitude of [|delta| * x] grows with [x] and stays within
    [|delta|]. *)
Lemma product_magnitudes :
  magnitude (fmul (of_int delta) f) <= magnitude (fmul (of_int delta) f')
  /\ magnitude (fmul (of_int delta) f') <= delta * 2 ^ 149.
Proof.
  destruct (of_int_zero_or_normal delta delta_range) as [HD HmD].
  destruct fraction_magnitudes as [H1 H2].
  pose proof (magnitude_nonneg (of_int delta)) as HD0.
  destruct (fmul_zero_or_normal (of_int delta) f HD f_shape) as [Ef Zf].
  destruct (fmul_zero_or_normal (of_int delta) f' HD f'_shape) as [Ef' Zf'].
  destruct (fmul_zero_or_normal (of_int delta) fone HD fone_zero_or_normal) as [E1 Z1].
  pose proof (magnitude_nonneg f) as Hf0.
  split.
  - apply (fle_magnitude (-87) 2); [lia | assumption | assumption |].
    rewrite Ef, Ef'. apply round_scaled_mono. split; [nia|].
    apply Z.mul_le_mono_nonneg_l; assumption.
  - rewrite <- HmD. rewrite <- (fmul_one (of_int delta)) at 2
      by (apply valid_of_int; lia).
    apply (fle_magnitude (-87) 2); [lia | assumption | assumption |].
    rewrite Ef', E1. apply round_scaled_mono.
    pose proof (magnitude_nonneg f'). split; [nia|].
    apply Z.mul_le_mono_nonneg_l; assumption.
Qed.

(** Moving up from [from] by [delta]: the value never falls below
    [from], never moves back, and never passes [from + delta]. *)
Lemma value_increasing :
  from + delta < 2 ^ 24 ->
  let v := fun x => fadd (of_int from) (fmul (of_int delta) x) in
  fle (of_int from) (v f) = true
  /\ fle (v f) (v f') = true
  /\ fle (v f') (of_int (from + delta)) = true.
Proof.
  intros Hsum v. unfold v.
  destruct (of_int_zero_or_normal from from_range) as [HF HmF].
  destruct (of_int_zero_or_normal delta delta_range) as [HD HmD].
  destruct (of_int_zero_or_normal (from + delta) ltac:(lia)) as [HS HmS].
  destruct (fmul_zero_or_normal (of_int delta) f HD f_shape) as [_ Zf].
  destruct (fmul_zero_or_normal (of_int delta) f' HD f'_shape) as [_ Zf'].
  destruct product_magnitudes as [P1 P2].
  pose proof (magnitude_nonneg (fmul (of_int delta) f)) as R0.
  pose proof (magnitude_nonneg (of_int from)) as F0.
  rewrite !fadd_zero_or_normal by assumption.
  split; [|split].
  - rewrite <- (round_scaled_magnitude (-23) 0 (of_int from)) at 1 by (first [lia | assumption]).
    apply round_scaled_mono. lia.
  - apply round_scaled_mono. lia.
  - rewrite <- (round_scaled_magnitude (-23) 0 (of_int (from + delta)))
      by (first [lia | assumption]).
    apply round_scaled_mono. rewrite HmS, HmF. lia.
Qed.

(** Moving down from [from] by [delta <= from]: the mirror image. *)
Lemma value_decreasing :
  0 < delta <= from ->
  let v := fun x => fadd (of_int from) (fmul (of_int (- delta)) x) in
  fle (of_int (from - delta)) (v f') = true
  /\ fle (v f') (v f) = true
  /\ fle (v f) (of_int from) = true.
Proof.
  intros Hd v. unfold v.
  destruct (of_int_zero_or_normal from from_range) as [HF HmF].
  destruct (of_int_zero_or_normal delta delta_range) as [HD HmD].
  destruct (of_int_zero_or_normal (from - delta) ltac:(lia)) as [HS HmS].
  destruct (fmul_zero_or_normal (of_int delta) f HD f_shape) as [_ Zf].
  destruct (fmul_zero_or_normal (of_int delta) f' HD f'_shape) as [_ Zf'].
  destruct product_magnitudes as [P1 P2].
  pose proof (magnitude_nonneg (fmul (of_int delta) f)) as R0.
  rewrite of_int_opp by lia. rewrite !fmul_opp by assumption.
  rewrite !fadd_opp_zero_or_normal by (first [assumption | lia]).
  split; [|split].
  - rewrite <- (round_scaled_magnitude (-23) 0 (of_int (from - delta)))
      by (first [lia | assumption]).
    apply round_scaled_mono. rewrite HmS, HmF. lia.
  - apply round_scaled_mono. lia.
  - rewrite <- (round_scaled_magnitude (-23) 0 (of_int from)) at 2 by (first [lia | assumption]).
    apply round_scaled_mono. lia.
Qed.

End Values.

(** X17.  With the linear interpolator and non-negative integer start and
    final values below [2 ^ 24], the values a RUNNING animator writes
    never leave the interval between start and final value and never move
    back: at a later frame time the value is at least as close to the final
    value. *)
Theorem animated_value_moves_toward_the_final_value
        (a : BaseRenderNodeAnimator) (i i' : TreeInfo) (from final : Z) :
  mPlayState a = RUNNING ->
  0 < mDuration a < 2 ^ 63 ->
  0 <= mStartTime a <= frameTimeMs i ->
  frameTimeMs i <= frameTimeMs i' < 2 ^ 63 ->
  mFromValue a = of_int from ->
  mFinalValue a = of_int final ->
  mDeltaValue a = fsub (mFinalValue a) (mFromValue a) ->
  0 <= from < 2 ^ 24 -> 0 <= final < 2 ^ 24 ->
  let v := animatedValue a (linearInterpolator (clampedFraction a i)) in
  let v' := animatedValue a (linearInterpolator (clampedFraction a i')) in
  (from <= final ->
   fle (of_int from) v = true /\ fle v v' = true /\ fle v' (of_int final) = true)
  /\ (final <= from ->
      fle (of_int final) v' = true /\ fle v' v = true /\ fle v (of_int from) = true).
Proof.
  intros Hp Hd Hs Hf Hfrom Hfinal Hdelta Ha Hb v v'.
  assert (Hdel : mDeltaValue a = of_int (final - from)).
  { rewrite Hdelta, Hfrom, Hfinal. apply fsub_of_int; lia. }
  pose proof (clampedFraction_shape a i Hp Hd Hs ltac:(lia)) as Sf.
  pose proof (clampedFraction_shape a i' Hp Hd ltac:(lia) ltac:(lia)) as Sf'.
  pose proof (clampedFraction_mono a i i' Hp Hd Hs (proj1 Hf) (proj2 Hf)) as Hmono.
  destruct (clampedFraction_range a i' Hp Hd ltac:(lia) ltac:(lia)) as [_ Hone].
  unfold v, v', animatedValue, linearInterpolator. rewrite Hfrom, Hdel.
  split.
  - intros Hle.
    destruct (value_increasing from (final - from) Ha ltac:(lia) _ _ Sf Sf' Hmono Hone
                ltac:(lia)) as (V1 & V2 & V3).
    replace (from + (final - from)) with final in V3 by lia.
    repeat split; assumption.
  - intros Hge. destruct (Z.eq_dec final from) as [->|Hne].
    + destruct (value_increasing from (from - from) Ha ltac:(lia) _ _ Sf Sf' Hmono Hone
                  ltac:(lia)) as (V1 & V2 & V3).
      replace (from + (from - from)) with from in V3 by lia.
      assert (N1 : nonneg_finite (of_int from))
        by (apply (zero_or_normal_nonneg (-23) 0), of_int_zero_or_normal; exact Ha).
      assert (Hv : forall x, zero_or_normal (-87) (-23) x ->
                             nonneg_finite (fadd (of_int from) (fmul (of_int (from - from)) x))).
      { intros x Hx.
        destruct (of_int_zero_or_normal from Ha) as [HF _].
        destruct (of_int_zero_or_normal (from - from) ltac:(lia)) as [HD _].
        destruct (fmul_zero_or_normal _ x HD Hx) as [_ Zx].
        rewrite fadd_zero_or_normal by assumption. apply round_scaled_nonneg. }
      split; [|split].
      * eapply fle_trans; [| | |exact V1|exact V2]; auto.
      * eapply fle_trans; [| | |exact V3|exact V1]; auto.
      * eapply fle_trans; [| | |exact V2|exact V3]; auto.
    + replace (final - from) with (- (from - final)) by lia.
      destruct (value_decreasing from (from - final) Ha ltac:(lia) _ _ Sf Sf' Hmono Hone
                  ltac:(lia)) as (V1 & V2 & V3).
      replace (from - (from - final)) with final in V1 by lia.
      repeat split; assumption.
Qed.

Lemma animated_value_moves_toward_the_final_value_witness :
  let a := runningAnimator (of_int 255) (of_int 0) 100 300 in
  let i := mkTreeInfo 200 false None in
  let i' := mkTreeInfo 333 false None in
  mPlayState a = RUNNING
  /\ 0 < mDuration a < 2 ^ 63
  /\ 0 <= mStartTime a <= frameTimeMs i
  /\ frameTimeMs i <= frameTimeMs i' < 2 ^ 63
  /\ mFromValue a = of_int 255 /\ mFinalValue a = of_int 0
  /\ fle (of_int 0) (animatedValue a (linearInterpolator (clampedFraction a i'))) = true
  /\ fle (animatedValue a (linearInterpolator (clampedFraction a i')))
         (animatedValue a (linearInterpolator (clampedFraction a i))) = true
  /\ fle (animatedValue a (linearInterpolator (clampedFraction a i))) (of_int 255) = true.
Proof.
  cbv zeta.
  assert (H1 : mPlayState (runningAnimator (of_int 255) (of_int 0) 100 300) = RUNNING)
    by reflexivity.
  assert (H2 : 0 < 300 < 2 ^ 63) by (split; reflexivity).
  assert (H3 : 0 <= 100 <= 200) by (split; discriminate).
  assert (H4 : 200 <= 333 < 2 ^ 63) by (split; [discriminate|reflexivity]).
  assert (H5 : 0 <= 255 < 2 ^ 24) by (split; [discriminate|reflexivity]).
  assert (H6 : 0 <= 0 < 2 ^ 24) by (split; [discriminate|reflexivity]).
  assert (H7 : 0 <= 255) by discriminate.
  do 6 (split; [first [exact H1 | exact H2 | exact H3 | exact H4 | reflexivity]|]).
  exact (proj2 (animated_value_moves_toward_the_final_value
                  (runningAnimator (of_int 255) (of_int 0) 100 300)
                  (mkTreeInfo 200 false None) (mkTreeInfo 333 false None) 255 0
                  H1 H2 H3 H4 eq_refl eq_refl eq_refl H5 H6) H7).
Defined.
